(** * Automatic DAG layout engine ([src/graph/layout.rs])

    A shallow embedding of [DagLayout::apply] as written by
    [src/update_layout.py] and patched by [src/update_layout_clippy.py],
    together with the properties of the layout that the specification
    states about it; and, after them, the tables of categories, templates
    and statuses that the other scripts of [src/] install, the scripts
    themselves as functions on the text of a file, and what holds of
    them. *)

From Stdlib Require Import ZArith Zpower Floats.SpecFloat.
From stdpp Require Import gmap list sorting strings.

(** ** Single-precision floats

    Rust's [f32] is IEEE-754 binary32: 24 bits of precision and infinities at
    exponent 128.  The operations are those of the standard library's
    executable specification of IEEE arithmetic, round-to-nearest-even. *)
Module F32.

Definition prec : Z := 24.
Definition emax : Z := 128.

Definition f32 : Type := spec_float.

Definition add : f32 → f32 → f32 := SFadd prec emax.
Definition sub : f32 → f32 → f32 := SFsub prec emax.
Definition mul : f32 → f32 → f32 := SFmul prec emax.
Definition div : f32 → f32 → f32 := SFdiv prec emax.
Definition neg : f32 → f32 := SFopp.

(** [n as f32] for an unsigned integer [n]. *)
Definition of_Z (z : Z) : f32 := binary_normalize prec emax z 0 false.
Definition of_usize (n : nat) : f32 := of_Z (Z.of_nat n).

(** [a.partial_cmp(&b)]: [None] exactly when an operand is NaN. *)
Definition partial_cmp : f32 → f32 → option comparison := SFcompare.

(** [a > b]. *)
Definition gt (a b : f32) : bool := SFltb b a.

Definition zero : f32 := S754_zero false.
Definition one : f32 := of_Z 1.
Definition two : f32 := of_Z 2.

Definition is_nan (a : f32) : bool :=
  match a with S754_nan => true | _ => false end.

Definition is_finite (a : f32) : bool :=
  match a with S754_zero _ | S754_finite _ _ _ => true | _ => false end.

(** The exact value of a float, when it is an integer. *)
Definition to_Z (a : f32) : option Z :=
  match a with
  | S754_zero _ => Some 0%Z
  | S754_finite s m e =>
      let v := if s then Z.neg m else Z.pos m in
      match e with
      | Z0 => Some v
      | Z.pos p => Some (v * 2 ^ Z.pos p)%Z
      | Z.neg p =>
          if (v mod 2 ^ Z.pos p =? 0)%Z then Some (v / 2 ^ Z.pos p)%Z else None
      end
  | _ => None
  end.

(** Neither NaN nor negative: [+0], a positive finite number or [+inf]. *)
Definition is_nonneg (a : f32) : bool :=
  match a with
  | S754_zero false | S754_infinity false | S754_finite false _ _ => true
  | _ => false
  end.

(** The float of sign [s] and magnitude [n * 2 ^ j], for [n] that fits the
    mantissa. *)
Definition exact (s : bool) (n : positive) (j : Z) : f32 :=
  let d := Z.pos (digits2_pos n) in
  S754_finite s (Z.to_pos (Z.pos n * 2 ^ (24 - d))) (j + d - 24).
End F32.

Export F32(f32).

(** ** Data model *)

(** [NodeId] is an opaque [Copy + Eq + Hash] key. *)
Definition NodeId : Type := nat.

(** The layout reads a node's [id] and overwrites its [x] and [y]; the other
    fields of a node are never read or written. *)
Record Node : Type := mkNode { id : NodeId; x : f32; y : f32 }.

Record Connection : Type := mkConnection { source : NodeId; target : NodeId }.

Record Workflow : Type :=
  mkWorkflow { nodes : list Node; connections : list Connection }.

Record DagLayout : Type :=
  mkDagLayout { layer_spacing : f32; node_spacing : f32 }.

(** [impl Default for DagLayout]. *)
Definition DagLayout_default : DagLayout :=
  {| layer_spacing := F32.of_Z 140; node_spacing := F32.of_Z 60 |}.

(** ** The part of petgraph's [Graph] that the layout uses

    Nodes are numbered in insertion order; [NodeIndex] is the position of the
    weight.  Edges are kept with multiplicity.  [neighbors_directed(v,
    Incoming)] walks the list of edges entering [v] from the edge added last
    to the edge added first. *)
Module Graph.

Record t : Type := mk { weights : list NodeId; edges : list (nat * nat) }.

Definition new : t := {| weights := []; edges := [] |}.

Definition node_count (g : t) : nat := length (weights g).

Definition add_node (g : t) (w : NodeId) : t * nat :=
  ({| weights := weights g ++ [w]; edges := edges g |}, node_count g).

Definition add_edge (g : t) (a b : nat) : t :=
  {| weights := weights g; edges := edges g ++ [(a, b)] |}.

Definition incoming (g : t) (v : nat) : list nat :=
  (filter (λ e, e.2 = v) (reverse (edges g))).*1.

End Graph.

(** ** Panics

    A computation that may panic returns [None] when it does. *)
Fixpoint try_fold {A B : Type} (f : A → B → option A) (a : A) (l : list B)
  : option A :=
  match l with
  | [] => Some a
  | b :: l' => a' ← f a b; try_fold f a' l'
  end.

(** ** Topological order

    [petgraph::algo::toposort] is a library function: [Err(Cycle)] when the
    graph has a cycle, otherwise [Ok] of all node indices with every edge
    pointing forward.  The model repeatedly emits the first node all of whose
    predecessors have been emitted.  Which topological order is returned is
    immaterial to the layout (lemma [assign_layers_spec]). *)
Definition ready (g : Graph.t) (placed : list nat) (v : nat) : bool :=
  forallb (λ p, bool_decide (p ∈ placed)) (Graph.incoming g v).

Fixpoint kahn (g : Graph.t) (fuel : nat) (placed todo : list nat)
  : option (list nat) :=
  match fuel with
  | 0 => match todo with [] => Some (reverse placed) | _ => None end
  | S fuel' =>
      match list_find (λ v, ready g placed v = true) todo with
      | Some (_, v) => kahn g fuel' (v :: placed) (filter (λ u, u ≠ v) todo)
      | None => match todo with [] => Some (reverse placed) | _ => None end
      end
  end.

Definition toposort (g : Graph.t) : option (list nat) :=
  kahn g (Graph.node_count g) [] (seq 0 (Graph.node_count g)).

(** ** Iteration over a [HashMap]

    [for (k, v) in &map] visits the entries in an order fixed by the hasher's
    random state, not by the keys.  [seed] stands for that state: every seed
    gives a permutation of the entries, and every permutation is given by
    some seed (lemmas [hash_iter_perm] and [hash_iter_any]). *)
Fixpoint hash_iter {A : Type} (seed : list nat) (l : list A) : list A :=
  match l with
  | [] => []
  | a :: l' =>
      let r := hash_iter (tail seed) l' in
      let k := hd 0 seed `mod` S (length r) in
      take k r ++ a :: drop k r
  end.

(** ** [slice::sort_by]

    A stable sort.  Stable insertion sort with a comparator that may panic;
    an element moves right past the elements that compare strictly smaller
    than it. *)
Section SortBy.
Context {A : Type} (cmp : A → A → option comparison).

Fixpoint insert_by (a : A) (l : list A) : option (list A) :=
  match l with
  | [] => Some [a]
  | b :: l' =>
      c ← cmp a b;
      match c with
      | Gt => l'' ← insert_by a l'; Some (b :: l'')
      | _ => Some (a :: b :: l')
      end
  end.

Fixpoint sort_by (l : list A) : option (list A) :=
  match l with
  | [] => Some []
  | a :: l' => s ← sort_by l'; insert_by a s
  end.
End SortBy.

(** [a] sorts no later than [b]. *)
Definition not_after {A : Type} (cmp : A → A → option comparison) (a b : A) : Prop :=
  cmp a b = Some Lt ∨ cmp a b = Some Eq.

(** A node paired with its sort key, as in [barycenters]. *)
Definition keyed {A K : Type} (key : A → K) (a : A) : A * K := (a, key a).

(** The comparator of [update_layout.py]:
    [a.1.partial_cmp(&b.1).unwrap()]. *)
Definition cmp_unwrap (a b : nat * f32) : option comparison :=
  F32.partial_cmp a.2 b.2.

(** The comparator after [update_layout_clippy.py]:
    [a.1.partial_cmp(&b.1).unwrap_or(Ordering::Equal)]. *)
Definition cmp_unwrap_or (a b : nat * f32) : option comparison :=
  Some (default Eq (F32.partial_cmp a.2 b.2)).

(** ** [DagLayout::apply] *)
Module Layout.

(** Phase 0: the graph and the two identifier maps. *)
Definition add_nodes (ns : list Node)
  : Graph.t * gmap NodeId nat * gmap nat NodeId :=
  foldl (λ '(graph, index_map, reverse_map) node,
           let '(graph, idx) := Graph.add_node graph (id node) in
           (graph, <[id node := idx]> index_map, <[idx := id node]> reverse_map))
        (Graph.new, ∅, ∅) ns.

Definition add_edges (index_map : gmap NodeId nat) (cs : list Connection)
  (graph : Graph.t) : Graph.t :=
  foldl (λ graph conn,
           match index_map !! source conn, index_map !! target conn with
           | Some src, Some tgt => Graph.add_edge graph src tgt
           | _, _ => graph
           end) graph cs.

Definition build (workflow : Workflow)
  : Graph.t * gmap NodeId nat * gmap nat NodeId :=
  let '(graph, index_map, reverse_map) := add_nodes (nodes workflow) in
  (add_edges index_map (connections workflow) graph, index_map, reverse_map).

(** Phase 2: longest-path layering along the topological order. *)
Definition node_layer (graph : Graph.t) (layers : gmap nat nat) (node_idx : nat)
  : nat :=
  foldl (λ layer parent,
           match layers !! parent with
           | Some parent_layer => layer `max` (parent_layer + 1)
           | None => layer
           end) 0 (Graph.incoming graph node_idx).

Definition assign_layers (graph : Graph.t) (sorted_indices : list nat)
  : gmap nat nat :=
  foldl (λ layers node_idx, <[node_idx := node_layer graph layers node_idx]> layers)
        ∅ sorted_indices.

(** Group by layer.  [nodes_by_layer[layer]] is an indexing operation. *)
Definition push_node (nodes_by_layer : list (list nat)) (entry : nat * nat)
  : option (list (list nat)) :=
  let '(node_idx, layer) := entry in
  let nodes_by_layer :=
    nodes_by_layer ++ replicate (S layer - length nodes_by_layer) [] in
  cur ← nodes_by_layer !! layer;
  Some (<[layer := cur ++ [node_idx]]> nodes_by_layer).

Definition group_by_layer (entries : list (nat * nat)) : option (list (list nat)) :=
  try_fold push_node [] entries.

(** Phase 3: the barycenter of a node with respect to the layer above. *)
Definition position (l : list nat) (p : nat) : option nat :=
  fst <$> list_find (λ n, n = p) l.

Definition barycenter (graph : Graph.t) (prev : list nat) (node : nat) : f32 :=
  let '(sum, count) :=
    foldl (λ '(sum, count) parent,
             match position prev parent with
             | Some pos => (F32.add sum (F32.of_usize pos), F32.add count F32.one)
             | None => (sum, count)
             end) (F32.zero, F32.zero) (Graph.incoming graph node) in
  if F32.gt count F32.zero then F32.div sum count else F32.zero.

Section Crossing.
Context (cmp : nat * f32 → nat * f32 → option comparison).

Definition reorder_layer (graph : Graph.t) (nodes_by_layer : list (list nat))
  (layer_idx : nat) : option (list (list nat)) :=
  cur ← nodes_by_layer !! layer_idx;
  prev ← nodes_by_layer !! (layer_idx - 1);
  let barycenters := keyed (barycenter graph prev) <$> cur in
  sorted ← sort_by cmp barycenters;
  Some (<[layer_idx := sorted.*1]> nodes_by_layer).

Definition sweep (graph : Graph.t) (nodes_by_layer : list (list nat))
  : option (list (list nat)) :=
  try_fold (reorder_layer graph) nodes_by_layer
           (seq 1 (length nodes_by_layer - 1)).

Definition minimize_crossings (graph : Graph.t)
  (nodes_by_layer : list (list nat)) : option (list (list nat)) :=
  try_fold (λ nbl _, sweep graph nbl) nodes_by_layer (seq 0 4).
End Crossing.

(** Phase 4: coordinates, written back by identifier. *)
Definition write_back (ns : list Node) (node_id : NodeId) (nx ny : f32)
  : list Node :=
  match list_find (λ n, id n = node_id) ns with
  | Some (k, n) => <[k := {| id := id n; x := nx; y := ny |}]> ns
  | None => ns
  end.

Definition layer_width (cfg : DagLayout) (k : nat) : f32 :=
  F32.sub (F32.mul (F32.of_usize k) (F32.add (F32.of_Z 240) (node_spacing cfg)))
          (node_spacing cfg).

Definition start_x (cfg : DagLayout) (k : nat) : f32 :=
  F32.div (F32.neg (layer_width cfg k)) F32.two.

Definition node_x (cfg : DagLayout) (k i : nat) : f32 :=
  F32.add (start_x cfg k)
          (F32.mul (F32.of_usize i) (F32.add (F32.of_Z 240) (node_spacing cfg))).

Definition node_y (cfg : DagLayout) (layer : nat) : f32 :=
  F32.mul (F32.of_usize layer) (layer_spacing cfg).

Definition place_layer (cfg : DagLayout) (reverse_map : gmap nat NodeId)
  (ns : list Node) (entry : nat * list nat) : list Node :=
  let '(layer, members) := entry in
  foldl (λ ns '(i, node_idx),
           match reverse_map !! node_idx with
           | Some node_id =>
               write_back ns node_id (node_x cfg (length members) i)
                          (node_y cfg layer)
           | None => ns
           end) ns (imap pair members).

Definition assign_coordinates (cfg : DagLayout) (reverse_map : gmap nat NodeId)
  (nodes_by_layer : list (list nat)) (ns : list Node) : list Node :=
  foldl (place_layer cfg reverse_map) ns (imap pair nodes_by_layer).

(** The whole operation.  [cmp] is the sort comparator (the two revisions of
    the source differ only there) and [seed] the state of the hasher of the
    [layers] map.  [None] is a panic; the workflow returned is the one left
    behind in [workflow]. *)
Definition apply_with (cmp : nat * f32 → nat * f32 → option comparison)
  (seed : list nat) (cfg : DagLayout) (workflow : Workflow) : option Workflow :=
  if bool_decide (nodes workflow = []) then Some workflow else
  let '(graph, _, reverse_map) := build workflow in
  match toposort graph with
  | None => Some workflow
  | Some sorted_indices =>
      let layers := assign_layers graph sorted_indices in
      nodes_by_layer ← group_by_layer (hash_iter seed (map_to_list layers));
      nodes_by_layer ← minimize_crossings cmp graph nodes_by_layer;
      Some {| nodes := assign_coordinates cfg reverse_map nodes_by_layer
                                           (nodes workflow);
              connections := connections workflow |}
  end.

(** [apply] as the repository has it after both scripts have run. *)
Definition apply : list nat → DagLayout → Workflow → option Workflow :=
  apply_with cmp_unwrap_or.

(** [apply] as [update_layout.py] alone leaves it. *)
Definition apply_unwrap : list nat → DagLayout → Workflow → option Workflow :=
  apply_with cmp_unwrap.

End Layout.

(** ** Vocabulary of the specification *)

(** A non-empty walk along the edges of the internal graph. *)
Inductive path (g : Graph.t) : nat → nat → Prop :=
  | path_edge u v : (u, v) ∈ Graph.edges g → path g u v
  | path_snoc u v w : path g u v → (v, w) ∈ Graph.edges g → path g u w.

Definition cyclic (g : Graph.t) : Prop := ∃ v, path g v v.

(** Every edge joins two existing nodes. *)
Definition well_formed (g : Graph.t) : Prop :=
  ∀ u v, (u, v) ∈ Graph.edges g → u < Graph.node_count g ∧ v < Graph.node_count g.

(** The nodes are emitted so that a node comes after all its predecessors;
    the list is in reverse order of emission. *)
Inductive emitted (g : Graph.t) : list nat → Prop :=
  | emitted_nil : emitted g []
  | emitted_cons v placed :
      emitted g placed → v ∉ placed →
      (∀ p, p ∈ Graph.incoming g v → p ∈ placed) →
      emitted g (v :: placed).

(** The edge that a connection contributes, if both endpoints resolve. *)
Definition resolve (index_map : gmap NodeId nat) (conn : Connection)
  : option (nat * nat) :=
  match index_map !! source conn, index_map !! target conn with
  | Some src, Some tgt => Some (src, tgt)
  | _, _ => None
  end.

(** The internal graph of a workflow. *)
Definition graph_of (workflow : Workflow) : Graph.t := (Layout.build workflow).1.1.

(** The members of a layer, from left to right; no members beyond the
    last layer. *)
Definition layer_at (nodes_by_layer : list (list nat)) (layer : nat) : list nat :=
  default [] (nodes_by_layer !! layer).

(** The layer map, the grouping and the final left-to-right order of a run
    of [apply] on an acyclic workflow. *)
Definition layers_of (workflow : Workflow) : gmap nat nat :=
  match toposort (graph_of workflow) with
  | Some sorted_indices => Layout.assign_layers (graph_of workflow) sorted_indices
  | None => ∅
  end.

Definition initial_order (seed : list nat) (workflow : Workflow)
  : option (list (list nat)) :=
  Layout.group_by_layer (hash_iter seed (map_to_list (layers_of workflow))).

Definition final_order (cmp : nat * f32 → nat * f32 → option comparison)
  (seed : list nat) (workflow : Workflow) : option (list (list nat)) :=
  nodes_by_layer ← initial_order seed workflow;
  Layout.minimize_crossings cmp (graph_of workflow) nodes_by_layer.

(** The positions that the loop of [barycenter] finds: one for each edge
    entering [node] whose source is in [prev], newest edge first. *)
Definition found_positions (g : Graph.t) (prev : list nat) (node : nat)
  : list nat :=
  omap (Layout.position prev) (Graph.incoming g node).

(** The crossing-minimisation phase in the words of the specification. *)
Module Spec.

(** The 0-based position of a node within a layer. *)
Fixpoint index_of (layer : list nat) (u : nat) : option nat :=
  match layer with
  | [] => None
  | a :: layer' => if decide (a = u) then Some 0 else S <$> index_of layer' u
  end.

(** The positions, in the layer above, of the direct predecessors of a node
    that reside there: the positions whose member has an edge to the
    node. *)
Definition parent_positions (g : Graph.t) (prev : list nat) (node : nat)
  : list nat :=
  (filter (λ iu, (iu.2, node) ∈ Graph.edges g) (imap pair prev)).*1.

(** The same positions taken once for each edge: for every edge that enters
    the node from the layer above, the position of its source. *)
Definition edge_positions (g : Graph.t) (prev : list nat) (node : nat)
  : list nat :=
  omap (λ e, if decide (e.2 = node) then index_of prev e.1 else None)
       (Graph.edges g).

(** The average of a list of positions, and 0 when there is none: the sum
    and the number of the positions are exact integers, the quotient is
    rounded to single precision. *)
Definition average (ps : list nat) : f32 :=
  match ps with
  | [] => F32.zero
  | _ => F32.div (F32.of_Z (Z.of_nat (sum_list ps))) (F32.of_usize (length ps))
  end.

(** The barycenter: every predecessor once, and every predecessor once for
    each edge. *)
Definition barycenter (g : Graph.t) (prev : list nat) (node : nat) : f32 :=
  average (parent_positions g prev node).

Definition edge_barycenter (g : Graph.t) (prev : list nat) (node : nat) : f32 :=
  average (edge_positions g prev node).

(** [layer'] is [layer] re-sorted by ascending key, ties keeping their
    relative order. *)
Definition ascending (key : nat → f32) (layer : list nat) : Prop :=
  Sorted (λ a b, SFleb (key a) (key b) = true) layer.

Definition ties_kept (key : nat → f32) (layer layer' : list nat) : Prop :=
  ∀ c : f32,
    filter (λ n, F32.partial_cmp (key n) c = Some Eq) layer'
    = filter (λ n, F32.partial_cmp (key n) c = Some Eq) layer.

Definition resorted (key : nat → f32) (layer layer' : list nat) : Prop :=
  layer' ≡ₚ layer ∧ ascending key layer' ∧ ties_kept key layer layer'.

(** The layers below [prev] are re-sorted from top to bottom, each against
    the new order of the layer just above it; [bary prev n] is the barycenter
    of [n] with respect to [prev]. *)
Inductive swept (bary : list nat → nat → f32)
  : list nat → list (list nat) → list (list nat) → Prop :=
  | swept_nil prev : swept bary prev [] []
  | swept_cons prev layer layer' rest rest' :
      resorted (bary prev) layer layer' →
      swept bary layer' rest rest' →
      swept bary prev (layer :: rest) (layer' :: rest').

(** One pass: layer 0 stays, the others are swept. *)
Definition pass (bary : list nat → nat → f32) (nbl nbl' : list (list nat)) : Prop :=
  match nbl, nbl' with
  | [], [] => True
  | layer0 :: rest, layer0' :: rest' =>
      layer0' = layer0 ∧ swept bary layer0 rest rest'
  | _, _ => False
  end.

End Spec.

(** The coordinates that phase 4 computes, in the order in which it writes
    them: one entry per position of each layer. *)
Definition layer_writes (cfg : DagLayout) (layer : nat) (members : list nat)
  : list (nat * (f32 * f32)) :=
  imap (λ i node_idx,
          (node_idx, (Layout.node_x cfg (length members) i, Layout.node_y cfg layer)))
       members.

Definition writes (cfg : DagLayout) (nodes_by_layer : list (list nat))
  : list (nat * (f32 * f32)) :=
  mjoin (imap (layer_writes cfg) nodes_by_layer).

Definition write1 (reverse_map : gmap nat NodeId) (ns : list Node)
  (w : nat * (f32 * f32)) : list Node :=
  match reverse_map !! w.1 with
  | Some node_id => Layout.write_back ns node_id w.2.1 w.2.2
  | None => ns
  end.

(** The node that [find(|n| n.id == node_id)] returns. *)
Definition first_with (ns : list Node) (node_id : NodeId) : option nat :=
  fst <$> list_find (λ n, id n = node_id) ns.

(** Every node index sits in the layer that the layer map gives it, once. *)
Definition layered (layers : gmap nat nat) (nodes_by_layer : list (list nat)) : Prop :=
  (∀ v L, v ∈ layer_at nodes_by_layer L ↔ layers !! v = Some L) ∧
  (∀ L, NoDup (layer_at nodes_by_layer L)) ∧
  (∀ K, K < length nodes_by_layer ↔ ∃ v L, layers !! v = Some L ∧ K ≤ L).

(** ** Example workflows *)
Definition node_at (i : NodeId) : Node :=
  {| id := i; x := F32.of_Z 7; y := F32.of_Z 9 |}.

Definition edge (a b : NodeId) : Connection := {| source := a; target := b |}.

(** [1 → 2 → 1], and a connection to a node that does not exist. *)
Definition two_cycle : Workflow :=
  {| nodes := [node_at 1; node_at 2]; connections := [edge 1 2; edge 2 1; edge 2 9] |}.

(** [1 → 1] next to an unrelated node. *)
Definition self_loop : Workflow :=
  {| nodes := [node_at 1; node_at 2]; connections := [edge 1 1] |}.

(** [10 → 20 → 30]. *)
Definition chain : Workflow :=
  {| nodes := [node_at 10; node_at 20; node_at 30];
     connections := [edge 10 20; edge 20 30] |}.

(** [1 → 2 → 4] and [1 → 3 → 4]. *)
Definition diamond : Workflow :=
  {| nodes := [node_at 1; node_at 2; node_at 3; node_at 4];
     connections := [edge 1 2; edge 1 3; edge 2 4; edge 3 4] |}.

Definition one_node : Workflow := {| nodes := [node_at 1]; connections := [] |}.

Definition two_roots : Workflow :=
  {| nodes := [node_at 1; node_at 2]; connections := [] |}.

(** Two nodes with the same identifier, and a third one below them. *)
Definition twins : Workflow :=
  {| nodes := [node_at 1; node_at 1; node_at 2]; connections := [edge 1 2] |}.

(** The exact value of the [x] of the node at an index, and the least and
    greatest of them on a layer. *)
Definition x_value (workflow : Workflow) (node_idx : nat) : option Z :=
  n ← nodes workflow !! node_idx; F32.to_Z (x n).

Definition x_extent (workflow : Workflow) (members : list nat) (lo hi : Z) : Prop :=
  (∃ v, v ∈ members ∧ x_value workflow v = Some lo) ∧
  (∃ v, v ∈ members ∧ x_value workflow v = Some hi) ∧
  ∀ v, v ∈ members → ∃ z, x_value workflow v = Some z ∧ (lo ≤ z ≤ hi)%Z.

(** The exact value of the [y] of the node at an index. *)
Definition y_value (workflow : Workflow) (node_idx : nat) : option Z :=
  n ← nodes workflow !! node_idx; F32.to_Z (y n).

(** A walk of a given number of edges. *)
Inductive walk (g : Graph.t) : nat → nat → nat → Prop :=
  | walk_nil v : walk g 0 v v
  | walk_snoc n u v w : walk g n u v → (v, w) ∈ Graph.edges g → walk g (S n) u w.

(** [chain] with its nodes somewhere else on the canvas. *)
Definition chain_moved : Workflow :=
  {| nodes := [ {| id := 10; x := F32.of_Z 350; y := F32.of_Z 40 |};
                {| id := 20; x := F32.of_Z 350; y := F32.of_Z 170 |};
                {| id := 30; x := F32.of_Z 350; y := F32.of_Z 300 |} ];
     connections := [edge 10 20; edge 20 30] |}.

(** [diamond] with its connections listed in another order. *)
Definition diamond_shuffled : Workflow :=
  {| nodes := nodes diamond;
     connections := [edge 1 3; edge 1 2; edge 3 4; edge 2 4] |}.

(** [diamond] with its nodes listed in another order. *)
Definition diamond_reordered : Workflow :=
  {| nodes := [node_at 2; node_at 1; node_at 4; node_at 3];
     connections := connections diamond |}.

(** [chain] without its second connection. *)
Definition chain_cut : Workflow :=
  {| nodes := nodes chain; connections := [edge 10 20] |}.

(** [diamond] with one of its connections listed twice. *)
Definition diamond_doubled : Workflow :=
  {| nodes := nodes diamond;
     connections := [edge 1 2; edge 1 3; edge 2 4; edge 3 4; edge 2 4] |}.

(** Two roots and two nodes below them, each hanging from one root; the
    connections are listed so that they cross. *)
Definition two_pairs : Workflow :=
  {| nodes := [node_at 1; node_at 2; node_at 3; node_at 4];
     connections := [edge 1 4; edge 2 3] |}.

(** Two nodes with the same identifier, the second of them high up on the
    canvas, and a third node below them. *)
Definition dup_edge : Workflow :=
  {| nodes := [ node_at 1;
                {| id := 1; x := F32.of_Z 7; y := F32.of_Z 1000 |};
                node_at 2 ];
     connections := [edge 1 2] |}.

(** A root whose identifier is used again by a node of the next layer. *)
Definition dup_root : Workflow :=
  {| nodes := [node_at 1; node_at 2; node_at 1]; connections := [edge 2 1] |}.

(** Four roots and two nodes below them; one connection is listed twice. *)
Definition weighted : Workflow :=
  {| nodes := [node_at 1; node_at 2; node_at 3; node_at 4; node_at 5; node_at 6];
     connections := [edge 3 5; edge 3 5; edge 1 5; edge 3 6; edge 4 6; edge 1 6] |}.

(** Two roots, each joined to the third node by [N] connections. *)
Definition fan (N : nat) : Workflow :=
  {| nodes := [node_at 1; node_at 2; node_at 3];
     connections := replicate N (edge 1 3) ++ replicate N (edge 2 3) |}.

(** A configuration with an infinite [layer_spacing]. *)
Definition DagLayout_infinite : DagLayout :=
  {| layer_spacing := S754_infinity false; node_spacing := F32.of_Z 60 |}.

(** ** Node categories

    [src/graph/mod.rs]: the enum and its [Display] before and after
    [src/update_graph.py]. *)
Module UpdateGraph.

Inductive OldNodeCategory : Type := Trigger | Action | Logic | Output | Restate.

Inductive NodeCategory : Type := Entry | Durable | State | Flow | Timing | Signal.

Definition old_fmt (self : OldNodeCategory) : string :=
  match self with
  | Trigger => "trigger"
  | Action => "action"
  | Logic => "logic"
  | Output => "output"
  | Restate => "restate"
  end.

Definition new_fmt (self : NodeCategory) : string :=
  match self with
  | Entry => "entry"
  | Durable => "durable"
  | State => "state"
  | Flow => "flow"
  | Timing => "timing"
  | Signal => "signal"
  end.

End UpdateGraph.

Export UpdateGraph.

(** [src/main.rs]: the badge of the selected node, before and after
    [src/update_main_category.py]. *)
Module UpdateMainCategory.

Definition old_badges (category : OldNodeCategory) : string :=
  match category with
  | Trigger => "bg-emerald-500/15 text-emerald-300 border-emerald-500/25"
  | Action => "bg-indigo-500/15 text-indigo-300 border-indigo-500/25"
  | Logic => "bg-amber-500/15 text-amber-300 border-amber-500/25"
  | Output => "bg-pink-500/15 text-pink-300 border-pink-500/25"
  | Restate => "bg-blue-500/15 text-blue-300 border-blue-500/25"
  end.

Definition new_badges (category : NodeCategory) : string :=
  match category with
  | Entry => "bg-emerald-500/15 text-emerald-300 border-emerald-500/25"
  | Durable => "bg-indigo-500/15 text-indigo-300 border-indigo-500/25"
  | State => "bg-orange-500/15 text-orange-300 border-orange-500/25"
  | Flow => "bg-amber-500/15 text-amber-300 border-amber-500/25"
  | Timing => "bg-pink-500/15 text-pink-300 border-pink-500/25"
  | Signal => "bg-blue-500/15 text-blue-300 border-blue-500/25"
  end.

End UpdateMainCategory.

(** [src/ui/node.rs]: border, icon background and accent bar of a node,
    before and after [src/update_ui_node.py]. *)
Module UpdateUiNode.

Definition old_border (category : OldNodeCategory) : string :=
  match category with
  | Trigger => "border-emerald-500/40"
  | Action => "border-indigo-500/40"
  | Logic => "border-amber-500/40"
  | Output => "border-pink-500/40"
  | Restate => "border-blue-500/40"
  end.

Definition new_border (category : NodeCategory) : string :=
  match category with
  | Entry => "border-emerald-500/40"
  | Durable => "border-indigo-500/40"
  | State => "border-orange-500/40"
  | Flow => "border-amber-500/40"
  | Timing => "border-pink-500/40"
  | Signal => "border-blue-500/40"
  end.

Definition old_bg (category : OldNodeCategory) : string :=
  match category with
  | Trigger => "bg-emerald-500/15 text-emerald-400"
  | Action => "bg-indigo-500/15 text-indigo-500"
  | Logic => "bg-amber-500/15 text-amber-400"
  | Output => "bg-pink-500/15 text-pink-400"
  | Restate => "bg-blue-500/15 text-blue-400"
  end.

Definition new_bg (category : NodeCategory) : string :=
  match category with
  | Entry => "bg-emerald-500/15 text-emerald-400"
  | Durable => "bg-indigo-500/15 text-indigo-500"
  | State => "bg-orange-500/15 text-orange-400"
  | Flow => "bg-amber-500/15 text-amber-400"
  | Timing => "bg-pink-500/15 text-pink-400"
  | Signal => "bg-blue-500/15 text-blue-400"
  end.

Definition old_accent (category : OldNodeCategory) : string :=
  match category with
  | Trigger => "bg-emerald-500/40"
  | Action => "bg-indigo-500/40"
  | Logic => "bg-amber-500/40"
  | Output => "bg-pink-500/40"
  | Restate => "bg-blue-500/40"
  end.

Definition new_accent (category : NodeCategory) : string :=
  match category with
  | Entry => "bg-emerald-500/40"
  | Durable => "bg-indigo-500/40"
  | State => "bg-orange-500/40"
  | Flow => "bg-amber-500/40"
  | Timing => "bg-pink-500/40"
  | Signal => "bg-blue-500/40"
  end.

End UpdateUiNode.

(** [src/ui/sidebar.rs] after [src/update_sidebar.py]: the node templates,
    the order of the groups, and the label and the colours of a group. *)
Module UpdateSidebar.

Record NodeTemplate : Type := mkNodeTemplate {
  node_type : string; label : string; description : string;
  icon : string; category : string }.

(** The length that the array type declares. *)
Definition NODE_TEMPLATES_len : nat := 24.

Definition NODE_TEMPLATES : list NodeTemplate :=
  [ mkNodeTemplate "http-handler" "HTTP Handler"
        "Handle HTTP/gRPC invocation" "globe" "entry";
    mkNodeTemplate "kafka-handler" "Kafka Consumer"
        "Consume events from Kafka topic" "kafka" "entry";
    mkNodeTemplate "cron-trigger" "Cron Trigger"
        "Schedule periodic execution" "clock" "entry";
    mkNodeTemplate "workflow-submit" "Workflow Submit"
        "Submit workflow with key" "play-circle" "entry";
    mkNodeTemplate "run" "Durable Step"
        "ctx.run() - persisted side effect" "shield" "durable";
    mkNodeTemplate "service-call" "Service Call"
        "Request-response to service" "arrow-right" "durable";
    mkNodeTemplate "object-call" "Object Call"
        "Call virtual object handler" "box" "durable";
    mkNodeTemplate "workflow-call" "Workflow Call"
        "Submit or attach to workflow" "workflow" "durable";
    mkNodeTemplate "send-message" "Send Message"
        "Fire-and-forget one-way call" "send" "durable";
    mkNodeTemplate "delayed-send" "Delayed Message"
        "Schedule future handler call" "clock-send" "durable";
    mkNodeTemplate "get-state" "Get State"
        "ctx.get() - read persisted state" "download" "state";
    mkNodeTemplate "set-state" "Set State"
        "ctx.set() - write persisted state" "upload" "state";
    mkNodeTemplate "clear-state" "Clear State"
        "ctx.clear() / clearAll()" "eraser" "state";
    mkNodeTemplate "condition" "If / Else"
        "Conditional branching" "git-branch" "flow";
    mkNodeTemplate "switch" "Switch"
        "Multi-path routing" "git-fork" "flow";
    mkNodeTemplate "loop" "Loop / Iterate"
        "Iterate over collection" "repeat" "flow";
    mkNodeTemplate "parallel" "Parallel"
        "Promise.all() concurrent steps" "layers" "flow";
    mkNodeTemplate "compensate" "Compensate"
        "Saga compensation / rollback" "undo" "flow";
    mkNodeTemplate "sleep" "Sleep / Timer"
        "ctx.sleep() - durable pause" "timer" "timing";
    mkNodeTemplate "timeout" "Timeout"
        "orTimeout() - deadline guard" "alarm" "timing";
    mkNodeTemplate "durable-promise" "Durable Promise"
        "ctx.promise() - await external" "sparkles" "signal";
    mkNodeTemplate "awakeable" "Awakeable"
        "Pause for external completion" "bell" "signal";
    mkNodeTemplate "resolve-promise" "Resolve Promise"
        "Resolve a durable promise" "check-circle" "signal";
    mkNodeTemplate "signal-handler" "Signal Handler"
        "Shared handler for signals" "radio" "signal" ].

Definition old_order : list string := ["trigger"; "action"; "logic"; "output"; "restate"].

Definition new_order : list string := ["entry"; "durable"; "state"; "flow"; "timing"; "signal"].

Definition old_cat_match (cat : string) : string :=
  if String.eqb cat "trigger" then "Triggers"
  else if String.eqb cat "action" then "Actions"
  else if String.eqb cat "logic" then "Logic & Flow"
  else if String.eqb cat "output" then "Outputs"
  else if String.eqb cat "restate" then "Restate Workflows"
  else cat.

Definition new_cat_match (cat : string) : string :=
  if String.eqb cat "entry" then "Entry Points"
  else if String.eqb cat "durable" then "Durable Steps"
  else if String.eqb cat "state" then "State"
  else if String.eqb cat "flow" then "Control Flow"
  else if String.eqb cat "timing" then "Timing & Events"
  else if String.eqb cat "signal" then "Signals & Promises"
  else cat.

Definition old_border_bg (category : string) : string * string * string :=
  if String.eqb category "trigger"
    then ("border-emerald-500/20", "text-emerald-400", "bg-emerald-500/10")
  else if String.eqb category "action"
    then ("border-indigo-500/20", "text-indigo-400", "bg-indigo-500/10")
  else if String.eqb category "logic"
    then ("border-amber-500/20", "text-amber-400", "bg-amber-500/10")
  else if String.eqb category "output"
    then ("border-pink-500/20", "text-pink-400", "bg-pink-500/10")
  else if String.eqb category "restate"
    then ("border-blue-500/20", "text-blue-400", "bg-blue-500/10")
  else ("border-slate-700", "text-slate-400", "bg-slate-800").

Definition new_border_bg (category : string) : string * string * string :=
  if String.eqb category "entry"
    then ("border-emerald-500/20", "text-emerald-400", "bg-emerald-500/10")
  else if String.eqb category "durable"
    then ("border-indigo-500/20", "text-indigo-400", "bg-indigo-500/10")
  else if String.eqb category "state"
    then ("border-orange-500/20", "text-orange-400", "bg-orange-500/10")
  else if String.eqb category "flow"
    then ("border-amber-500/20", "text-amber-400", "bg-amber-500/10")
  else if String.eqb category "timing"
    then ("border-pink-500/20", "text-pink-400", "bg-pink-500/10")
  else if String.eqb category "signal"
    then ("border-blue-500/20", "text-blue-400", "bg-blue-500/10")
  else ("border-slate-700", "text-slate-400", "bg-slate-800").

End UpdateSidebar.

(** [src/ui/sidebar.rs]: [category_icon_bg], [category_label] and the order
    of the groups, before and after [src/update_sidebar_categories.py]. *)
Module UpdateSidebarCategories.

Definition old_ico_bg (category : string) : string :=
  if String.eqb category "trigger" then "bg-emerald-500/10 text-emerald-300 border-emerald-500/20"
  else if String.eqb category "action" then "bg-indigo-500/10 text-indigo-300 border-indigo-500/20"
  else if String.eqb category "logic" then "bg-amber-500/10 text-amber-300 border-amber-500/20"
  else if String.eqb category "output" then "bg-pink-500/10 text-pink-300 border-pink-500/20"
  else if String.eqb category "restate" then "bg-blue-500/10 text-blue-300 border-blue-500/20"
  else "bg-slate-500/10 text-slate-300 border-slate-500/20".

Definition new_ico_bg (category : string) : string :=
  if String.eqb category "entry" then "bg-emerald-500/10 text-emerald-300 border-emerald-500/20"
  else if String.eqb category "durable" then "bg-indigo-500/10 text-indigo-300 border-indigo-500/20"
  else if String.eqb category "state" then "bg-orange-500/10 text-orange-300 border-orange-500/20"
  else if String.eqb category "flow" then "bg-amber-500/10 text-amber-300 border-amber-500/20"
  else if String.eqb category "timing" then "bg-pink-500/10 text-pink-300 border-pink-500/20"
  else if String.eqb category "signal" then "bg-blue-500/10 text-blue-300 border-blue-500/20"
  else "bg-slate-500/10 text-slate-300 border-slate-500/20".

Definition old_cat_label (category : string) : string :=
  if String.eqb category "trigger" then "Triggers"
  else if String.eqb category "action" then "Actions"
  else if String.eqb category "logic" then "Logic"
  else if String.eqb category "output" then "Outputs"
  else if String.eqb category "restate" then "Restate SDK"
  else "Other".

Definition new_cat_label (category : string) : string :=
  if String.eqb category "entry" then "Entry Points"
  else if String.eqb category "durable" then "Durable Steps"
  else if String.eqb category "state" then "State"
  else if String.eqb category "flow" then "Control Flow"
  else if String.eqb category "timing" then "Timing & Events"
  else if String.eqb category "signal" then "Signals & Promises"
  else "Other".

Definition old_loop_array : list string := ["restate"; "trigger"; "action"; "logic"; "output"].

Definition new_loop_array : list string :=
  ["entry"; "durable"; "state"; "flow"; "timing"; "signal"].

End UpdateSidebarCategories.

(** [src/main.rs] after [src/update_main_init.py]: the workflow that the
    editor starts with.  [NodeId::new()] makes a fresh identifier; the
    identifiers are parameters here.  The connections are [vec![]]. *)
Module UpdateMainInit.

Record InitNode : Type := mkInitNode {
  name : string; description : string; node_type : string;
  category : NodeCategory; icon : string; init_x : Z; init_y : Z }.

Definition new_init_nodes : list InitNode :=
  [ mkInitNode "HTTP Handler" "POST /SignupWorkflow/{userId}/run"
        "http-handler" UpdateGraph.Entry "globe" 350 40;
    mkInitNode "Durable Step" "Create user in database"
        "run" UpdateGraph.Durable "shield" 350 170;
    mkInitNode "If / Else" "Check if user creation succeeded"
        "condition" UpdateGraph.Flow "git-branch" 350 300 ].

Definition new_init (id1 id2 id3 : NodeId) : Workflow :=
  {| nodes :=
       zip_with (λ a n, {| id := a; x := F32.of_Z (init_x n); y := F32.of_Z (init_y n) |})
                [id1; id2; id3] new_init_nodes;
     connections := [] |}.

End UpdateMainInit.
(** ** The patch scripts

    Each script reads a Rust source file into [content], replaces pieces of
    text and writes the result back.  A script is modelled by the function
    from the text it reads to the text it writes. *)
Module Py.

(** Text spread over several lines, as in a triple-quoted literal. *)
Definition newline : string := String (Ascii.ascii_of_nat 10) EmptyString.

Definition lines (ls : list string) : string := String.concat newline ls.

(** [old in s]. *)
Fixpoint contains (old s : string) : bool :=
  String.prefix old s ||
  match s with
  | EmptyString => false
  | String _ s' => contains old s'
  end.

(** [s.replace(old, new)]: the occurrences of [old] are found from the
    left, without overlap, and each becomes [new].  [skip] counts the
    characters of an occurrence that are still to be passed over. *)
Fixpoint replace_from (old new : string) (skip : nat) (s : string) : string :=
  match s with
  | EmptyString => EmptyString
  | String c s' =>
      match skip with
      | S skip' => replace_from old new skip' s'
      | 0 =>
          if String.prefix old s
          then String.append new (replace_from old new (String.length old - 1) s')
          else String c (replace_from old new 0 s')
      end
  end.

(** With an empty [old], [new] is put before every character and at the
    end. *)
Fixpoint intersperse (new s : string) : string :=
  match s with
  | EmptyString => new
  | String c s' => String.append new (String c (intersperse new s'))
  end.

Definition replace (s old new : string) : string :=
  match old with
  | EmptyString => intersperse new s
  | _ => replace_from old new 0 s
  end.

End Py.

(** [src/update_layout.py]: the file is read and overwritten with
    [new_layout]. *)
Module UpdateLayout.

Definition new_layout : string :=
  Py.lines
    [ "use crate::graph::{NodeId, Workflow};";
      "use petgraph::algo::toposort;";
      "use petgraph::graph::NodeIndex;";
      "use petgraph::Graph;";
      "use std::collections::{HashMap, HashSet};";
      EmptyString;
      "pub struct DagLayout {";
      "    pub layer_spacing: f32,";
      "    pub node_spacing: f32,";
      "}";
      EmptyString;
      "impl Default for DagLayout {";
      "    fn default() -> Self {";
      "        Self {";
      "            layer_spacing: 140.0,";
      "            node_spacing: 60.0,";
      "        }";
      "    }";
      "}";
      EmptyString;
      "impl DagLayout {";
      "    pub fn apply(&self, workflow: &mut Workflow) {";
      "        if workflow.nodes.is_empty() {";
      "            return;";
      "        }";
      EmptyString;
      "        let mut graph = Graph::<NodeId, ()>::new();";
      "        let mut index_map = HashMap::new();";
      "        let mut reverse_map = HashMap::new();";
      EmptyString;
      "        // Add nodes to petgraph";
      "        for node in &workflow.nodes {";
      "            let idx = graph.add_node(node.id);";
      "            index_map.insert(node.id, idx);";
      "            reverse_map.insert(idx, node.id);";
      "        }";
      EmptyString;
      "        // Add edges";
      "        for conn in &workflow.connections {";
      "            if let (Some(&src), Some(&tgt)) =";
      "                (index_map.get(&conn.source), index_map.get(&conn.target))";
      "            {";
      "                graph.add_edge(src, tgt, ());";
      "            }";
      "        }";
      EmptyString;
      "        // 1. Cycle Removal / Toposort";
      "        let sorted_indices = match toposort(&graph, None) {";
      "            Ok(indices) => indices,";
      "            Err(_) => {";
      "                // If cyclic, try to layout what we can or return";
      "                return;";
      "            }";
      "        };";
      EmptyString;
      "        // 2. Layer Assignment (Longest Path Layering)";
      "        let mut layers: HashMap<NodeIndex, usize> = HashMap::new();";
      "        for &node_idx in &sorted_indices {";
      "            let mut layer = 0;";
      "            for parent in graph.neighbors_directed(node_idx, petgraph::Direction::Incoming) {";
      "                if let Some(&parent_layer) = layers.get(&parent) {";
      "                    layer = layer.max(parent_layer + 1);";
      "                }";
      "            }";
      "            layers.insert(node_idx, layer);";
      "        }";
      EmptyString;
      "        // Group by layer";
      "        let mut nodes_by_layer: Vec<Vec<NodeIndex>> = Vec::new();";
      "        for (&node_idx, &layer) in &layers {";
      "            while nodes_by_layer.len() <= layer {";
      "                nodes_by_layer.push(Vec::new());";
      "            }";
      "            nodes_by_layer[layer].push(node_idx);";
      "        }";
      EmptyString;
      "        // 3. Crossing minimization (Barycenter heuristic)";
      "        for _ in 0..4 {";
      "            for layer_idx in 1..nodes_by_layer.len() {";
      "                let mut barycenters: Vec<(NodeIndex, f32)> = nodes_by_layer[layer_idx]";
      "                    .iter()";
      "                    .map(|&node| {";
      "                        let mut sum = 0.0;";
      "                        let mut count = 0.0;";
      "                        for parent in graph.neighbors_directed(node, petgraph::Direction::Incoming) {";
      "                            if let Some(pos) = nodes_by_layer[layer_idx - 1]";
      "                                .iter()";
      "                                .position(|&n| n == parent)";
      "                            {";
      "                                sum += pos as f32;";
      "                                count += 1.0;";
      "                            }";
      "                        }";
      "                        let barycenter = if count > 0.0 { sum / count } else { 0.0 };";
      "                        (node, barycenter)";
      "                    })";
      "                    .collect();";
      EmptyString;
      "                barycenters.sort_by(|a, b| a.1.partial_cmp(&b.1).unwrap());";
      "                nodes_by_layer[layer_idx] = barycenters.into_iter().map(|(n, _)| n).collect();";
      "            }";
      "        }";
      EmptyString;
      "        // 4. Coordinate Assignment";
      "        for (layer, nodes) in nodes_by_layer.iter().enumerate() {";
      "            let layer_width = (nodes.len() as f32) * (240.0 + self.node_spacing) - self.node_spacing;";
      "            let start_x = -layer_width / 2.0;";
      EmptyString;
      "            for (i, &node_idx) in nodes.iter().enumerate() {";
      "                if let Some(node_id) = reverse_map.get(&node_idx) {";
      "                    if let Some(node) = workflow.nodes.iter_mut().find(|n| n.id == *node_id) {";
      "                        node.x = start_x + (i as f32) * (240.0 + self.node_spacing);";
      "                        node.y = (layer as f32) * self.layer_spacing;";
      "                    }";
      "                }";
      "            }";
      "        }";
      "    }";
      "}";
      EmptyString ].

Definition run (content : string) : string := new_layout.

End UpdateLayout.

(** [src/update_layout_clippy.py]: four replacements, one after the
    other. *)
Module UpdateLayoutClippy.

Definition old_panic : string :=
  Py.lines
    [ "    pub fn apply(&self, workflow: &mut Workflow) {" ].

Definition new_panic : string :=
  Py.lines
    [ "    /// Applies the layout to the workflow's nodes.";
      "    ///";
      "    /// # Panics";
      "    ///";
      "    /// Panics if the sort comparison fails, which should not happen for f32 partial_cmp.";
      "    #[allow(clippy::cast_precision_loss, clippy::suboptimal_flops)]";
      "    pub fn apply(&self, workflow: &mut Workflow) {" ].

Definition old_match : string :=
  Py.lines
    [ "        let sorted_indices = match toposort(&graph, None) {";
      "            Ok(indices) => indices,";
      "            Err(_) => {";
      "                // If cyclic, try to layout what we can or return";
      "                return;";
      "            }";
      "        };" ].

Definition new_match : string :=
  Py.lines
    [ "        let Ok(sorted_indices) = toposort(&graph, None) else {";
      "            // If cyclic, try to layout what we can or return";
      "            return;";
      "        };" ].

Definition old_unwrap : string :=
  Py.lines
    [ "barycenters.sort_by(|a, b| a.1.partial_cmp(&b.1).unwrap());" ].

Definition new_unwrap : string :=
  Py.lines
    [ "barycenters.sort_by(|a, b| a.1.partial_cmp(&b.1).unwrap_or(std::cmp::Ordering::Equal));" ].

Definition old_use : string := "use std::collections::{HashMap, HashSet};".

Definition new_use : string := "use std::collections::HashMap;".

Definition run (content : string) : string :=
  let content := Py.replace content old_use new_use in
  let content := Py.replace content old_panic new_panic in
  let content := Py.replace content old_match new_match in
  let content := Py.replace content old_unwrap new_unwrap in
  content.

End UpdateLayoutClippy.

(** [src/update_mod_clippy.py]: one replacement in [src/graph/mod.rs]. *)
Module UpdateModClippy.

Definition old_func : string :=
  Py.lines
    [ "    fn get_node_metadata(node_type: &str) -> (NodeCategory, String, String) {" ].

Definition new_func : string :=
  Py.lines
    [ "    #[allow(clippy::too_many_lines)]";
      "    fn get_node_metadata(node_type: &str) -> (NodeCategory, String, String) {" ].

Definition run (content : string) : string :=
  Py.replace content old_func new_func.

End UpdateModClippy.

(** [src/ui/node.rs] after [src/update_node_badges.py]: the badge of a
    status other than [pending].  [tuple] is
    [(bg_color, text_color, border_color, icon_name, is_spin)]. *)
Module UpdateNodeBadges.

Definition tuple (status : string) : string * string * string * string * bool :=
  if String.eqb status "running"
    then ("bg-indigo-500/15", "text-indigo-400", "border-indigo-500/30", "loader", true)
  else if String.eqb status "suspended"
    then ("bg-pink-500/15", "text-pink-400", "border-pink-500/30", "pause", false)
  else if String.eqb status "completed"
    then ("bg-emerald-500/15", "text-emerald-400", "border-emerald-500/30", "check-circle", false)
  else if String.eqb status "failed"
    then ("bg-red-500/15", "text-red-400", "border-red-500/30", "alert-circle", false)
  else if String.eqb status "retrying"
    then ("bg-amber-500/15", "text-amber-400", "border-amber-500/30", "refresh", true)
  else ("bg-slate-500/15", "text-slate-400", "border-slate-500/30", "help-circle", false).

Definition label (status : string) : string :=
  if String.eqb status "running" then "Running"
  else if String.eqb status "suspended" then "Suspended"
  else if String.eqb status "completed" then "Done"
  else if String.eqb status "failed" then "Failed"
  else if String.eqb status "retrying" then "Retrying"
  else status.

(** The class of the icon, [format!] with one argument. *)
Definition icon_class (is_spin : bool) : string :=
  String.append "h-2.5 w-2.5 " (if is_spin then "animate-spin" else EmptyString).

End UpdateNodeBadges.

(** [src/fix_node_badges.py]: its first two replacements, and the class of
    the icon in the [rsx!] markup that the third one installs. *)
Module FixNodeBadges.

Definition old_tuple : string := "let (bg_color, text_color, border_color, icon_name, is_spin) =".

Definition new_tuple : string := "let tuple =".

Definition old_spacing : string := "                                }".

Definition new_spacing : string := "                                }".

Definition ensure_spacing (content : string) : string :=
  Py.replace content old_spacing new_spacing.

(** The class of the icon that the new markup computes. *)
Definition icon_class (is_spin : bool) : string :=
  if is_spin then "h-2.5 w-2.5 animate-spin" else "h-2.5 w-2.5".

End FixNodeBadges.

(** * Properties *)

(** ** The graph *)
Section GraphFacts.
Context (g : Graph.t).

Lemma elem_of_incoming p v : p ∈ Graph.incoming g v ↔ (p, v) ∈ Graph.edges g.
Proof.
  unfold Graph.incoming. rewrite list_elem_of_fmap. split.
  - intros [[a b] [-> [Hb Hin]%list_elem_of_filter]]. simpl in *. subst.
    by apply elem_of_reverse.
  - intros Hin. exists (p, v). split; [done|].
    apply list_elem_of_filter. split; [done|]. by apply elem_of_reverse.
Qed.

Lemma path_trans u v w : path g u v → path g v w → path g u w.
Proof.
  intros Huv Hvw. induction Hvw as [v w He|v x w _ IH He].
  - by eapply path_snoc.
  - eapply path_snoc; [|done]. by apply IH.
Qed.

Lemma path_last u w :
  path g u w → ∃ p, (p, w) ∈ Graph.edges g ∧ (u = p ∨ path g u p).
Proof. destruct 1 as [u w He|u v w Hp He]; eauto. Qed.

Lemma path_valid u w :
  well_formed g → path g u w →
  u < Graph.node_count g ∧ w < Graph.node_count g.
Proof.
  intros Hwf. induction 1 as [u w He|u v w _ IH He].
  - by apply Hwf.
  - split; [apply IH|]. by apply Hwf in He as [_ ?].
Qed.

(** What has been emitted is closed under predecessors... *)
Lemma emitted_edge placed u v :
  emitted g placed → (u, v) ∈ Graph.edges g → v ∈ placed → u ∈ placed.
Proof.
  induction 1 as [|x placed _ IH Hx Hpre]; intros He Hv.
  - by apply elem_of_nil in Hv.
  - apply elem_of_cons in Hv as [->|Hv].
    + right. apply Hpre. by apply elem_of_incoming.
    + right. by apply IH.
Qed.

Lemma emitted_path placed u v :
  emitted g placed → path g u v → v ∈ placed → u ∈ placed.
Proof.
  intros Hem. induction 1 as [u v He|u x v _ IH He]; intros Hv.
  - by eapply emitted_edge.
  - apply IH. by eapply emitted_edge.
Qed.

(** ... so no emitted node lies on a cycle. *)
Lemma emitted_acyclic placed v : emitted g placed → v ∈ placed → ¬ path g v v.
Proof.
  induction 1 as [|x placed Hem IH Hx Hpre]; intros Hv Hcyc.
  - by apply elem_of_nil in Hv.
  - apply elem_of_cons in Hv as [->|Hv]; [|by apply IH].
    apply path_last in Hcyc as (p & He & Hp).
    assert (p ∈ placed) as Hin by (by apply Hpre, elem_of_incoming).
    destruct Hp as [->|Hp]; [done|].
    apply Hx. by eapply emitted_path.
Qed.

Lemma emitted_NoDup placed : emitted g placed → NoDup placed.
Proof. induction 1; constructor; done. Qed.

(** A non-empty finite set of nodes each having a predecessor in the set
    contains a cycle. *)
Lemma no_source_cyclic (S : list nat) :
  S ≠ [] →
  (∀ v, v ∈ S → ∃ p, p ∈ S ∧ path g p v) →
  cyclic g.
Proof.
  induction S as [|v S IH]; [done|]. intros _ Hpre.
  destruct (Hpre v) as (q & Hq & Hqv); [by left|].
  destruct (decide (q = v)) as [->|Hne]; [by exists v|].
  apply elem_of_cons in Hq as [?|Hq]; [done|].
  apply IH; [by intros ->; apply elem_of_nil in Hq|].
  intros u Hu. destruct (Hpre u) as (p & Hp & Hpu); [by right|].
  apply elem_of_cons in Hp as [->|Hp]; [|by eauto].
  exists q. split; [done|]. by eapply path_trans.
Qed.
End GraphFacts.

(** ** The topological order *)
Section Toposort.
Context (g : Graph.t).

Lemma ready_spec placed v :
  ready g placed v = true ↔ ∀ p, p ∈ Graph.incoming g v → p ∈ placed.
Proof.
  unfold ready. induction (Graph.incoming g v) as [|q qs IH]; simpl.
  - split; [|done]. intros _ p Hp. by apply elem_of_nil in Hp.
  - rewrite andb_true_iff, IH, bool_decide_eq_true. split.
    + intros [Hq Hqs] p [->|Hp]%elem_of_cons; auto.
    + intros H. split; [apply H; by left|]. intros p Hp. apply H. by right.
Qed.

Lemma length_filter_remove (v : nat) (todo : list nat) :
  v ∈ todo → length (filter (λ u, u ≠ v) todo) < length todo.
Proof.
  intros (l1 & l2 & ->)%list_elem_of_split.
  rewrite filter_app, filter_cons_False by naive_solver.
  rewrite !length_app. simpl.
  pose proof (length_filter (λ u, u ≠ v) l1).
  pose proof (length_filter (λ u, u ≠ v) l2). lia.
Qed.

Lemma kahn_sound fuel placed todo l :
  emitted g placed → (∀ v, v ∈ todo → v ∉ placed) →
  kahn g fuel placed todo = Some l →
  ∃ placed', l = reverse placed' ∧ emitted g placed' ∧
             ∀ v, v ∈ placed' ↔ v ∈ todo ∨ v ∈ placed.
Proof.
  revert placed todo. induction fuel as [|fuel IH]; intros placed todo Hem Hdis; simpl.
  - destruct todo; [|done]. intros [= <-]. exists placed. split_and!; [done..|].
    intros v. rewrite elem_of_nil. tauto.
  - destruct (list_find _ todo) as [[i v]|] eqn:Hfind.
    + apply list_find_Some in Hfind as (Hi & Hready & _).
      apply list_elem_of_lookup_2 in Hi.
      intros Hk. apply IH in Hk as (placed' & -> & Hem' & Hel).
      * exists placed'. split_and!; [done..|]. intros u. rewrite Hel.
        rewrite list_elem_of_filter, elem_of_cons.
        destruct (decide (u = v)) as [->|]; tauto.
      * constructor; [done|by apply Hdis|]. by apply ready_spec.
      * intros u [Hne Hu]%list_elem_of_filter. rewrite elem_of_cons.
        intros [?|?]; [done|]. by eapply Hdis.
    + destruct todo; [|done]. intros [= <-]. exists placed. split_and!; [done..|].
      intros v. rewrite elem_of_nil. tauto.
Qed.

(** The selection only gets stuck on a cycle. *)
Lemma kahn_stuck fuel placed todo :
  well_formed g → length todo ≤ fuel →
  (∀ v, v < Graph.node_count g → v ∈ todo ∨ v ∈ placed) →
  kahn g fuel placed todo = None → cyclic g.
Proof.
  intros Hwf. revert placed todo.
  induction fuel as [|fuel IH]; intros placed todo Hlen Hall; simpl.
  - destruct todo; [done|simpl in Hlen; lia].
  - destruct (list_find _ todo) as [[i v]|] eqn:Hfind.
    + apply list_find_Some in Hfind as (Hi & Hready & _).
      apply list_elem_of_lookup_2 in Hi. apply IH.
      * apply length_filter_remove in Hi. lia.
      * intros u Hu. rewrite list_elem_of_filter, elem_of_cons.
        destruct (decide (u = v)) as [->|]; [by right; left|].
        destruct (Hall u Hu); naive_solver.
    + destruct todo as [|v0 todo]; [done|]. intros _.
      apply (no_source_cyclic g (v0 :: todo)); [done|].
      intros v Hv.
      rewrite list_find_None, Forall_forall in Hfind.
      specialize (Hfind v Hv).
      assert (∃ p, p ∈ Graph.incoming g v ∧ p ∉ placed) as (p & Hp & Hnp).
      { destruct (decide (Forall (λ p, p ∈ placed) (Graph.incoming g v)))
          as [Hall'|Hex].
        - destruct Hfind. apply ready_spec. by apply Forall_forall.
        - apply not_Forall_Exists in Hex; [|apply _].
          apply Exists_exists in Hex as (p & ? & ?). eauto. }
      apply elem_of_incoming in Hp.
      exists p. split; [|by constructor].
      destruct (Hwf _ _ Hp) as [Hlt _]. by destruct (Hall p Hlt).
Qed.

(** The contract of [toposort]. *)
Lemma toposort_sound l :
  toposort g = Some l →
  ∃ placed, l = reverse placed ∧ emitted g placed ∧
            ∀ v, v ∈ placed ↔ v < Graph.node_count g.
Proof.
  intros H. apply kahn_sound in H as (placed & -> & Hem & Hel).
  - exists placed. split_and!; [done..|]. intros v. rewrite Hel, elem_of_seq, elem_of_nil.
    split; [intros [?|[]]|]; lia.
  - constructor.
  - intros v _. apply not_elem_of_nil.
Qed.

Lemma toposort_cyclic : well_formed g → cyclic g → toposort g = None.
Proof.
  intros Hwf [v Hv]. destruct (toposort g) as [l|] eqn:Hl; [|done].
  apply toposort_sound in Hl as (placed & _ & Hem & Hel).
  destruct (emitted_acyclic g placed v); [done| |done].
  apply Hel. by eapply path_valid.
Qed.

Lemma toposort_None : well_formed g → toposort g = None ↔ cyclic g.
Proof.
  intros Hwf. split; [|by apply toposort_cyclic].
  apply kahn_stuck; [done|by rewrite length_seq|].
  intros v Hv. left. apply elem_of_seq. lia.
Qed.

Lemma toposort_acyclic : well_formed g → ¬ cyclic g ↔ is_Some (toposort g).
Proof.
  intros Hwf. rewrite <-toposort_None, <-not_eq_None_Some by done. done.
Qed.
End Toposort.

(** ** Graph construction *)
Section Build.
Implicit Types (ns : list Node) (cs : list Connection).

Lemma add_nodes_snoc ns n :
  Layout.add_nodes (ns ++ [n]) =
    let '(g, im, rm) := Layout.add_nodes ns in
    ({| Graph.weights := Graph.weights g ++ [id n]; Graph.edges := Graph.edges g |},
     <[id n := Graph.node_count g]> im, <[Graph.node_count g := id n]> rm).
Proof.
  unfold Layout.add_nodes. rewrite foldl_app. simpl.
  by destruct (foldl _ _ ns) as [[g im] rm].
Qed.

Lemma add_nodes_spec ns g im rm :
  Layout.add_nodes ns = (g, im, rm) →
  Graph.weights g = id <$> ns ∧ Graph.edges g = [] ∧
  (∀ i, rm !! i = (id <$> ns) !! i) ∧
  (∀ a i, im !! a = Some i ↔
          (id <$> ns) !! i = Some a ∧ ∀ j, i < j → (id <$> ns) !! j ≠ Some a).
Proof.
  revert g im rm. induction ns as [|n ns IH] using rev_ind; intros g im rm.
  - intros [= <- <- <-]. split_and!; [done..| |].
    + intros i. by rewrite lookup_empty.
    + intros a i. rewrite lookup_empty. simpl. split; [done|]. by intros [? _].
  - rewrite add_nodes_snoc. destruct (Layout.add_nodes ns) as [[g0 im0] rm0].
    destruct (IH _ _ _ eq_refl) as (Hw & He & Hrm & Him).
    intros [= <- <- <-]. simpl. unfold Graph.node_count. rewrite Hw, fmap_app.
    rewrite length_fmap. simpl. split_and!; [done..| |].
    + intros i. destruct (decide (i = length ns)) as [->|Hi].
      * rewrite lookup_insert_eq.
        by rewrite lookup_app_r, length_fmap, Nat.sub_diag by (by rewrite length_fmap).
      * rewrite lookup_insert_ne, Hrm by done.
        destruct (decide (i < length ns)).
        -- by rewrite lookup_app_l by (by rewrite length_fmap).
        -- rewrite !lookup_ge_None_2; [done|..];
             rewrite ?length_app, length_fmap; simpl; lia.
    + intros a i.
      assert (∀ j, ((id <$> ns) ++ [id n]) !! j =
                   if decide (j < length ns) then (id <$> ns) !! j
                   else if decide (j = length ns) then Some (id n) else None)
        as Hlk.
      { intros j. repeat case_decide.
        - by rewrite lookup_app_l by (by rewrite length_fmap).
        - subst. by rewrite lookup_app_r, length_fmap, Nat.sub_diag
            by (by rewrite length_fmap).
        - apply lookup_ge_None_2. rewrite length_app, length_fmap. simpl. lia. }
      destruct (decide (a = id n)) as [->|Ha].
      * rewrite lookup_insert_eq. split.
        -- intros [= <-]. rewrite Hlk. repeat case_decide; try lia.
           split; [done|]. intros j Hj. rewrite Hlk.
           repeat case_decide; try lia. done.
        -- intros [Hi Hlast]. f_equal.
           destruct (decide (i < length ns)) as [Hlt|Hge].
           ++ destruct (Hlast (length ns) Hlt). rewrite Hlk.
              repeat case_decide; try lia. done.
           ++ rewrite Hlk in Hi. repeat case_decide; try lia; done.
      * rewrite lookup_insert_ne, Him by done. rewrite Hlk. split.
        -- intros [Hi Hlast].
           assert (i < length ns).
           { apply lookup_lt_Some in Hi. by rewrite length_fmap in Hi. }
           case_decide; [|lia]. split; [done|]. intros j Hj. rewrite Hlk.
           repeat case_decide; first [by apply Hlast|congruence].
        -- intros [Hi Hlast]. repeat case_decide; simplify_eq; [].
           split; [done|]. intros j Hj. specialize (Hlast j Hj).
           rewrite Hlk in Hlast. case_decide; [done|].
           intros Hj'%lookup_lt_Some. rewrite length_fmap in Hj'. lia.
Qed.

Lemma add_edges_spec im cs g :
  Graph.weights (Layout.add_edges im cs g) = Graph.weights g ∧
  Graph.edges (Layout.add_edges im cs g) = Graph.edges g ++ omap (resolve im) cs.
Proof.
  revert g. induction cs as [|c cs IH]; intros g; simpl.
  - by rewrite app_nil_r.
  - unfold Layout.add_edges in *. simpl.
    assert (resolve im c = resolve im c) as Hr by done.
    unfold resolve at 2 in Hr. rewrite Hr.
    destruct (im !! source c) as [src|]; [destruct (im !! target c) as [tgt|]|].
    + destruct (IH (Graph.add_edge g src tgt)) as [-> ->]. simpl.
      by rewrite <-app_assoc.
    + apply IH.
    + apply IH.
Qed.

(** The internal graph and the identifier maps of a workflow. *)
Lemma build_spec workflow g im rm :
  Layout.build workflow = (g, im, rm) →
  Graph.weights g = id <$> nodes workflow ∧
  Graph.edges g = omap (resolve im) (connections workflow) ∧
  (∀ i, rm !! i = (id <$> nodes workflow) !! i) ∧
  (∀ a i, im !! a = Some i ↔
          (id <$> nodes workflow) !! i = Some a ∧
          ∀ j, i < j → (id <$> nodes workflow) !! j ≠ Some a).
Proof.
  unfold Layout.build.
  destruct (Layout.add_nodes (nodes workflow)) as [[g0 im0] rm0] eqn:Hn.
  apply add_nodes_spec in Hn as (Hw & He & Hrm & Him).
  intros [= <- <- <-].
  destruct (add_edges_spec im0 (connections workflow) g0) as [-> ->].
  by rewrite He.
Qed.

Lemma graph_of_node_count workflow :
  Graph.node_count (graph_of workflow) = length (nodes workflow).
Proof.
  unfold graph_of. destruct (Layout.build workflow) as [[g im] rm] eqn:Hb.
  apply build_spec in Hb as (Hw & _). unfold Graph.node_count. simpl.
  by rewrite Hw, length_fmap.
Qed.

Lemma graph_of_well_formed workflow : well_formed (graph_of workflow).
Proof.
  intros u v. rewrite graph_of_node_count.
  unfold graph_of. destruct (Layout.build workflow) as [[g im] rm] eqn:Hb.
  apply build_spec in Hb as (Hw & He & _ & Him). simpl. rewrite He.
  intros (c & _ & Hc)%list_elem_of_omap. unfold resolve in Hc.
  destruct (im !! source c) as [src|] eqn:Hs; [|done].
  destruct (im !! target c) as [tgt|] eqn:Ht; [|done].
  injection Hc as -> ->.
  apply Him in Hs as [Hs%lookup_lt_Some _], Ht as [Ht%lookup_lt_Some _].
  by rewrite length_fmap in Hs, Ht.
Qed.
End Build.

(** ** Longest-path layering *)
Section Layering.
Context (g : Graph.t).
Implicit Types (layers : gmap nat nat) (placed : list nat).

Lemma foldl_layer_le layers acc ps :
  acc ≤ foldl (λ layer parent,
                 match layers !! parent with
                 | Some parent_layer => layer `max` (parent_layer + 1)
                 | None => layer
                 end) acc ps.
Proof.
  revert acc. induction ps as [|p ps IH]; intros acc; simpl; [done|].
  etrans; [|apply IH]. destruct (layers !! p); lia.
Qed.

Lemma foldl_layer_parent layers acc ps p pl :
  p ∈ ps → layers !! p = Some pl →
  pl < foldl (λ layer parent,
                match layers !! parent with
                | Some parent_layer => layer `max` (parent_layer + 1)
                | None => layer
                end) acc ps.
Proof.
  revert acc. induction ps as [|q ps IH]; intros acc Hp Hpl; simpl.
  - by apply elem_of_nil in Hp.
  - apply elem_of_cons in Hp as [->|Hp]; [|by apply IH].
    rewrite Hpl. eapply Nat.lt_le_trans; [|apply foldl_layer_le]. lia.
Qed.

(** Each parent sits on a strictly smaller layer. *)
Lemma node_layer_parent layers v p pl :
  (p, v) ∈ Graph.edges g → layers !! p = Some pl →
  pl < Layout.node_layer g layers v.
Proof.
  intros He. apply foldl_layer_parent. by apply elem_of_incoming.
Qed.

(** A node without incoming edges is on layer 0. *)
Lemma node_layer_root layers v :
  Graph.incoming g v = [] → Layout.node_layer g layers v = 0.
Proof. unfold Layout.node_layer. by intros ->. Qed.

(** The layer of a node only depends on the layers of its parents. *)
Lemma node_layer_ext layers1 layers2 v :
  (∀ p, (p, v) ∈ Graph.edges g → layers1 !! p = layers2 !! p) →
  Layout.node_layer g layers1 v = Layout.node_layer g layers2 v.
Proof.
  intros Heq. unfold Layout.node_layer.
  assert (∀ p, p ∈ Graph.incoming g v → layers1 !! p = layers2 !! p) as Hps.
  { intros p Hp. by apply Heq, elem_of_incoming. }
  clear Heq. generalize 0 at 2 4. revert Hps.
  induction (Graph.incoming g v) as [|p ps IH]; intros Hps acc; simpl; [done|].
  rewrite (Hps p) by (by left). apply IH. intros q Hq. apply Hps. by right.
Qed.

(** A layer other than 0 is one more than the layer of some parent. *)
Lemma node_layer_witness layers v l :
  Layout.node_layer g layers v = S l →
  ∃ p, (p, v) ∈ Graph.edges g ∧ layers !! p = Some l.
Proof.
  unfold Layout.node_layer.
  assert (∀ ps acc,
    foldl (λ layer parent,
             match layers !! parent with
             | Some parent_layer => layer `max` (parent_layer + 1)
             | None => layer
             end) acc ps = S l →
    acc = S l ∨ ∃ p, p ∈ ps ∧ layers !! p = Some l) as Hgen.
  { induction ps as [|p ps IH]; intros acc; simpl; [by left|].
    intros [Hacc|(q & Hq & Hl)]%IH.
    - destruct (layers !! p) as [pl|] eqn:Hp; [|by left].
      destruct (decide (acc = S l)); [by left|]. right. exists p.
      split; [by left|]. rewrite Hp. f_equal. lia.
    - right. exists q. split; [by right|done]. }
  intros [?|(p & Hp & Hl)]%Hgen; [done|].
  exists p. split; [by apply elem_of_incoming|done].
Qed.

Lemma assign_layers_snoc l v :
  Layout.assign_layers g (l ++ [v]) =
    <[v := Layout.node_layer g (Layout.assign_layers g l) v]>
      (Layout.assign_layers g l).
Proof. unfold Layout.assign_layers. by rewrite foldl_snoc. Qed.

(** Along a topological order every node is assigned once, and the final
    map satisfies the longest-path recurrence. *)
Lemma assign_layers_emitted placed :
  emitted g placed →
  let layers := Layout.assign_layers g (reverse placed) in
  (∀ v, is_Some (layers !! v) ↔ v ∈ placed) ∧
  (∀ v, v ∈ placed → layers !! v = Some (Layout.node_layer g layers v)).
Proof.
  induction 1 as [|v placed Hem [IHdom IHrec] Hv Hpre]; simpl.
  - split; intros v.
    + unfold Layout.assign_layers. simpl. rewrite lookup_empty, elem_of_nil.
      split; [by intros []|done].
    + by intros ?%elem_of_nil.
  - rewrite reverse_cons, assign_layers_snoc.
    set (layers := Layout.assign_layers g (reverse placed)) in *.
    assert (∀ u, u ∈ v :: placed →
              Layout.node_layer g (<[v := Layout.node_layer g layers v]> layers) u
              = Layout.node_layer g layers u) as Hext.
    { intros u Hu. apply node_layer_ext. intros p Hp.
      apply lookup_insert_ne. intros <-. apply Hv.
      apply elem_of_cons in Hu as [->|Hu].
      - by apply Hpre, elem_of_incoming.
      - by eapply emitted_edge. }
    split; intros u.
    + rewrite lookup_insert_is_Some, IHdom, elem_of_cons.
      destruct (decide (v = u)); intuition congruence.
    + intros Hu. rewrite Hext by done.
      apply elem_of_cons in Hu as [->|Hu].
      * by rewrite lookup_insert_eq.
      * rewrite lookup_insert_ne by (by intros ->). by apply IHrec.
Qed.

(** The recurrence has one solution: the topological order chosen does
    not matter. *)
Lemma layers_unique placed layers1 layers2 :
  emitted g placed →
  (∀ v, v ∈ placed → layers1 !! v = Some (Layout.node_layer g layers1 v)) →
  (∀ v, v ∈ placed → layers2 !! v = Some (Layout.node_layer g layers2 v)) →
  ∀ v, v ∈ placed → layers1 !! v = layers2 !! v.
Proof.
  induction 1 as [|v placed Hem IH Hv Hpre]; intros H1 H2 u Hu.
  - by apply elem_of_nil in Hu.
  - assert (∀ w, w ∈ placed → layers1 !! w = layers2 !! w) as Hag.
    { apply IH; intros w Hw; [apply H1|apply H2]; by right. }
    apply elem_of_cons in Hu as [->|Hu]; [|by apply Hag].
    rewrite H1, H2 by (by left). f_equal. apply node_layer_ext.
    intros p Hp. by apply Hag, Hpre, elem_of_incoming.
Qed.

Lemma assign_layers_spec placed1 placed2 :
  emitted g placed1 → emitted g placed2 →
  (∀ v, v ∈ placed1 ↔ v ∈ placed2) →
  Layout.assign_layers g (reverse placed1) = Layout.assign_layers g (reverse placed2).
Proof.
  intros Hem1 Hem2 Hel.
  destruct (assign_layers_emitted _ Hem1) as [Hdom1 Hrec1].
  destruct (assign_layers_emitted _ Hem2) as [Hdom2 Hrec2].
  apply map_eq. intros v. destruct (decide (v ∈ placed1)) as [Hv|Hv].
  - apply (layers_unique placed1); [done..| |done].
    intros w Hw. by apply Hrec2, Hel.
  - transitivity (@None nat); [|symmetry]; apply eq_None_not_Some.
    + by rewrite Hdom1.
    + by rewrite Hdom2, <-Hel.
Qed.
End Layering.

(** ** Folding with panics, and the order of a hash map *)
Section TryFold.
Context {A B : Type} (f : A → B → option A).

Lemma try_fold_app a l k :
  try_fold f a (l ++ k) = a' ← try_fold f a l; try_fold f a' k.
Proof.
  revert a. induction l as [|b l IH]; intros a; simpl; [done|].
  destruct (f a b); simpl; [apply IH|done].
Qed.

(** An invariant that every step keeps, and under which no step panics,
    is kept by the fold, which does not panic. *)
Lemma try_fold_invariant (P : A → Prop) a l :
  P a →
  (∀ a b, P a → b ∈ l → ∃ a', f a b = Some a' ∧ P a') →
  ∃ a', try_fold f a l = Some a' ∧ P a'.
Proof.
  revert a. induction l as [|b l IH]; intros a Ha Hstep; simpl; [eauto|].
  destruct (Hstep a b) as (a' & -> & Ha'); [done|by left|]. simpl.
  apply IH; [done|]. intros a0 b0 ? ?. apply Hstep; [done|by right].
Qed.

Lemma try_fold_preserves (P : A → Prop) a a' l :
  P a →
  (∀ a b a', P a → b ∈ l → f a b = Some a' → P a') →
  try_fold f a l = Some a' → P a'.
Proof.
  revert a. induction l as [|b l IH]; intros a Ha Hstep; simpl.
  - by intros [= <-].
  - destruct (f a b) as [a1|] eqn:Hf; [|done]. simpl. apply IH.
    + eapply Hstep; [done|by left|done].
    + intros a0 b0 a0' ? ?. apply Hstep; [done|by right].
Qed.
End TryFold.

Lemma hash_iter_perm {A} (seed : list nat) (l : list A) : hash_iter seed l ≡ₚ l.
Proof.
  revert seed. induction l as [|a l IH]; intros seed; simpl; [done|].
  rewrite <-Permutation_middle, take_drop. by rewrite IH.
Qed.

(** Every order of the entries is the order of some hasher state. *)
Lemma hash_iter_any {A} (l l' : list A) : l' ≡ₚ l → ∃ seed, hash_iter seed l = l'.
Proof.
  revert l'. induction l as [|a l IH]; intros l' Hp.
  - apply Permutation_nil_r in Hp as ->. by exists [].
  - assert (a ∈ l') as (l1 & l2 & ->)%list_elem_of_split by (rewrite Hp; by left).
    rewrite <-Permutation_middle in Hp. apply (inj (cons a)) in Hp.
    destruct (IH _ Hp) as [seed Hseed]. exists (length l1 :: seed).
    cbn [hash_iter hd tail]. rewrite Hseed, length_app.
    rewrite Nat.mod_small by lia.
    by rewrite take_app_length, drop_app_length.
Qed.

(** ** Grouping by layer *)
Section Grouping.
Implicit Types (nbl : list (list nat)) (entries : list (nat * nat)).

Lemma layer_at_lookup nbl K ms : nbl !! K = Some ms → layer_at nbl K = ms.
Proof. unfold layer_at. by intros ->. Qed.

Lemma layer_at_ge nbl K : length nbl ≤ K → layer_at nbl K = [].
Proof. unfold layer_at. intros H. by rewrite lookup_ge_None_2. Qed.

Lemma push_node_spec nbl v L :
  ∃ nbl', Layout.push_node nbl (v, L) = Some nbl' ∧
          length nbl' = length nbl `max` S L ∧
          ∀ K, layer_at nbl' K =
               layer_at nbl K ++ (if decide (K = L) then [v] else []).
Proof.
  unfold Layout.push_node.
  set (nbl1 := nbl ++ replicate (S L - length nbl) []).
  assert (length nbl1 = length nbl `max` S L) as Hlen.
  { unfold nbl1. rewrite length_app, length_replicate. lia. }
  assert (∀ K, layer_at nbl1 K = layer_at nbl K) as Hsame.
  { intros K. unfold layer_at, nbl1.
    destruct (decide (K < length nbl)) as [Hlt|Hge].
    - by rewrite lookup_app_l.
    - rewrite lookup_app_r, (lookup_ge_None_2 nbl) by lia. simpl.
      destruct (replicate _ _ !! _) as [ms|] eqn:Hr; [|done].
      by apply lookup_replicate in Hr as [-> _]. }
  destruct (nbl1 !! L) as [cur|] eqn:Hcur.
  - simpl. eexists. split; [done|]. rewrite length_insert. split; [done|].
    intros K. case_decide as HK.
    + subst K. unfold layer_at at 1.
      rewrite list_lookup_insert_eq by (by eapply lookup_lt_Some). simpl.
      by rewrite <-Hsame, (layer_at_lookup _ _ _ Hcur).
    + unfold layer_at at 1. rewrite list_lookup_insert_ne by done.
      fold (layer_at nbl1 K). by rewrite Hsame, app_nil_r.
  - apply lookup_ge_None_1 in Hcur. lia.
Qed.

Lemma group_by_layer_spec entries :
  ∃ nbl, Layout.group_by_layer entries = Some nbl ∧
         (∀ K, K < length nbl ↔ ∃ e, e ∈ entries ∧ K ≤ e.2) ∧
         ∀ K, layer_at nbl K = (filter (λ e, e.2 = K) entries).*1.
Proof.
  unfold Layout.group_by_layer.
  induction entries as [|[v L] entries (nbl & Hnbl & Hlen & Hat)] using rev_ind.
  - exists []. split_and!; [done| |done].
    intros K. simpl. split; [lia|]. by intros (e & ?%elem_of_nil & _).
  - rewrite try_fold_app, Hnbl. cbn -[Layout.push_node].
    destruct (push_node_spec nbl v L) as (nbl' & -> & Hlen' & Hat').
    cbn -[Layout.push_node].
    exists nbl'. split_and!; [done| |].
    + intros K. rewrite Hlen'. split.
      * intros HK. destruct (decide (K < length nbl)) as [Hlt|Hge].
        -- apply Hlen in Hlt as (e & He & ?). exists e.
           split; [|done]. apply elem_of_app. by left.
        -- exists (v, L). split; [|simpl; lia]. apply elem_of_app. right. by left.
      * intros (e & [He|He]%elem_of_app & HK).
        -- assert (K < length nbl) by (apply Hlen; eauto). lia.
        -- apply list_elem_of_singleton in He as ->. simpl in HK. lia.
    + intros K. rewrite Hat', Hat, filter_app, fmap_app. f_equal.
      case_decide.
      * by rewrite filter_cons_True by done.
      * by rewrite filter_cons_False by done.
Qed.
End Grouping.

(** ** The stable sort *)
Section SortFacts.
Context {A : Type} (cmp : A → A → option comparison).
Implicit Types (a b : A) (l s : list A).
Local Abbreviation not_after := (not_after cmp).

Lemma insert_by_perm a l l' : insert_by cmp a l = Some l' → l' ≡ₚ a :: l.
Proof.
  revert l'. induction l as [|b l IH]; intros l'; simpl.
  - by intros [= <-].
  - destruct (cmp a b) as [[]|]; simpl; [by intros [= <-]..| |done].
    destruct (insert_by cmp a l) as [l''|]; simpl; [|done].
    intros [= <-]. rewrite (IH l'') by done. apply Permutation_swap.
Qed.

Lemma sort_by_perm l s : sort_by cmp l = Some s → s ≡ₚ l.
Proof.
  revert s. induction l as [|a l IH]; intros s; simpl.
  - by intros [= <-].
  - destruct (sort_by cmp l) as [s'|]; simpl; [|done].
    intros Hins%insert_by_perm. rewrite Hins. by rewrite (IH s').
Qed.

(** The sort does not panic when no comparison of two of its elements
    does. *)
Lemma insert_by_total a l :
  (∀ b, b ∈ l → is_Some (cmp a b)) → is_Some (insert_by cmp a l).
Proof.
  induction l as [|b l IH]; intros Hc; simpl; [eauto|].
  destruct (Hc b) as [c ->]; [by left|]. simpl.
  destruct c; [eauto..|].
  destruct IH as [l' ->]; [|simpl; eauto]. intros b' ?. apply Hc. by right.
Qed.

Lemma sort_by_total l :
  (∀ a b, a ∈ l → b ∈ l → is_Some (cmp a b)) → is_Some (sort_by cmp l).
Proof.
  induction l as [|a l IH]; intros Hc; simpl; [eauto|].
  destruct IH as [s Hs].
  { intros b c ? ?. apply Hc; by right. }
  rewrite Hs. simpl. apply insert_by_total. intros b Hb. apply Hc; [by left|].
  right. by rewrite <-(sort_by_perm _ _ Hs).
Qed.

(** Ascending order.  It takes a comparator that answers [Less] one way
    when it answers [Greater] the other way. *)
Lemma insert_by_sorted a l l' :
  (∀ b, b ∈ l → cmp a b = Some Gt → not_after b a) →
  Sorted not_after l → insert_by cmp a l = Some l' → Sorted not_after l'.
Proof.
  revert l'. induction l as [|b l IH]; intros l' Hflip Hs; simpl.
  - intros [= <-]. by repeat constructor.
  - destruct (cmp a b) as [[]|] eqn:Hab; simpl; [| |destruct (insert_by cmp a l) as [l''|] eqn:Hins|]; simpl;
      intros [= <-].
    + constructor; [done|]. constructor. by right.
    + constructor; [done|]. constructor. by left.
    + apply Sorted_inv in Hs as [Hs Hhd]. constructor.
      * apply IH; [|done..]. intros c ? ?. apply Hflip; [by right|done].
      * destruct l as [|c l]; simpl in Hins.
        -- injection Hins as <-. constructor. apply Hflip; [by left|done].
        -- apply HdRel_inv in Hhd.
           destruct (cmp a c) as [[]|]; simpl in Hins; try discriminate;
             [injection Hins as <-; constructor; apply Hflip; [by left|done]..|].
           destruct (insert_by cmp a l); simpl in Hins; [|done].
           injection Hins as <-. by constructor.
Qed.

Lemma sort_by_sorted l s :
  (∀ a b, a ∈ l → b ∈ l → cmp a b = Some Gt → not_after b a) →
  sort_by cmp l = Some s → Sorted not_after s.
Proof.
  revert s. induction l as [|a l IH]; intros s Hflip; simpl.
  - intros [= <-]. constructor.
  - destruct (sort_by cmp l) as [s'|] eqn:Hs'; simpl; [|done].
    apply insert_by_sorted.
    + intros b Hb. apply Hflip; [by left|]. right. by rewrite <-(sort_by_perm _ _ Hs').
    + apply IH; [|done]. intros b c ? ?. apply Hflip; by right.
Qed.

(** Stability: the elements of a class of ties keep their order. *)
Lemma insert_by_stable (Q : A → Prop) `{!∀ a, Decision (Q a)} a l l' :
  (∀ b, b ∈ l → Q a → Q b → cmp a b ≠ Some Gt) →
  insert_by cmp a l = Some l' → filter Q l' = filter Q (a :: l).
Proof.
  revert l'. induction l as [|b l IH]; intros l' Htie; simpl.
  - by intros [= <-].
  - destruct (cmp a b) as [[]|] eqn:Hab; simpl; [by intros [= <-]..| |done].
    destruct (insert_by cmp a l) as [l''|] eqn:Hins; simpl; [|done].
    intros [= <-].
    assert (filter Q l'' = filter Q (a :: l)) as Hl''.
    { apply IH; [|done]. intros c ? ? ?. apply Htie; [by right|done..]. }
    rewrite filter_cons, Hl'', !filter_cons.
    destruct (decide (Q a)) as [Ha|Ha], (decide (Q b)) as [Hb|Hb]; try done.
    by destruct (Htie b); [by left|..].
Qed.

Lemma sort_by_stable (Q : A → Prop) `{!∀ a, Decision (Q a)} l s :
  (∀ a b, a ∈ l → b ∈ l → Q a → Q b → cmp a b ≠ Some Gt) →
  sort_by cmp l = Some s → filter Q s = filter Q l.
Proof.
  revert s. induction l as [|a l IH]; intros s Htie; simpl.
  - by intros [= <-].
  - destruct (sort_by cmp l) as [s'|] eqn:Hs'; simpl; [|done].
    intros Hins. rewrite (insert_by_stable Q a s' s); [| |done].
    + rewrite !filter_cons, (IH s'); [done| |done].
      intros b c ? ?. apply Htie; by right.
    + intros b Hb. apply Htie; [by left|]. right.
      by rewrite <-(sort_by_perm _ _ Hs').
Qed.
End SortFacts.

(** Two comparators that agree on the elements sort alike. *)
Lemma sort_by_ext {A} (cmp1 cmp2 : A → A → option comparison) (l : list A) :
  (∀ a b, a ∈ l → b ∈ l → cmp1 a b = cmp2 a b) →
  sort_by cmp1 l = sort_by cmp2 l.
Proof.
  induction l as [|a l IH]; intros Hc; simpl; [done|].
  rewrite IH by (intros b c ? ?; apply Hc; by right).
  destruct (sort_by cmp2 l) as [s|] eqn:Hs; simpl; [|done].
  assert (∀ b, b ∈ s → cmp1 a b = cmp2 a b) as Ha.
  { intros b Hb. apply Hc; [by left|]. right. by rewrite <-(sort_by_perm _ _ _ Hs). }
  clear -Ha. induction s as [|b s IHs]; simpl; [done|].
  rewrite Ha by (by left). destruct (cmp2 a b) as [[]|]; simpl; try done.
  by rewrite IHs by (intros c ?; apply Ha; by right).
Qed.

(** ** Single-precision arithmetic on small integers *)
Section FloatFacts.
Local Open Scope Z_scope.
Implicit Types (m p : positive) (e k : Z) (s : bool).

Lemma iter_pos_nat {A} (f : A → A) p (x : A) :
  SpecFloat.iter_pos f p x = Nat.iter (Pos.to_nat p) f x.
Proof.
  revert x. induction p as [p IH|p IH|]; intros x; cbn [SpecFloat.iter_pos].
  - rewrite !IH, Pos2Nat.inj_xI, <-Nat.iter_succ_r, <-Nat.iter_add.
    f_equal. lia.
  - rewrite !IH, Pos2Nat.inj_xO, <-Nat.iter_add. f_equal. lia.
  - done.
Qed.

Lemma digits2_pos_bounds p :
  2 ^ (Z.pos (digits2_pos p) - 1) ≤ Z.pos p < 2 ^ Z.pos (digits2_pos p).
Proof.
  induction p as [p IH|p IH|]; simpl; [| |lia].
  - rewrite Pos2Z.inj_succ. replace (Z.succ (Z.pos (digits2_pos p)) - 1)
      with (Z.succ (Z.pos (digits2_pos p) - 1)) by lia.
    rewrite !Z.pow_succ_r by lia. lia.
  - rewrite Pos2Z.inj_succ. replace (Z.succ (Z.pos (digits2_pos p)) - 1)
      with (Z.succ (Z.pos (digits2_pos p) - 1)) by lia.
    rewrite !Z.pow_succ_r by lia. lia.
Qed.

Lemma digits2_pos_unique p d :
  2 ^ (d - 1) ≤ Z.pos p < 2 ^ d → Z.pos (digits2_pos p) = d.
Proof.
  intros [Hlo Hhi]. pose proof (digits2_pos_bounds p) as [Hlo' Hhi'].
  destruct (Z.lt_trichotomy (Z.pos (digits2_pos p)) d) as [Hlt|[?|Hgt]]; [|done|].
  - assert (2 ^ Z.pos (digits2_pos p) ≤ 2 ^ (d - 1))
      by (apply Z.pow_le_mono_r; lia). lia.
  - assert (0 ≤ d ∨ d < 0) as [?|?] by lia.
    + assert (2 ^ d ≤ 2 ^ (Z.pos (digits2_pos p) - 1))
        by (apply Z.pow_le_mono_r; lia). lia.
    + rewrite Z.pow_neg_r in Hhi by lia. lia.
Qed.

Lemma digits2_pos_shift p (j : Z) q :
  0 ≤ j → Z.pos q = Z.pos p * 2 ^ j →
  Z.pos (digits2_pos q) = Z.pos (digits2_pos p) + j.
Proof.
  intros Hj Hq. apply digits2_pos_unique. rewrite Hq.
  pose proof (digits2_pos_bounds p) as [Hlo Hhi].
  replace (Z.pos (digits2_pos p) + j - 1) with (Z.pos (digits2_pos p) - 1 + j) by lia.
  rewrite !Z.pow_add_r by lia.
  assert (0 < 2 ^ j) by (apply Z.pow_pos_nonneg; lia). nia.
Qed.

(** Shifting a multiple of a power of two to the right is exact. *)
Lemma shr_1_double m :
  shr_1 {| shr_m := 2 * Z.pos m; shr_r := false; shr_s := false |}
  = {| shr_m := Z.pos m; shr_r := false; shr_s := false |}.
Proof. done. Qed.

Lemma shr_exact_nat (n : nat) m :
  Nat.iter n shr_1 {| shr_m := Z.pos m * 2 ^ Z.of_nat n; shr_r := false; shr_s := false |}
  = {| shr_m := Z.pos m; shr_r := false; shr_s := false |}.
Proof.
  induction n as [|n IH].
  - simpl. f_equal. lia.
  - rewrite Nat.iter_succ_r, <-IH. f_equal.
    assert (0 < Z.pos m * 2 ^ Z.of_nat n) as Hpos
      by (apply Z.mul_pos_pos; [lia|apply Z.pow_pos_nonneg; lia]).
    rewrite Nat2Z.inj_succ, Z.pow_succ_r by lia.
    replace (Z.pos m * (2 * 2 ^ Z.of_nat n))
      with (2 * Z.pos (Z.to_pos (Z.pos m * 2 ^ Z.of_nat n))) by (rewrite Z2Pos.id; lia).
    rewrite shr_1_double. f_equal. by rewrite Z2Pos.id.
Qed.

Lemma shr_exact (j : positive) m :
  SpecFloat.iter_pos shr_1 j
    {| shr_m := Z.pos m * 2 ^ Z.pos j; shr_r := false; shr_s := false |}
  = {| shr_m := Z.pos m; shr_r := false; shr_s := false |}.
Proof. by rewrite iter_pos_nat, <-(positive_nat_Z j), shr_exact_nat. Qed.

(** Rounding a product [n * 2 ^ j] whose factor [n] fits the mantissa. *)
Lemma binary_round_aux_exact s (M n : positive) (j e : Z) :
  let d := Z.pos (digits2_pos n) in
  0 ≤ j → Z.pos M = Z.pos n * 2 ^ j →
  d ≤ 24 → 24 ≤ d + j → -149 ≤ e + j + d - 24 ≤ 104 →
  binary_round_aux F32.prec F32.emax s (Z.pos M) e loc_Exact =
    S754_finite s (Z.to_pos (Z.pos n * 2 ^ (24 - d))) (e + j + d - 24).
Proof.
  intros d Hj HM Hd Hdj He.
  assert (Z.pos (digits2_pos M) = d + j) as HdM by (by apply digits2_pos_shift).
  unfold binary_round_aux, shr_fexp. cbn [Zdigits2 shr_record_of_loc].
  rewrite HdM. unfold fexp, SpecFloat.emin, F32.prec, F32.emax.
  replace (Z.max (d + j + e - 24) (3 - 128 - 24) - e) with (d + j - 24) by lia.
  set (m' := Z.pos n * 2 ^ (24 - d)).
  assert (0 < m') as Hm' by (apply Z.mul_pos_pos; [lia|apply Z.pow_pos_nonneg; lia]).
  assert (shr {| shr_m := Z.pos M; shr_r := false; shr_s := false |} e (d + j - 24)
          = ({| shr_m := m'; shr_r := false; shr_s := false |}, e + j + d - 24))
    as ->.
  { unfold shr. destruct (d + j - 24) as [|q|q] eqn:Hq; [| |lia].
    - f_equal; [|lia]. f_equal. unfold m'. rewrite HM. f_equal. f_equal. lia.
    - f_equal; [|lia]. 
      replace (Z.pos M) with (Z.pos (Z.to_pos m') * 2 ^ Z.pos q).
      + rewrite shr_exact. f_equal. by rewrite Z2Pos.id.
      + rewrite Z2Pos.id by done. unfold m'. rewrite HM, <-Z.mul_assoc.
        rewrite <-Z.pow_add_r by lia. f_equal. f_equal. lia. }
  cbn [shr_m loc_of_shr_record round_nearest_even].
  assert (Zdigits2 m' = 24) as ->.
  { unfold m'. destruct (Z.pos n * 2 ^ (24 - d)) as [|q|q] eqn:Hq; [lia| |lia].
    simpl. rewrite (digits2_pos_shift n (24 - d) q) by lia. lia. }
  replace (Z.max (24 + (e + j + d - 24) - 24) (3 - 128 - 24) - (e + j + d - 24))
    with 0 by lia.
  cbn [shr shr_m]. destruct m' as [|q|q] eqn:Hq; [lia| |lia].
  replace (e + j + d - 24 <=? 128 - 24) with true by (symmetry; apply Z.leb_le; lia).
  done.
Qed.

Lemma fexp_f32 (z : Z) : -149 ≤ z - 24 → fexp F32.prec F32.emax z = z - 24.
Proof. unfold fexp, SpecFloat.emin, F32.prec, F32.emax. lia. Qed.

Lemma shl_align_spec m e e' :
  e' ≤ e → ∃ M, shl_align m e e' = (M, e') ∧ Z.pos M = Z.pos m * 2 ^ (e - e').
Proof.
  intros He. unfold shl_align. destruct (e' - e) as [|q|q] eqn:Hq; [|lia|].
  - exists m. assert (e = e') as -> by lia. split; [done|].
    rewrite Z.sub_diag. simpl. lia.
  - exists (shift_pos q m). split; [done|].
    rewrite shift_pos_correct, Z.pow_pos_fold.
    replace (e - e') with (Z.pos q) by lia. lia.
Qed.

Lemma shl_align_ge m e e' : e ≤ e' → shl_align m e e' = (m, e).
Proof.
  intros He. unfold shl_align. by destruct (e' - e) as [|q|q] eqn:Hq; [| |lia].
Qed.

Lemma binary_round_exact s (M n : positive) (j e : Z) :
  let d := Z.pos (digits2_pos n) in
  0 ≤ j → Z.pos M = Z.pos n * 2 ^ j →
  d ≤ 24 → -149 ≤ e + j + d - 24 ≤ 104 →
  binary_round F32.prec F32.emax s M e = F32.exact s n (e + j).
Proof.
  intros d Hj HM Hd He.
  assert (Z.pos (digits2_pos M) = d + j) as HdM by (by apply digits2_pos_shift).
  unfold binary_round. rewrite HdM, fexp_f32 by lia.
  destruct (decide (24 ≤ d + j)) as [Hge|Hlt].
  - rewrite shl_align_ge by lia.
    rewrite (binary_round_aux_exact s M n j e) by (done || lia). done.
  - destruct (shl_align_spec M e (d + j + e - 24)) as (M' & -> & HM'); [lia|].
    rewrite (binary_round_aux_exact s M' n (24 - d) (d + j + e - 24)).
    + unfold F32.exact. fold d. f_equal. lia.
    + lia.
    + rewrite HM', HM, <-Z.mul_assoc, <-Z.pow_add_r by lia. f_equal. f_equal. lia.
    + done.
    + lia.
    + lia.
Qed.

(** Two ways to write the same number give the same float. *)
Lemma exact_rescale s (n n' : positive) (i j : Z) :
  0 ≤ i → Z.pos n' = Z.pos n * 2 ^ i →
  Z.pos (digits2_pos n') ≤ 24 →
  -149 ≤ j + Z.pos (digits2_pos n') - 24 ≤ 104 →
  F32.exact s n' j = F32.exact s n (j + i).
Proof.
  intros Hi Hn Hd Hj.
  assert (Z.pos (digits2_pos n') = Z.pos (digits2_pos n) + i) as Hdn
    by (by apply digits2_pos_shift).
  transitivity (binary_round F32.prec F32.emax s n' j).
  - rewrite (binary_round_exact s n' n' 0 j); [by rewrite Z.add_0_r|lia..].
  - rewrite (binary_round_exact s n' n i j); [done|lia..].
Qed.

Lemma small_digits (n : positive) :
  Z.pos n < 2 ^ 24 → Z.pos (digits2_pos n) ≤ 24.
Proof.
  intros Hn. pose proof (digits2_pos_bounds n) as [Hlo _].
  destruct (decide (Z.pos (digits2_pos n) ≤ 24)); [done|].
  assert (2 ^ 24 ≤ 2 ^ (Z.pos (digits2_pos n) - 1))
    by (apply Z.pow_le_mono_r; lia). lia.
Qed.

(** An integer of magnitude at most [2 ^ 24], however scaled, is
    normalised to the same float. *)
Lemma binary_normalize_scaled (c k : Z) :
  Z.abs c ≤ 2 ^ 24 → 0 ≤ k ≤ 100 →
  binary_normalize F32.prec F32.emax (c * 2 ^ k) (- k) false = F32.of_Z c.
Proof.
  intros Hc Hk. unfold F32.of_Z.
  assert (0 < 2 ^ k) as Hpow by (apply Z.pow_pos_nonneg; lia).
  assert (∀ s (n : positive), Z.pos n ≤ 2 ^ 24 →
            binary_round F32.prec F32.emax s (Z.to_pos (Z.pos n * 2 ^ k)) (- k)
            = binary_round F32.prec F32.emax s n 0) as Hround.
  { intros s n Hn.
    assert (0 < Z.pos n * 2 ^ k) as Hpos by lia.
    destruct (decide (Z.pos n < 2 ^ 24)) as [Hlt|Hge].
    - pose proof (small_digits n Hlt).
      rewrite (binary_round_exact s _ n k (- k)), (binary_round_exact s n n 0 0);
        rewrite ?Z2Pos.id; try lia. by rewrite Z.add_0_r, Z.add_opp_diag_l.
    - assert (n = 16777216%positive) as -> by lia.
      rewrite (binary_round_exact s _ 1 (24 + k) (- k)),
              (binary_round_exact s _ 1 24 0);
        rewrite ?Z2Pos.id; try (simpl; lia).
      + f_equal. lia.
      + rewrite Z.pow_add_r by lia. lia. }
  destruct c as [|n|n]; simpl Z.mul.
  - done.
  - cbn [binary_normalize]. rewrite <-(Hround false n) by lia.
    destruct (Z.pos n * 2 ^ k) eqn:Hq; try lia. done.
  - cbn [binary_normalize]. rewrite <-(Hround true n) by lia.
    destruct (Z.neg n * 2 ^ k) eqn:Hq; try lia. cbn [binary_normalize].
    f_equal. lia.
Qed.

Lemma of_Z_pos (n : positive) :
  Z.pos n < 2 ^ 24 → F32.of_Z (Z.pos n) = F32.exact false n 0.
Proof.
  intros Hn. unfold F32.of_Z. cbn [binary_normalize].
  pose proof (small_digits n Hn).
  rewrite (binary_round_exact false n n 0 0); [done|lia|lia|done|lia].
Qed.

Lemma of_Z_neg (n : positive) :
  Z.pos n < 2 ^ 24 → F32.of_Z (Z.neg n) = F32.exact true n 0.
Proof.
  intros Hn. unfold F32.of_Z. cbn [binary_normalize].
  pose proof (small_digits n Hn).
  rewrite (binary_round_exact true n n 0 0); [done|lia|lia|done|lia].
Qed.

(** The signed integer that a sign and a magnitude stand for. *)
Lemma of_Z_signed (s : bool) (n : positive) :
  Z.pos n < 2 ^ 24 →
  F32.of_Z (cond_Zopp s (Z.pos n)) = F32.exact s n 0.
Proof. destruct s; [apply of_Z_neg|apply of_Z_pos]. Qed.

Lemma add_exact sx sy (a b : positive) :
  Z.pos a < 2 ^ 24 → Z.pos b < 2 ^ 24 →
  Z.abs (cond_Zopp sx (Z.pos a) + cond_Zopp sy (Z.pos b)) ≤ 2 ^ 24 →
  F32.add (F32.exact sx a 0) (F32.exact sy b 0)
  = F32.of_Z (cond_Zopp sx (Z.pos a) + cond_Zopp sy (Z.pos b)).
Proof.
  intros Ha Hb Hc. pose proof (small_digits a Ha) as Hda.
  pose proof (small_digits b Hb) as Hdb.
  pose proof (digits2_pos_bounds a) as [Hloa Hhia].
  pose proof (digits2_pos_bounds b) as [Hlob Hhib].
  unfold F32.add, F32.exact. cbn [SFadd].
  set (da := Z.pos (digits2_pos a)) in *. set (db := Z.pos (digits2_pos b)) in *.
  set (ez := Z.min (0 + da - 24) (0 + db - 24)).
  assert (0 < Z.pos a * 2 ^ (24 - da)) by (apply Z.mul_pos_pos; [lia|apply Z.pow_pos_nonneg; lia]).
  assert (0 < Z.pos b * 2 ^ (24 - db)) by (apply Z.mul_pos_pos; [lia|apply Z.pow_pos_nonneg; lia]).
  destruct (shl_align_spec (Z.to_pos (Z.pos a * 2 ^ (24 - da))) (0 + da - 24) ez)
    as (Ma & -> & HMa); [lia|].
  destruct (shl_align_spec (Z.to_pos (Z.pos b * 2 ^ (24 - db))) (0 + db - 24) ez)
    as (Mb & -> & HMb); [lia|].
  cbn [fst]. rewrite Z2Pos.id in HMa, HMb by done.
  rewrite <-Z.mul_assoc, <-Z.pow_add_r in HMa, HMb by lia.
  replace (24 - da + (0 + da - 24 - ez)) with (- ez) in HMa by lia.
  replace (24 - db + (0 + db - 24 - ez)) with (- ez) in HMb by lia.
  rewrite <-(binary_normalize_scaled _ (- ez)) by lia.
  rewrite Z.opp_involutive. f_equal.
  rewrite Z.mul_add_distr_r. by destruct sx, sy; simpl; rewrite ?HMa, ?HMb;
    rewrite ?Pos2Z.opp_pos, ?HMa, ?HMb; lia.
Qed.

Lemma Z_signed (c : Z) :
  c ≠ 0 → ∃ s n, c = cond_Zopp s (Z.pos n) ∧ Z.pos n = Z.abs c.
Proof.
  destruct c as [|n|n]; [done|..]; intros _.
  - by exists false, n.
  - by exists true, n.
Qed.

Lemma of_Z_0 : F32.of_Z 0 = F32.zero.
Proof. done. Qed.

Lemma add_of_Z (a b : Z) :
  Z.abs a < 2 ^ 24 → Z.abs b < 2 ^ 24 → Z.abs (a + b) ≤ 2 ^ 24 →
  F32.add (F32.of_Z a) (F32.of_Z b) = F32.of_Z (a + b).
Proof.
  intros Ha Hb Hc.
  destruct (decide (a = 0)) as [->|Hna], (decide (b = 0)) as [->|Hnb].
  - done.
  - destruct (Z_signed b Hnb) as (s & n & -> & Hn).
    rewrite Z.add_0_l, of_Z_signed by lia. done.
  - destruct (Z_signed a Hna) as (s & n & -> & Hn).
    rewrite Z.add_0_r, of_Z_signed by lia. done.
  - destruct (Z_signed a Hna) as (sa & na & -> & Hna').
    destruct (Z_signed b Hnb) as (sb & nb & -> & Hnb').
    rewrite !of_Z_signed by lia. apply add_exact; lia.
Qed.

Lemma sub_exact sx sy (a b : positive) :
  Z.pos a < 2 ^ 24 → Z.pos b < 2 ^ 24 →
  Z.abs (cond_Zopp sx (Z.pos a) - cond_Zopp sy (Z.pos b)) ≤ 2 ^ 24 →
  F32.sub (F32.exact sx a 0) (F32.exact sy b 0)
  = F32.of_Z (cond_Zopp sx (Z.pos a) - cond_Zopp sy (Z.pos b)).
Proof.
  intros Ha Hb Hc. pose proof (small_digits a Ha) as Hda.
  pose proof (small_digits b Hb) as Hdb.
  pose proof (digits2_pos_bounds a) as [Hloa Hhia].
  pose proof (digits2_pos_bounds b) as [Hlob Hhib].
  unfold F32.sub, F32.exact. cbn [SFsub].
  set (da := Z.pos (digits2_pos a)) in *. set (db := Z.pos (digits2_pos b)) in *.
  set (ez := Z.min (0 + da - 24) (0 + db - 24)).
  assert (0 < Z.pos a * 2 ^ (24 - da)) by (apply Z.mul_pos_pos; [lia|apply Z.pow_pos_nonneg; lia]).
  assert (0 < Z.pos b * 2 ^ (24 - db)) by (apply Z.mul_pos_pos; [lia|apply Z.pow_pos_nonneg; lia]).
  destruct (shl_align_spec (Z.to_pos (Z.pos a * 2 ^ (24 - da))) (0 + da - 24) ez)
    as (Ma & -> & HMa); [lia|].
  destruct (shl_align_spec (Z.to_pos (Z.pos b * 2 ^ (24 - db))) (0 + db - 24) ez)
    as (Mb & -> & HMb); [lia|].
  cbn [fst]. rewrite Z2Pos.id in HMa, HMb by done.
  rewrite <-Z.mul_assoc, <-Z.pow_add_r in HMa, HMb by lia.
  replace (24 - da + (0 + da - 24 - ez)) with (- ez) in HMa by lia.
  replace (24 - db + (0 + db - 24 - ez)) with (- ez) in HMb by lia.
  rewrite <-(binary_normalize_scaled _ (- ez)) by lia.
  rewrite Z.opp_involutive. f_equal.
  rewrite Z.mul_sub_distr_r. by destruct sx, sy; simpl; rewrite ?HMa, ?HMb;
    rewrite ?Pos2Z.opp_pos, ?HMa, ?HMb; lia.
Qed.

Lemma sub_of_Z (a b : Z) :
  a ≠ 0 → b ≠ 0 →
  Z.abs a < 2 ^ 24 → Z.abs b < 2 ^ 24 → Z.abs (a - b) ≤ 2 ^ 24 →
  F32.sub (F32.of_Z a) (F32.of_Z b) = F32.of_Z (a - b).
Proof.
  intros Hna Hnb Ha Hb Hc.
  destruct (Z_signed a Hna) as (sa & na & -> & Hna').
  destruct (Z_signed b Hnb) as (sb & nb & -> & Hnb').
  rewrite !of_Z_signed by lia. apply sub_exact; lia.
Qed.

Lemma neg_of_Z (c : Z) :
  c ≠ 0 → Z.abs c < 2 ^ 24 → F32.neg (F32.of_Z c) = F32.of_Z (- c).
Proof.
  intros Hn Hc. destruct (Z_signed c Hn) as (s & n & -> & Hn').
  replace (- cond_Zopp s (Z.pos n)) with (cond_Zopp (negb s) (Z.pos n))
    by (by destruct s).
  rewrite !of_Z_signed by lia. done.
Qed.

Lemma digits2_pos_mul (a b ab : positive) :
  Z.pos ab = Z.pos a * Z.pos b →
  Z.pos (digits2_pos a) + Z.pos (digits2_pos b) - 1 ≤ Z.pos (digits2_pos ab).
Proof.
  intros Hab.
  pose proof (digits2_pos_bounds a) as [Hloa _].
  pose proof (digits2_pos_bounds b) as [Hlob _].
  pose proof (digits2_pos_bounds ab) as [_ Hhi].
  destruct (decide (Z.pos (digits2_pos a) + Z.pos (digits2_pos b) - 1
                    ≤ Z.pos (digits2_pos ab))); [done|].
  assert (2 ^ Z.pos (digits2_pos ab)
          ≤ 2 ^ (Z.pos (digits2_pos a) - 1 + (Z.pos (digits2_pos b) - 1)))
    as Hle by (apply Z.pow_le_mono_r; lia).
  rewrite Z.pow_add_r in Hle by lia. nia.
Qed.

Lemma mul_exact sx sy (a b : positive) :
  Z.pos a * Z.pos b < 2 ^ 24 →
  F32.mul (F32.exact sx a 0) (F32.exact sy b 0) = F32.exact (xorb sx sy) (a * b) 0.
Proof.
  intros Hab.
  assert (Z.pos a < 2 ^ 24) as Ha by nia. assert (Z.pos b < 2 ^ 24) as Hb by nia.
  pose proof (small_digits a Ha) as Hda. pose proof (small_digits b Hb) as Hdb.
  pose proof (small_digits (a * b)) as Hdab. rewrite Pos2Z.inj_mul in Hdab.
  specialize (Hdab Hab).
  pose proof (digits2_pos_mul a b (a * b) (Pos2Z.inj_mul _ _)) as Hmul.
  unfold F32.mul. unfold F32.exact at 1 2. cbn [SFmul].
  set (da := Z.pos (digits2_pos a)) in *. set (db := Z.pos (digits2_pos b)) in *.
  assert (0 < 2 ^ (24 - da)) by (apply Z.pow_pos_nonneg; lia).
  assert (0 < 2 ^ (24 - db)) by (apply Z.pow_pos_nonneg; lia).
  rewrite (binary_round_aux_exact _ _ (a * b) (48 - da - db)); [| lia | | lia..].
  - unfold F32.exact. f_equal. lia.
  - rewrite Pos2Z.inj_mul, !Z2Pos.id by lia.
    replace (48 - da - db) with (24 - da + (24 - db)) by lia.
    rewrite Z.pow_add_r by lia. lia.
Qed.

Lemma mul_of_Z (a b : Z) :
  0 ≤ a → 0 < b < 2 ^ 24 → a * b < 2 ^ 24 →
  F32.mul (F32.of_Z a) (F32.of_Z b) = F32.of_Z (a * b).
Proof.
  intros Ha Hb Hab. destruct b as [|nb|nb]; [lia| |lia].
  destruct a as [|na|na]; [|clear Ha|lia].
  - rewrite of_Z_pos by lia. done.
  - rewrite !of_Z_pos by nia. rewrite mul_exact by done.
    change (Z.pos na * Z.pos nb) with (Z.pos (na * nb)). by rewrite of_Z_pos.
Qed.

Lemma exact_digits (n : positive) :
  Z.pos n < 2 ^ 24 →
  Z.pos (digits2_pos (Z.to_pos (Z.pos n * 2 ^ (24 - Z.pos (digits2_pos n))))) = 24.
Proof.
  intros Hn. pose proof (small_digits n Hn).
  assert (0 < 2 ^ (24 - Z.pos (digits2_pos n))) by (apply Z.pow_pos_nonneg; lia).
  rewrite (digits2_pos_shift n (24 - Z.pos (digits2_pos n))); [lia..|].
  rewrite Z2Pos.id; lia.
Qed.

Lemma div_two_exact s (n : positive) :
  Z.pos n < 2 ^ 24 → F32.div (F32.exact s n 0) F32.two = F32.exact s n (-1).
Proof.
  intros Hn. pose proof (small_digits n Hn) as Hd.
  pose proof (exact_digits n Hn) as Hdm.
  change F32.two with (S754_finite false 8388608 (-22)).
  unfold F32.div, F32.exact. cbn [SFdiv].
  set (d := Z.pos (digits2_pos n)) in *.
  set (m := Z.to_pos (Z.pos n * 2 ^ (24 - d))) in *.
  unfold SFdiv_core_binary. cbn [Zdigits2]. rewrite Hdm.
  change (Z.pos (digits2_pos 8388608)) with 24.
  replace (24 + (0 + d - 24) - (24 + -22)) with (d - 2) by lia.
  rewrite fexp_f32 by lia.
  replace (Z.min (d - 2 - 24) (0 + d - 24 - -22)) with (d - 26) by lia.
  replace (0 + d - 24 - -22 - (d - 26)) with 24 by lia.
  cbv iota beta.
  assert (Z.div_eucl (Z.shiftl (Z.pos m) 24) 8388608 = (2 * Z.pos m, 0)) as ->.
  { rewrite Z.shiftl_mul_pow2 by lia.
    pose proof (Z.div_eucl_eq (Z.pos m * 2 ^ 24) 8388608) as Heq.
    pose proof (Z.mod_pos_bound (Z.pos m * 2 ^ 24) 8388608) as Hb.
    unfold Z.modulo in Hb.
    destruct (Z.div_eucl (Z.pos m * 2 ^ 24) 8388608) as [q r].
    specialize (Heq ltac:(lia)). specialize (Hb ltac:(lia)).
    change (2 ^ 24) with (2 * 8388608) in Heq. f_equal; lia. }
  change (new_location 8388608 0) with loc_Exact. rewrite xorb_false_r.
  assert (0 < 2 ^ (24 - d)) by (apply Z.pow_pos_nonneg; lia).
  rewrite (binary_round_aux_exact s (m~0)%positive n (25 - d)); [|lia| |lia..].
  - f_equal. lia.
  - rewrite Pos2Z.inj_xO. unfold m. rewrite Z2Pos.id by lia.
    replace (25 - d) with (24 - d + 1) by lia. rewrite Z.pow_add_r by lia. lia.
Qed.

Lemma half_of_Z (c : Z) :
  c ≠ 0 → Z.abs c < 2 ^ 24 → Z.even c = true →
  F32.div (F32.of_Z c) F32.two = F32.of_Z (c / 2).
Proof.
  intros Hn Hc Heven. apply Zeven_bool_iff, Zeven_ex in Heven as [h ->].
  rewrite Z.mul_comm, Z.div_mul by done.
  assert (h ≠ 0) as Hh by lia.
  destruct (Z_signed h Hh) as (s & n & -> & Hn').
  replace (cond_Zopp s (Z.pos n) * 2) with (cond_Zopp s (Z.pos (n~0)))
    by (destruct s; simpl; lia).
  rewrite !of_Z_signed by lia. rewrite div_two_exact by lia.
  rewrite (exact_rescale s n (n~0) 1 (-1)); [done|lia|lia| |].
  - apply small_digits. lia.
  - pose proof (small_digits (n~0) ltac:(lia)). lia.
Qed.

Lemma to_Z_exact s (n : positive) :
  Z.pos n < 2 ^ 24 → F32.to_Z (F32.exact s n 0) = Some (cond_Zopp s (Z.pos n)).
Proof.
  intros Hn. pose proof (small_digits n Hn) as Hd.
  unfold F32.exact, F32.to_Z.
  set (d := Z.pos (digits2_pos n)) in *.
  assert (0 < 2 ^ (24 - d)) by (apply Z.pow_pos_nonneg; lia).
  assert ((if s then Z.neg (Z.to_pos (Z.pos n * 2 ^ (24 - d)))
           else Z.pos (Z.to_pos (Z.pos n * 2 ^ (24 - d))))
          = cond_Zopp s (Z.pos n) * 2 ^ (24 - d)) as ->.
  { destruct s; simpl; rewrite <-?Pos2Z.opp_pos, Z2Pos.id; lia. }
  destruct (0 + d - 24) as [|q|q] eqn:Hq; [|lia|].
  - replace (24 - d) with 0 by lia. f_equal. lia.
  - replace (Z.pos q) with (24 - d) by lia.
    rewrite Z_mod_mult, Z.eqb_refl, Z.div_mul by lia. done.
Qed.

Lemma to_Z_of_Z (c : Z) : Z.abs c < 2 ^ 24 → F32.to_Z (F32.of_Z c) = Some c.
Proof.
  intros Hc. destruct (decide (c = 0)) as [->|Hn]; [done|].
  destruct (Z_signed c Hn) as (s & n & -> & Hn').
  rewrite of_Z_signed, to_Z_exact by lia. done.
Qed.

(** The counter of the barycenter: it counts up to [2 ^ 24] and stays
    there. *)
Lemma count_succ (c : Z) :
  0 ≤ c ≤ 2 ^ 24 →
  F32.add (F32.of_Z c) F32.one = F32.of_Z (Z.min (c + 1) (2 ^ 24)).
Proof.
  intros Hc. destruct (decide (c = 2 ^ 24)) as [->|Hne].
  - by vm_compute.
  - rewrite Z.min_l by lia. unfold F32.one. apply add_of_Z; lia.
Qed.

(** Rounding a non-negative mantissa never yields NaN or a negative
    number. *)
Lemma shr_1_nonneg mrs : 0 ≤ shr_m mrs → 0 ≤ shr_m (shr_1 mrs).
Proof. destruct mrs as [[|[q|q|]|q] r t]; simpl; lia. Qed.

Lemma shr_nonneg mrs e n : 0 ≤ shr_m mrs → 0 ≤ shr_m (shr mrs e n).1.
Proof.
  intros Hm. unfold shr. destruct n as [|q|q]; [done| |done]. simpl.
  rewrite iter_pos_nat. induction (Pos.to_nat q) as [|k IH]; [done|].
  simpl. by apply shr_1_nonneg.
Qed.

Lemma shr_fexp_nonneg (m e : Z) l :
  0 ≤ m → 0 ≤ shr_m (shr_fexp F32.prec F32.emax m e l).1.
Proof.
  intros Hm. unfold shr_fexp. apply shr_nonneg.
  by destruct l as [|[]].
Qed.

Lemma round_nearest_even_nonneg (m : Z) l : 0 ≤ m → 0 ≤ round_nearest_even m l.
Proof.
  intros Hm. unfold round_nearest_even.
  destruct l as [|[]]; [done| |done|lia]. destruct (Z.even m); lia.
Qed.

Lemma binary_round_aux_nonneg (m e : Z) l :
  0 ≤ m → F32.is_nonneg (binary_round_aux F32.prec F32.emax false m e l) = true.
Proof.
  intros Hm. unfold binary_round_aux.
  pose proof (shr_fexp_nonneg m e l Hm) as H1.
  destruct (shr_fexp F32.prec F32.emax m e l) as [mrs' e']. simpl in H1.
  pose proof (shr_fexp_nonneg _ e' loc_Exact
                (round_nearest_even_nonneg _ (loc_of_shr_record mrs') H1)) as H2.
  destruct (shr_fexp _ _ _ e' loc_Exact) as [mrs'' e'']. simpl in H2.
  destruct (shr_m mrs'') as [|q|q]; [done| |lia].
  by destruct (e'' <=? F32.emax - F32.prec).
Qed.

Lemma binary_normalize_nonneg (m e : Z) :
  0 ≤ m → F32.is_nonneg (binary_normalize F32.prec F32.emax m e false) = true.
Proof.
  intros Hm. destruct m as [|q|q]; [done| |lia]. cbn [binary_normalize].
  unfold binary_round. destruct (shl_align _ _ _) as [mz ez].
  by apply binary_round_aux_nonneg.
Qed.

Lemma of_usize_nonneg (n : nat) : F32.is_nonneg (F32.of_usize n) = true.
Proof. apply binary_normalize_nonneg. lia. Qed.

Lemma add_nonneg (a b : f32) :
  F32.is_nonneg a = true → F32.is_nonneg b = true →
  F32.is_nonneg (F32.add a b) = true.
Proof.
  destruct a as [[]|[]| |[] ma ea], b as [[]|[]| |[] mb eb]; try done.
  intros _ _. unfold F32.add. cbn [SFadd cond_Zopp].
  apply binary_normalize_nonneg. lia.
Qed.

(** Dividing such a number by a positive finite one does not yield NaN
    either. *)
Lemma div_nonneg (a : f32) (m : positive) (e : Z) :
  F32.is_nonneg a = true →
  F32.is_nonneg (F32.div a (S754_finite false m e)) = true.
Proof.
  destruct a as [[]|[]| |[] ma ea]; try done.
  intros _. unfold F32.div. cbn [SFdiv xorb].
  destruct (SFdiv_core_binary _ _ _ _ _ _) as [[mz ez] lz] eqn:Hcore.
  apply binary_round_aux_nonneg.
  unfold SFdiv_core_binary in Hcore.
  set (m' := match _ - _ - _ with Z0 => _ | Z.pos _ => _ | Z.neg _ => _ end) in Hcore.
  assert (0 ≤ m') as Hm'.
  { unfold m'. destruct (_ - _ - _); [lia| |lia]. apply Z.shiftl_nonneg. lia. }
  pose proof (Z.div_pos m' (Z.pos m) Hm' ltac:(lia)) as Hq.
  unfold Z.div in Hq. destruct (Z.div_eucl m' (Z.pos m)) as [q r].
  injection Hcore as <- _ _. done.
Qed.

(** Comparison of two numbers that are not NaN. *)
Lemma partial_cmp_nonneg (a b : f32) :
  F32.is_nonneg a = true → F32.is_nonneg b = true →
  is_Some (F32.partial_cmp a b).
Proof. destruct a as [[]|[]| |[] ma ea], b as [[]|[]| |[] mb eb]; by eauto. Qed.

Lemma partial_cmp_flip (a b : f32) :
  F32.partial_cmp a b = Some Gt → F32.partial_cmp b a = Some Lt.
Proof.
  unfold F32.partial_cmp.
  destruct a as [[]|[]| |[] ma ea], b as [[]|[]| |[] mb eb]; simpl; try done.
  - rewrite (Z.compare_antisym ea eb).
    destruct (ea ?= eb)%Z eqn:He; simpl; try done.
    fold (Pos.compare ma mb). fold (Pos.compare mb ma).
    rewrite (Pos.compare_antisym ma mb). by destruct (ma ?= mb)%positive.
  - rewrite (Z.compare_antisym ea eb).
    destruct (ea ?= eb)%Z eqn:He; simpl; try done.
    fold (Pos.compare ma mb). fold (Pos.compare mb ma).
    rewrite (Pos.compare_antisym ma mb). by destruct (ma ?= mb)%positive.
Qed.

Lemma partial_cmp_Eq_sym (a b : f32) :
  F32.partial_cmp a b = Some Eq → F32.partial_cmp b a = Some Eq.
Proof.
  unfold F32.partial_cmp.
  destruct a as [[]|[]| |[] ma ea], b as [[]|[]| |[] mb eb]; simpl; try done.
  - rewrite (Z.compare_antisym ea eb).
    destruct (ea ?= eb)%Z eqn:He; simpl; try done.
    fold (Pos.compare ma mb). fold (Pos.compare mb ma).
    rewrite (Pos.compare_antisym ma mb). by destruct (ma ?= mb)%positive.
  - rewrite (Z.compare_antisym ea eb).
    destruct (ea ?= eb)%Z eqn:He; simpl; try done.
    fold (Pos.compare ma mb). fold (Pos.compare mb ma).
    rewrite (Pos.compare_antisym ma mb). by destruct (ma ?= mb)%positive.
Qed.

Lemma partial_cmp_Eq_trans (a b c : f32) :
  F32.partial_cmp a b = Some Eq → F32.partial_cmp b c = Some Eq →
  F32.partial_cmp a c = Some Eq.
Proof.
  unfold F32.partial_cmp.
  destruct a as [[]|[]| |[] ma ea], b as [[]|[]| |[] mb eb],
           c as [[]|[]| |[] mc ec]; simpl; try done.
  - destruct (ea ?= eb)%Z eqn:He1; try done.
    destruct (eb ?= ec)%Z eqn:He2; try done.
    apply Z.compare_eq in He1, He2. subst. rewrite Z.compare_refl.
    fold (Pos.compare ma mb). fold (Pos.compare mb mc). fold (Pos.compare ma mc).
    destruct (ma ?= mb)%positive eqn:Hm1; try done.
    destruct (mb ?= mc)%positive eqn:Hm2; try done.
    apply Pos.compare_eq in Hm1, Hm2. subst. intros _ _.
    by rewrite Pos.compare_refl.
  - destruct (ea ?= eb)%Z eqn:He1; try done.
    destruct (eb ?= ec)%Z eqn:He2; try done.
    apply Z.compare_eq in He1, He2. subst. rewrite Z.compare_refl.
    fold (Pos.compare ma mb). fold (Pos.compare mb mc). fold (Pos.compare ma mc).
    destruct (ma ?= mb)%positive eqn:Hm1; try done.
    destruct (mb ?= mc)%positive eqn:Hm2; try done.
    apply Pos.compare_eq in Hm1, Hm2. subst. intros _ _.
    by rewrite Pos.compare_refl.
Qed.
End FloatFacts.

(** ** Barycenters *)
Section Barycenter.
Context (g : Graph.t) (prev : list nat).
Local Open Scope Z_scope.

Lemma of_Z_positive (c : Z) :
  1 ≤ c ≤ 2 ^ 24 → ∃ m e, F32.of_Z c = S754_finite false m e.
Proof.
  intros Hc. destruct (decide (c = 2 ^ 24)) as [->|Hne].
  - by eexists _, _.
  - destruct c as [|n|n]; [lia| |lia]. rewrite of_Z_pos by lia. by eexists _, _.
Qed.

Lemma barycenter_fold (ps : list nat) (sum : f32) (c : Z) :
  0 ≤ c ≤ 2 ^ 24 →
  foldl (λ '(sum, count) parent,
           match Layout.position prev parent with
           | Some pos => (F32.add sum (F32.of_usize pos), F32.add count F32.one)
           | None => (sum, count)
           end) (sum, F32.of_Z c) ps
  = (foldl (λ sum pos, F32.add sum (F32.of_usize pos)) sum
           (omap (Layout.position prev) ps),
     F32.of_Z (Z.min (c + Z.of_nat (length (omap (Layout.position prev) ps)))
                     (2 ^ 24))).
Proof.
  revert sum c. induction ps as [|p ps IH]; intros sum c Hc.
  - simpl. by rewrite Z.add_0_r, Z.min_l by lia.
  - cbn [foldl omap list_omap]. destruct (Layout.position prev p) as [pos|].
    + rewrite count_succ by done. rewrite IH by lia. cbn [foldl length].
      do 2 f_equal. lia.
    + by rewrite IH.
Qed.

Lemma sum_nonneg (ps : list nat) (sum : f32) :
  F32.is_nonneg sum = true →
  F32.is_nonneg (foldl (λ sum pos, F32.add sum (F32.of_usize pos)) sum ps) = true.
Proof.
  revert sum. induction ps as [|p ps IH]; intros sum Hs; simpl; [done|].
  apply IH, add_nonneg; [done|apply of_usize_nonneg].
Qed.

Lemma barycenter_unfold (node : nat) :
  Layout.barycenter g prev node =
    let ps := found_positions g prev node in
    let count := F32.of_Z (Z.min (Z.of_nat (length ps)) (2 ^ 24)) in
    if F32.gt count F32.zero
    then F32.div (foldl (λ sum pos, F32.add sum (F32.of_usize pos)) F32.zero ps) count
    else F32.zero.
Proof.
  unfold Layout.barycenter. change F32.zero with (F32.of_Z 0) at 2.
  by rewrite barycenter_fold by lia.
Qed.

(** A barycenter is never NaN (and never negative). *)
Lemma barycenter_nonneg (node : nat) :
  F32.is_nonneg (Layout.barycenter g prev node) = true.
Proof.
  rewrite barycenter_unfold. cbv zeta.
  set (ps := found_positions g prev node).
  destruct (decide (length ps = 0%nat)) as [Hz|Hnz].
  - by rewrite Hz.
  - destruct (of_Z_positive (Z.min (Z.of_nat (length ps)) (2 ^ 24)))
      as (m & e & ->); [lia|].
    cbn. apply div_nonneg, sum_nonneg. done.
Qed.
End Barycenter.

(** ** Finite results *)
Section Finite.
Local Open Scope Z_scope.

Lemma shr_1_half mrs : 0 ≤ shr_m mrs → shr_m (shr_1 mrs) = shr_m mrs / 2.
Proof.
  destruct mrs as [[|[q|q|]|q] r t]; cbn [shr_m shr_1]; intros H; try lia.
  - done.
  - rewrite Pos2Z.inj_xI. apply (Z.div_unique _ _ _ 1); lia.
  - rewrite Pos2Z.inj_xO. apply (Z.div_unique _ _ _ 0); lia.
  - done.
Qed.

Lemma shr_m_iter (n : nat) mrs :
  0 ≤ shr_m mrs → shr_m (Nat.iter n shr_1 mrs) = shr_m mrs / 2 ^ Z.of_nat n.
Proof.
  intros Hm. induction n as [|n IH].
  - simpl. by rewrite Z.div_1_r.
  - change (Nat.iter (S n) shr_1 mrs) with (shr_1 (Nat.iter n shr_1 mrs)).
    rewrite shr_1_half.
    + rewrite IH, Nat2Z.inj_succ, Z.pow_succ_r, Z.div_div by lia.
      f_equal. lia.
    + rewrite IH. apply Z.div_pos; [done|]. apply Z.pow_pos_nonneg; lia.
Qed.

Lemma Zdigits2_upper (q k : Z) : 0 ≤ q < 2 ^ k → 0 ≤ k → Zdigits2 q ≤ k.
Proof.
  intros [Hq Hlt] Hk. destruct q as [|p|p]; [done| |lia]. cbn [Zdigits2].
  pose proof (digits2_pos_bounds p) as [Hlo _].
  destruct (decide (Z.pos (digits2_pos p) ≤ k)); [done|].
  assert (2 ^ k ≤ 2 ^ (Z.pos (digits2_pos p) - 1)) by (apply Z.pow_le_mono_r; lia).
  lia.
Qed.

Lemma Zdigits2_lower (q : Z) : 0 ≤ q → q < 2 ^ Zdigits2 q.
Proof.
  intros Hq. destruct q as [|p|p]; [done| |lia]. apply digits2_pos_bounds.
Qed.

Lemma Zdigits2_nonneg (q : Z) : 0 ≤ Zdigits2 q.
Proof. by destruct q. Qed.

(** The first shift leaves a mantissa of at most 24 digits, at an exponent
    that is at least the least exponent. *)
Lemma shr_fexp_bounds (m e : Z) l :
  0 ≤ m →
  let r := shr_fexp F32.prec F32.emax m e l in
  0 ≤ shr_m r.1 < 2 ^ 24 ∧
  r.2 = Z.max e (SpecFloat.fexp F32.prec F32.emax (Zdigits2 m + e)).
Proof.
  intros Hm. unfold shr_fexp.
  set (n := SpecFloat.fexp F32.prec F32.emax (Zdigits2 m + e) - e).
  assert (shr_m (shr_record_of_loc m l) = m) as Hrec by (by destruct l as [|[]]).
  pose proof (Zdigits2_lower m Hm) as Hd. pose proof (Zdigits2_nonneg m) as Hd0.
  assert (Zdigits2 m - 24 ≤ n) as Hn.
  { unfold n, SpecFloat.fexp, F32.prec. lia. }
  unfold shr. destruct n as [|p|p] eqn:Hp.
  - cbn [fst snd]. rewrite Hrec. split; [|lia]. split; [done|].
    eapply Z.lt_le_trans; [done|]. apply Z.pow_le_mono_r; lia.
  - cbn [fst snd]. rewrite iter_pos_nat, shr_m_iter, Hrec, positive_nat_Z by lia.
    split; [|lia]. split; [apply Z.div_pos; lia|].
    apply Z.div_lt_upper_bound; [lia|]. rewrite <-Z.pow_add_r by lia.
    eapply Z.lt_le_trans; [done|]. apply Z.pow_le_mono_r; lia.
  - cbn [fst snd]. rewrite Hrec. split; [|lia]. split; [done|].
    eapply Z.lt_le_trans; [done|]. apply Z.pow_le_mono_r; lia.
Qed.

(** Rounding does not overflow when the number is below [2 ^ 127]. *)
Lemma binary_round_aux_finite s (m e : Z) l :
  0 ≤ m → Zdigits2 m + e ≤ 127 → e ≤ 103 →
  F32.is_finite (binary_round_aux F32.prec F32.emax s m e l) = true.
Proof.
  intros Hm Hd He. unfold binary_round_aux.
  destruct (shr_fexp_bounds m e l Hm) as [Hm1 He1].
  destruct (shr_fexp F32.prec F32.emax m e l) as [mrs' e']. cbn [fst snd] in *.
  set (m2 := round_nearest_even (shr_m mrs') (loc_of_shr_record mrs')).
  assert (0 ≤ m2 ≤ 2 ^ 24) as Hm2.
  { unfold m2, round_nearest_even.
    destruct (loc_of_shr_record mrs') as [|[]]; try lia.
    destruct (Z.even (shr_m mrs')); lia. }
  destruct (shr_fexp_bounds m2 e' loc_Exact (proj1 Hm2)) as [Hm3 He3].
  destruct (shr_fexp F32.prec F32.emax m2 e' loc_Exact) as [mrs'' e''].
  cbn [fst snd] in *.
  assert (Zdigits2 m2 ≤ 25) as Hd2.
  { apply Zdigits2_upper; [|lia]. change (2 ^ 25) with (2 * 2 ^ 24). lia. }
  assert (e'' ≤ 104) as He''.
  { rewrite He3, He1. unfold SpecFloat.fexp, SpecFloat.emin, F32.prec, F32.emax in *. lia. }
  destruct (shr_m mrs'') as [|q|q]; [done| |lia].
  replace (e'' <=? F32.emax - F32.prec) with true; [done|].
  symmetry. apply Z.leb_le. unfold F32.emax, F32.prec. lia.
Qed.
End Finite.

Section FiniteBarycenter.
Local Open Scope Z_scope.

Lemma of_Z_positive_bounds (c : Z) :
  1 ≤ c ≤ 2 ^ 24 →
  ∃ m e, F32.of_Z c = S754_finite false m e ∧
         Z.pos (digits2_pos m) = 24 ∧ -23 ≤ e ≤ 1.
Proof.
  intros Hc. destruct (decide (c = 2 ^ 24)) as [->|Hne].
  - exists 8388608%positive, 1. by split_and!.
  - destruct c as [|n|n]; [lia| |lia]. rewrite of_Z_pos by lia.
    eexists _, _. split; [done|]. split; [apply exact_digits; lia|].
    pose proof (small_digits n ltac:(lia)). lia.
Qed.

(** The quotient of two normal floats of moderate exponent is finite. *)
Lemma div_finite (mx my : positive) (ex ey : Z) :
  Z.pos (digits2_pos mx) = 24 → Z.pos (digits2_pos my) = 24 →
  -23 ≤ ex ≤ 1 → -23 ≤ ey ≤ 1 →
  F32.is_finite (F32.div (S754_finite false mx ex) (S754_finite false my ey)) = true.
Proof.
  intros Hdx Hdy Hex Hey. unfold F32.div. cbn [SFdiv xorb].
  destruct (SFdiv_core_binary _ _ _ _ _ _) as [[mz ez] lz] eqn:Hcore.
  unfold SFdiv_core_binary in Hcore. cbn [Zdigits2] in Hcore.
  rewrite Hdx, Hdy in Hcore.
  replace (24 + ex - (24 + ey)) with (ex - ey) in Hcore by lia.
  rewrite fexp_f32 in Hcore by lia.
  replace (Z.min (ex - ey - 24) (ex - ey)) with (ex - ey - 24) in Hcore by lia.
  replace (ex - ey - (ex - ey - 24)) with 24 in Hcore by lia.
  cbv iota beta in Hcore. rewrite Z.shiftl_mul_pow2 in Hcore by lia.
  pose proof (digits2_pos_bounds mx) as [_ Hmx].
  pose proof (digits2_pos_bounds my) as [Hmy _].
  rewrite Hdx in Hmx. rewrite Hdy in Hmy.
  assert (0 ≤ Z.pos mx * 2 ^ 24 / Z.pos my < 2 ^ 25) as Hq.
  { split; [apply Z.div_pos; lia|]. apply Z.div_lt_upper_bound; [lia|].
    change (2 ^ (24 - 1)) with 8388608 in Hmy.
    change (2 ^ 24) with 16777216 in *. change (2 ^ 25) with 33554432. nia. }
  unfold Z.div in Hq. destruct (Z.div_eucl _ _) as [q r].
  injection Hcore as <- <- _.
  apply binary_round_aux_finite; [lia| |lia].
  pose proof (Zdigits2_upper q 25 Hq ltac:(lia)). lia.
Qed.

Context (g : Graph.t) (prev : list nat).

Lemma position_lt (p pos : nat) :
  Layout.position prev p = Some pos → (pos < length prev)%nat.
Proof.
  unfold Layout.position. destruct (list_find _ prev) as [[i v]|] eqn:Hf; [|done].
  intros [= <-]. apply list_find_Some in Hf as (Hi & _). by eapply lookup_lt_Some.
Qed.

(** The sum of the positions is exact while it stays below [2 ^ 24]. *)
Lemma sum_exact (ps : list nat) (B : nat) (S0 : Z) :
  (∀ p, p ∈ ps → (p < B)%nat) →
  0 ≤ S0 → S0 + Z.of_nat B * Z.of_nat (length ps) < 2 ^ 24 →
  ∃ S, 0 ≤ S < 2 ^ 24 ∧
       foldl (λ sum pos, F32.add sum (F32.of_usize pos)) (F32.of_Z S0) ps
       = F32.of_Z S.
Proof.
  revert S0. induction ps as [|p ps IH]; intros S0 Hps HS0 Hb.
  - exists S0. cbn [length] in Hb. split; [lia|done].
  - cbn [foldl]. assert (p < B)%nat as Hp by (apply Hps; by left).
    cbn [length] in Hb. unfold F32.of_usize at 2.
    rewrite add_of_Z by nia. apply IH; [|lia|nia].
    intros q Hq. apply Hps. by right.
Qed.

(** The exact sum of the positions. *)
Lemma sum_value (ps : list nat) (B : nat) (S0 : Z) :
  (∀ p, p ∈ ps → (p < B)%nat) → 0 ≤ S0 →
  S0 + Z.of_nat B * Z.of_nat (length ps) < 2 ^ 24 →
  foldl (λ sum pos, F32.add sum (F32.of_usize pos)) (F32.of_Z S0) ps
  = F32.of_Z (S0 + Z.of_nat (sum_list ps)).
Proof.
  revert S0. induction ps as [|p ps IH]; intros S0 Hps HS0 Hb.
  - simpl. f_equal. lia.
  - cbn [foldl]. assert (p < B)%nat by (apply Hps; by left).
    cbn [length] in Hb. unfold F32.of_usize at 2.
    rewrite add_of_Z by nia. rewrite IH; [f_equal; simpl; lia| |lia|nia].
    intros q Hq. apply Hps. by right.
Qed.

(** A barycenter is finite as long as the sum of the positions is exact. *)
Lemma barycenter_finite (node : nat) :
  Z.of_nat (length prev) * Z.of_nat (length (Graph.incoming g node)) < 2 ^ 24 →
  F32.is_finite (Layout.barycenter g prev node) = true.
Proof.
  intros Hb. rewrite barycenter_unfold. cbv zeta.
  assert (length (found_positions g prev node)
          ≤ length (Graph.incoming g node))%nat as Hlen.
  { clear Hb. unfold found_positions.
    induction (Graph.incoming g node) as [|p l IH]; [done|].
    cbn [omap list_omap]. fold (omap (Layout.position prev) l).
    destruct (Layout.position prev p); cbn [length]; lia. }
  set (ps := found_positions g prev node) in *.
  destruct (decide (length ps = 0%nat)) as [Hz|Hnz]; [by rewrite Hz|].
  destruct (of_Z_positive_bounds (Z.min (Z.of_nat (length ps)) (2 ^ 24)))
    as (my & ey & -> & Hdy & Hey); [lia|].
  replace (F32.gt (S754_finite false my ey) F32.zero) with true by done.
  assert (Z.of_nat (length prev) * Z.of_nat (length ps)
          ≤ Z.of_nat (length prev) * Z.of_nat (length (Graph.incoming g node)))
    as Hmul by (apply Z.mul_le_mono_nonneg_l; lia).
  destruct (sum_exact ps (length prev) 0) as (S & HS & Hsum); [|lia|lia|].
  { intros p (q & _ & Hq)%list_elem_of_omap. by eapply position_lt. }
  change (F32.of_Z 0) with F32.zero in Hsum. rewrite Hsum.
  destruct (decide (S = 0)) as [->|HS0]; [done|].
  destruct (of_Z_positive_bounds S) as (mx & ex & -> & Hdx & Hex); [lia|].
  by apply div_finite.
Qed.
End FiniteBarycenter.

Lemma found_positions_length (g : Graph.t) (prev : list nat) (v : nat) :
  (length (found_positions g prev v) ≤ length (Graph.incoming g v))%nat.
Proof.
  unfold found_positions.
  induction (Graph.incoming g v) as [|p l IH]; [done|].
  cbn [omap list_omap]. fold (omap (Layout.position prev) l).
  destruct (Layout.position prev p); cbn [length]; lia.
Qed.


(** ** Crossing minimisation *)
Section Keyed.
Context {A K : Type} (cmp : A * K → A * K → option comparison) (key : A → K).

Lemma insert_by_keyed (a : A) (l : list A) :
  insert_by cmp (keyed key a) (keyed key <$> l)
  = fmap (M:=list) (keyed key) <$> insert_by (λ a b, cmp (keyed key a) (keyed key b)) a l.
Proof.
  induction l as [|b l IH]; [done|]. rewrite fmap_cons. cbn [insert_by].
  destruct (cmp (keyed key a) (keyed key b)) as [[]|]; try done.
  cbn [mbind option_bind]. rewrite IH. by destruct (insert_by _ a l).
Qed.

Lemma sort_by_keyed (l : list A) :
  sort_by cmp (keyed key <$> l)
  = fmap (M:=list) (keyed key) <$> sort_by (λ a b, cmp (keyed key a) (keyed key b)) l.
Proof.
  induction l as [|a l IH]; [done|]. rewrite fmap_cons. cbn [sort_by].
  rewrite IH. destruct (sort_by _ l) as [s|]; [|done]. apply insert_by_keyed.
Qed.

Lemma keyed_fst (l : list A) : (keyed key <$> l).*1 = l.
Proof. rewrite <-list_fmap_compose. apply list_fmap_id. Qed.
End Keyed.

Lemma Sorted_weaken {A} (R R' : A → A → Prop) (l : list A) :
  (∀ a b, R a b → R' a b) → Sorted R l → Sorted R' l.
Proof.
  intros HR. induction 1 as [|a l _ IH Hhd]; constructor; [done|].
  destruct Hhd; constructor; auto.
Qed.

Section Resort.
Context (key : nat → f32) (Hkey : ∀ n, F32.is_nonneg (key n) = true).

Lemma cmp_unwrap_or_keyed a b :
  cmp_unwrap_or (keyed key a) (keyed key b) = cmp_unwrap (keyed key a) (keyed key b).
Proof.
  unfold cmp_unwrap_or, cmp_unwrap. simpl.
  by destruct (partial_cmp_nonneg (key a) (key b)) as [c ->]; [apply Hkey..|].
Qed.

(** Sorting the keyed nodes with the comparator of the first revision does
    not panic and re-sorts the layer as the specification says. *)
Lemma sort_by_resorted (layer : list nat) :
  ∃ layer', sort_by cmp_unwrap (keyed key <$> layer) = Some (keyed key <$> layer') ∧
            Spec.resorted key layer layer'.
Proof.
  rewrite sort_by_keyed.
  pose (cmp' := λ a b : nat, cmp_unwrap (keyed key a) (keyed key b)).
  fold cmp'.
  destruct (sort_by_total cmp' layer) as [layer' Hs].
  { intros a b _ _. unfold cmp', cmp_unwrap. simpl.
    apply partial_cmp_nonneg; apply Hkey. }
  exists layer'. rewrite Hs. split; [done|]. split_and!.
  - by eapply sort_by_perm.
  - eapply Sorted_weaken; [|eapply sort_by_sorted; [|done]].
    + intros a b [H|H]; unfold cmp', cmp_unwrap, F32.partial_cmp in H; simpl in H;
        unfold SFleb; by rewrite H.
    + intros a b _ _ H. left. by apply partial_cmp_flip.
  - intros c. eapply (sort_by_stable cmp'); [|done].
    intros a b _ _ Ha Hb. unfold cmp', cmp_unwrap. simpl.
    apply partial_cmp_Eq_sym in Hb.
    by rewrite (partial_cmp_Eq_trans _ _ _ Ha Hb).
Qed.

Lemma sort_by_unwrap_or (layer : list nat) :
  sort_by cmp_unwrap_or (keyed key <$> layer)
  = sort_by cmp_unwrap (keyed key <$> layer).
Proof.
  apply sort_by_ext.
  intros a b (a' & -> & _)%list_elem_of_fmap (b' & -> & _)%list_elem_of_fmap.
  apply cmp_unwrap_or_keyed.
Qed.
End Resort.

Section Crossing.
Context (g : Graph.t).
Implicit Types (nbl done rest : list (list nat)) (prev cur : list nat).

(** The two revisions of the comparator order every layer alike. *)
Lemma reorder_layer_unwrap_or nbl layer_idx :
  Layout.reorder_layer cmp_unwrap_or g nbl layer_idx
  = Layout.reorder_layer cmp_unwrap g nbl layer_idx.
Proof.
  unfold Layout.reorder_layer.
  destruct (nbl !! layer_idx) as [cur|]; [|done]. simpl.
  destruct (nbl !! (layer_idx - 0)%nat) as [prev|]; simpl;
    destruct (nbl !! (layer_idx - 1)%nat) as [prev'|]; simpl; try done;
    rewrite sort_by_unwrap_or; try done; apply barycenter_nonneg.
Qed.

Lemma minimize_crossings_unwrap_or nbl :
  Layout.minimize_crossings cmp_unwrap_or g nbl
  = Layout.minimize_crossings cmp_unwrap g nbl.
Proof.
  assert (∀ nbl, Layout.sweep cmp_unwrap_or g nbl = Layout.sweep cmp_unwrap g nbl)
    as Hsweep.
  { intros nbl0. unfold Layout.sweep. generalize (seq 1 (length nbl0 - 1)).
    intros l. revert nbl0. induction l as [|i l IH]; intros nbl0; simpl; [done|].
    rewrite reorder_layer_unwrap_or.
    destruct (Layout.reorder_layer cmp_unwrap g nbl0 i); simpl; [apply IH|done]. }
  unfold Layout.minimize_crossings. generalize (seq 0 4). intros l. revert nbl.
  induction l as [|i l IH]; intros nbl; simpl; [done|].
  rewrite Hsweep. destruct (Layout.sweep cmp_unwrap g nbl); simpl; [apply IH|done].
Qed.

Lemma reorder_layer_spec done prev cur rest :
  ∃ cur', Layout.reorder_layer cmp_unwrap g (done ++ prev :: cur :: rest)
                               (S (length done))
          = Some (done ++ prev :: cur' :: rest) ∧
          Spec.resorted (Layout.barycenter g prev) cur cur'.
Proof.
  unfold Layout.reorder_layer.
  assert ((done ++ prev :: cur :: rest) !! S (length done) = Some cur) as ->.
  { rewrite lookup_app_r by lia. by replace (S (length done) - length done) with 1 by lia. }
  assert ((done ++ prev :: cur :: rest) !! (S (length done) - 1) = Some prev) as ->.
  { rewrite lookup_app_r by lia. by replace (S (length done) - 1 - length done) with 0 by lia. }
  cbn [mbind option_bind].
  destruct (sort_by_resorted (Layout.barycenter g prev) (barycenter_nonneg g prev) cur)
    as (cur' & -> & Hres).
  exists cur'. split; [|done]. cbn [mbind option_bind]. f_equal.
  rewrite keyed_fst.
  rewrite insert_app_r_alt by lia.
  by replace (S (length done) - length done) with 1 by lia.
Qed.

Lemma sweep_from done prev rest :
  ∃ rest', try_fold (Layout.reorder_layer cmp_unwrap g) (done ++ prev :: rest)
                    (seq (S (length done)) (length rest))
           = Some (done ++ prev :: rest') ∧
           Spec.swept (Layout.barycenter g) prev rest rest'.
Proof.
  revert done prev. induction rest as [|cur rest IH]; intros done prev.
  - exists []. split; [done|constructor].
  - cbn [length seq try_fold].
    destruct (reorder_layer_spec done prev cur rest) as (cur' & -> & Hres).
    cbn [mbind option_bind].
    destruct (IH (done ++ [prev]) cur') as (rest' & Hfold & Hsw).
    rewrite length_app, Nat.add_1_r, <-app_assoc in Hfold. simpl in Hfold.
    exists (cur' :: rest'). rewrite Hfold, <-app_assoc. split; [done|].
    by constructor.
Qed.

Lemma sweep_pass nbl :
  ∃ nbl', Layout.sweep cmp_unwrap g nbl = Some nbl' ∧
          Spec.pass (Layout.barycenter g) nbl nbl'.
Proof.
  unfold Layout.sweep. destruct nbl as [|layer0 rest].
  - by exists [].
  - destruct (sweep_from [] layer0 rest) as (rest' & Hfold & Hsw).
    exists (layer0 :: rest'). split; [|done].
    cbn [length]. by rewrite Nat.sub_succ, Nat.sub_0_r.
Qed.

(** Exactly four passes, each of them the pass of the specification. *)
Lemma minimize_crossings_passes nbl :
  ∃ nbl1 nbl2 nbl3 nbl4,
    Layout.minimize_crossings cmp_unwrap g nbl = Some nbl4 ∧
    Spec.pass (Layout.barycenter g) nbl nbl1 ∧
    Spec.pass (Layout.barycenter g) nbl1 nbl2 ∧
    Spec.pass (Layout.barycenter g) nbl2 nbl3 ∧
    Spec.pass (Layout.barycenter g) nbl3 nbl4.
Proof.
  destruct (sweep_pass nbl) as (nbl1 & Hs1 & ?).
  destruct (sweep_pass nbl1) as (nbl2 & Hs2 & ?).
  destruct (sweep_pass nbl2) as (nbl3 & Hs3 & ?).
  destruct (sweep_pass nbl3) as (nbl4 & Hs4 & ?).
  exists nbl1, nbl2, nbl3, nbl4. split_and!; try done.
  unfold Layout.minimize_crossings. cbn [seq try_fold].
  rewrite Hs1. cbn [mbind option_bind]. rewrite Hs2. cbn [mbind option_bind].
  rewrite Hs3. cbn [mbind option_bind]. by rewrite Hs4.
Qed.

Lemma swept_perm bary prev rest rest' :
  Spec.swept bary prev rest rest' → Forall2 (≡ₚ) rest' rest.
Proof. induction 1 as [|????? [Hp _]]; constructor; done. Qed.

Lemma pass_perm bary nbl nbl' : Spec.pass bary nbl nbl' → Forall2 (≡ₚ) nbl' nbl.
Proof.
  destruct nbl as [|l0 rest], nbl' as [|l0' rest']; simpl; try done.
  intros [-> Hsw]. constructor; [done|]. by eapply swept_perm.
Qed.

Lemma pass_layer0 bary nbl nbl' : Spec.pass bary nbl nbl' → nbl' !! 0 = nbl !! 0.
Proof.
  destruct nbl as [|l0 rest], nbl' as [|l0' rest']; simpl; try done.
  by intros [-> _].
Qed.

(** The phase does not panic, with either comparator, and permutes each
    layer. *)
Lemma minimize_crossings_perm nbl :
  ∃ nbl', Layout.minimize_crossings cmp_unwrap g nbl = Some nbl' ∧
          Forall2 (≡ₚ) nbl' nbl ∧ nbl' !! 0 = nbl !! 0.
Proof.
  destruct (minimize_crossings_passes nbl)
    as (nbl1 & nbl2 & nbl3 & nbl4 & H & H1 & H2 & H3 & H4).
  exists nbl4. split; [done|]. split.
  - etrans; [by eapply pass_perm|]. etrans; [by eapply pass_perm|].
    etrans; [by eapply pass_perm|]. by eapply pass_perm.
  - rewrite (pass_layer0 _ _ _ H4), (pass_layer0 _ _ _ H3),
      (pass_layer0 _ _ _ H2). by eapply pass_layer0.
Qed.
End Crossing.

(** ** Writing the coordinates back *)
Section WriteBack.
Implicit Types (ns : list Node) (ws : list (nat * (f32 * f32))).

Lemma first_with_ids ns a :
  first_with ns a = fst <$> list_find (λ b, b = a) (id <$> ns).
Proof.
  unfold first_with. rewrite list_find_fmap.
  destruct (list_find _ ns) as [[k n]|]; done.
Qed.

Lemma first_with_Some ns a k :
  first_with ns a = Some k →
  ∃ n, ns !! k = Some n ∧ id n = a ∧ ∀ j m, ns !! j = Some m → j < k → id m ≠ a.
Proof.
  unfold first_with. destruct (list_find _ ns) as [[k' n]|] eqn:Hf; [|done].
  intros [= <-]. apply list_find_Some in Hf as (Hk & Ha & Hfirst). eauto.
Qed.

Lemma first_with_NoDup ns k n :
  NoDup (id <$> ns) → ns !! k = Some n → first_with ns (id n) = Some k.
Proof.
  intros Hnd Hk. unfold first_with.
  destruct (list_find_elem_of (λ m, id m = id n) ns n) as [[k' n'] Hf];
    [by eapply list_elem_of_lookup_2|done|]. rewrite Hf. simpl. f_equal.
  apply list_find_Some in Hf as (Hk' & Ha & _).
  eapply NoDup_lookup; [done|..]; rewrite list_lookup_fmap.
  - by rewrite Hk'.
  - rewrite Hk. simpl. by rewrite Ha.
Qed.

Lemma write_back_ids ns a xx yy :
  id <$> Layout.write_back ns a xx yy = id <$> ns.
Proof.
  unfold Layout.write_back. destruct (list_find _ ns) as [[k n]|] eqn:Hf; [|done].
  apply list_find_Some in Hf as (Hk & _).
  rewrite list_fmap_insert. simpl. apply list_insert_id.
  by rewrite list_lookup_fmap, Hk.
Qed.

Lemma write_back_lookup ns a xx yy k :
  Layout.write_back ns a xx yy !! k =
    if decide (first_with ns a = Some k)
    then (λ n, {| id := id n; x := xx; y := yy |}) <$> ns !! k
    else ns !! k.
Proof.
  unfold Layout.write_back, first_with.
  destruct (list_find _ ns) as [[k' n]|] eqn:Hf; simpl; [|by try case_decide].
  apply list_find_Some in Hf as (Hk & _).
  case_decide as Hd.
  - injection Hd as ->. rewrite list_lookup_insert_eq by (by eapply lookup_lt_Some).
    by rewrite Hk.
  - rewrite list_lookup_insert_ne; [done|congruence].
Qed.

Lemma write1_ids rm ns w : id <$> write1 rm ns w = id <$> ns.
Proof. unfold write1. destruct (rm !! w.1); [apply write_back_ids|done]. Qed.

Lemma foldl_write1_ids rm ns ws : id <$> foldl (write1 rm) ns ws = id <$> ns.
Proof.
  revert ns. induction ws as [|w ws IH]; intros ns; simpl; [done|].
  by rewrite IH, write1_ids.
Qed.

Lemma first_with_ext ns ns' a :
  id <$> ns = id <$> ns' → first_with ns a = first_with ns' a.
Proof. intros H. by rewrite !first_with_ids, H. Qed.

(** A node that is not the first one with its identifier is never
    written. *)
Lemma foldl_write1_frame rm ns ws j :
  (∀ a, first_with ns a ≠ Some j) → foldl (write1 rm) ns ws !! j = ns !! j.
Proof.
  revert ns. induction ws as [|w ws IH]; intros ns Hj; simpl; [done|].
  rewrite IH.
  - unfold write1. destruct (rm !! w.1) as [a|]; [|done].
    rewrite write_back_lookup. case_decide; [|done]. by destruct (Hj a).
  - intros a. rewrite (first_with_ext _ ns) by apply write1_ids. apply Hj.
Qed.

(** With distinct identifiers, each write lands on the node of its own
    index. *)
Lemma foldl_write1_NoDup rm ns ws k n :
  NoDup (id <$> ns) → (∀ i, rm !! i = (id <$> ns) !! i) → NoDup ws.*1 →
  ns !! k = Some n →
  (∀ p, (k, p) ∈ ws →
        foldl (write1 rm) ns ws !! k = Some {| id := id n; x := p.1; y := p.2 |}) ∧
  (k ∉ ws.*1 → foldl (write1 rm) ns ws !! k = Some n).
Proof.
  intros Hnd Hrm Hws Hk. induction ws as [|[v [xx yy]] ws IH] using rev_ind.
  - split; [by intros p ?%elem_of_nil|done].
  - rewrite fmap_app in Hws. apply NoDup_app in Hws as (Hws & Hdis & _).
    destruct (IH Hws) as [IHin IHout]. clear IH.
    rewrite foldl_snoc. unfold write1 at 1 3. cbn [fst snd]. rewrite Hrm.
    set (ns' := foldl (write1 rm) ns ws).
    assert (id <$> ns' = id <$> ns) as Hids by apply foldl_write1_ids.
    assert (∀ a, first_with ns' a = first_with ns a) as Hfw
      by (intros a; by apply first_with_ext).
    split.
    + intros p [Hp|Hp%list_elem_of_singleton]%elem_of_app.
      * assert (k ≠ v) as Hne.
        { intros ->. eapply Hdis; [|by left]. apply list_elem_of_fmap.
          by exists (v, p). }
        destruct ((id <$> ns) !! v) as [a|] eqn:Hv; [|by apply IHin].
        rewrite write_back_lookup, Hfw. case_decide as Hd; [|by apply IHin].
        exfalso. apply Hne. apply list_lookup_fmap_Some in Hv as (m & -> & Hm).
        rewrite (first_with_NoDup ns v m) in Hd by done. congruence.
      * injection Hp as <- ->. rewrite list_lookup_fmap, Hk. simpl.
        rewrite write_back_lookup, Hfw, (first_with_NoDup ns k n) by done.
        rewrite decide_True by done.
        assert (id <$> (ns' !! k) = Some (id n)) as Hn'.
        { by rewrite <-list_lookup_fmap, Hids, list_lookup_fmap, Hk. }
        destruct (ns' !! k) as [n'|]; [|done]. simpl in *. by injection Hn' as ->.
    + rewrite fmap_app, not_elem_of_app. simpl. intros [Hout Hne]. 
      apply not_elem_of_cons in Hne as [Hne _].
      destruct ((id <$> ns) !! v) as [a|] eqn:Hv; [|by apply IHout].
      rewrite write_back_lookup, Hfw. case_decide as Hd; [|by apply IHout].
      exfalso. apply Hne. apply list_lookup_fmap_Some in Hv as (m & -> & Hm).
      rewrite (first_with_NoDup ns v m) in Hd by done. congruence.
Qed.
End WriteBack.

Section Writes.
Context (cfg : DagLayout).
Implicit Types (nbl : list (list nat)) (ns : list Node).

Lemma foldl_ext {A B} (f f' : A → B → A) (a : A) (l : list B) :
  (∀ a b, f a b = f' a b) → foldl f a l = foldl f' a l.
Proof.
  intros Hf. revert a. induction l as [|b l IH]; intros a; simpl; [done|].
  by rewrite Hf, IH.
Qed.

Lemma foldl_join {A B} (f : A → B → A) (a : A) (ls : list (list B)) :
  foldl f a (mjoin ls) = foldl (λ a l, foldl f a l) a ls.
Proof.
  revert a. induction ls as [|l ls IH]; intros a; simpl; [done|].
  by rewrite foldl_app, IH.
Qed.

Lemma place_layer_writes rm ns layer members :
  Layout.place_layer cfg rm ns (layer, members)
  = foldl (write1 rm) ns (layer_writes cfg layer members).
Proof.
  unfold Layout.place_layer, layer_writes.
  transitivity (foldl (write1 rm) ns
    ((λ iv : nat * nat, (iv.2, (Layout.node_x cfg (length members) iv.1,
                                Layout.node_y cfg layer)))
       <$> imap pair members)).
  - rewrite foldl_fmap. apply foldl_ext. by intros ns' [i v].
  - by rewrite fmap_imap.
Qed.

(** Phase 4 is the sequence of its writes. *)
Lemma assign_coordinates_writes rm nbl ns :
  Layout.assign_coordinates cfg rm nbl ns = foldl (write1 rm) ns (writes cfg nbl).
Proof.
  unfold Layout.assign_coordinates, writes. rewrite foldl_join.
  transitivity (foldl (λ ns' l, foldl (write1 rm) ns' l) ns
    ((λ e : nat * list nat, layer_writes cfg e.1 e.2) <$> imap pair nbl)).
  - rewrite foldl_fmap. apply foldl_ext. intros ns' [L ms].
    apply place_layer_writes.
  - by rewrite fmap_imap.
Qed.

Lemma elem_of_imap {A B} (f : nat → A → B) (l : list A) (b : B) :
  b ∈ imap f l ↔ ∃ i a, l !! i = Some a ∧ b = f i a.
Proof.
  rewrite list_elem_of_lookup. split.
  - intros (i & Hi). rewrite list_lookup_imap in Hi.
    destruct (l !! i) as [a|] eqn:Ha; [|done]. injection Hi as <-. eauto.
  - intros (i & a & Ha & ->). exists i. by rewrite list_lookup_imap, Ha.
Qed.

Lemma elem_of_writes nbl v p :
  (v, p) ∈ writes cfg nbl ↔
  ∃ L ms i, nbl !! L = Some ms ∧ ms !! i = Some v ∧
            p = (Layout.node_x cfg (length ms) i, Layout.node_y cfg L).
Proof.
  unfold writes. rewrite list_elem_of_join. split.
  - intros (l & Hvp & (L & ms & HL & ->)%elem_of_imap).
    apply elem_of_imap in Hvp as (i & v' & Hi & [= -> ->]). eauto 10.
  - intros (L & ms & i & HL & Hi & ->). exists (layer_writes cfg L ms). split.
    + apply elem_of_imap. eauto.
    + apply elem_of_imap. eauto.
Qed.

Lemma layer_writes_targets layer members :
  (layer_writes cfg layer members).*1 = members.
Proof.
  unfold layer_writes. rewrite fmap_imap.
  rewrite (imap_ext _ (λ _ v, v)) by done. 
  rewrite (imap_const (λ v, v)). apply list_fmap_id.
Qed.

Lemma writes_targets nbl : (writes cfg nbl).*1 = mjoin nbl.
Proof.
  unfold writes. generalize (layer_writes cfg) (layer_writes_targets).
  induction nbl as [|ms nbl IH]; intros f Hf; [done|].
  rewrite imap_cons. simpl. rewrite fmap_app, Hf. f_equal.
  apply IH. intros L ms'. apply Hf.
Qed.

Lemma NoDup_join nbl :
  (∀ L, NoDup (layer_at nbl L)) →
  (∀ L1 L2 v, v ∈ layer_at nbl L1 → v ∈ layer_at nbl L2 → L1 = L2) →
  NoDup (mjoin nbl).
Proof.
  induction nbl as [|ms nbl IH]; intros Hnd Hdis; simpl; [constructor|].
  apply NoDup_app. split_and!.
  - apply (Hnd 0).
  - intros v Hv (ms' & Hv' & (L & HL)%list_elem_of_lookup)%list_elem_of_join.
    assert (0 = S L); [|done]. apply (Hdis _ _ v); [done|].
    unfold layer_at. simpl. by rewrite HL.
  - apply IH.
    + intros L. apply (Hnd (S L)).
    + intros L1 L2 v H1 H2. by assert (S L1 = S L2) as [= ->] by by eapply Hdis.
Qed.

Lemma layered_NoDup layers nbl : layered layers nbl → NoDup (mjoin nbl).
Proof.
  intros (Hin & Hnd & _). apply NoDup_join; [done|].
  intros L1 L2 v H1%Hin H2%Hin. congruence.
Qed.

Lemma layer_at_perm nbl nbl' L :
  Forall2 (≡ₚ) nbl' nbl → layer_at nbl' L ≡ₚ layer_at nbl L.
Proof.
  intros HF. unfold layer_at.
  destruct (nbl !! L) as [ms|] eqn:HL.
  - destruct (Forall2_lookup_r _ _ _ _ _ HF HL) as (ms' & -> & Hp). done.
  - apply lookup_ge_None_1 in HL. rewrite <-(Forall2_length _ _ _ HF) in HL.
    by rewrite lookup_ge_None_2.
Qed.

Lemma layered_perm layers nbl nbl' :
  Forall2 (≡ₚ) nbl' nbl → layered layers nbl → layered layers nbl'.
Proof.
  intros HF (Hin & Hnd & Hlen). split_and!.
  - intros v L. by rewrite (layer_at_perm _ _ L HF).
  - intros L. by rewrite (layer_at_perm _ _ L HF).
  - intros K. by rewrite (Forall2_length _ _ _ HF).
Qed.
End Writes.

(** ** A run of [apply] *)
Section Run.
Implicit Types (workflow : Workflow) (cfg : DagLayout) (seed : list nat).

Lemma apply_with_unfold cmp seed cfg workflow :
  Layout.apply_with cmp seed cfg workflow =
    if bool_decide (nodes workflow = []) then Some workflow else
    match toposort (graph_of workflow) with
    | None => Some workflow
    | Some _ =>
        nbl ← final_order cmp seed workflow;
        Some {| nodes := Layout.assign_coordinates cfg (Layout.build workflow).2 nbl
                                                   (nodes workflow);
                connections := connections workflow |}
    end.
Proof.
  unfold Layout.apply_with, final_order, initial_order, layers_of, graph_of.
  case_bool_decide; [done|].
  destruct (Layout.build workflow) as [[g im] rm]. simpl.
  destruct (toposort g); [|done].
  by destruct (Layout.group_by_layer _).
Qed.

(** Cycle rejection. *)
Lemma apply_with_cyclic cmp seed cfg workflow :
  cyclic (graph_of workflow) →
  Layout.apply_with cmp seed cfg workflow = Some workflow.
Proof.
  intros Hcyc. rewrite apply_with_unfold. case_bool_decide; [done|].
  by rewrite toposort_cyclic by (done || apply graph_of_well_formed).
Qed.

Lemma layers_of_spec workflow :
  ¬ cyclic (graph_of workflow) →
  (∀ v, is_Some (layers_of workflow !! v) ↔ v < length (nodes workflow)) ∧
  (∀ v, v < length (nodes workflow) →
        layers_of workflow !! v
        = Some (Layout.node_layer (graph_of workflow) (layers_of workflow) v)).
Proof.
  intros Hac. unfold layers_of.
  apply toposort_acyclic in Hac as [sorted Hs]; [|apply graph_of_well_formed].
  rewrite Hs. apply toposort_sound in Hs as (placed & -> & Hem & Hel).
  destruct (assign_layers_emitted _ _ Hem) as [Hdom Hrec].
  rewrite graph_of_node_count in Hel. split.
  - intros v. by rewrite Hdom, Hel.
  - intros v Hv. by apply Hrec, Hel.
Qed.

Lemma NoDup_filter_fst {A B} (P : A * B → Prop) `{!∀ e, Decision (P e)}
  (l : list (A * B)) : NoDup l.*1 → NoDup (filter P l).*1.
Proof.
  induction l as [|e l IH]; simpl; [done|].
  intros [Hnin Hnd]%NoDup_cons. rewrite filter_cons.
  destruct (decide (P e)); [|by apply IH].
  rewrite fmap_cons. apply NoDup_cons. split; [|by apply IH].
  intros (e' & He' & [_ Hin]%list_elem_of_filter)%list_elem_of_fmap.
  apply Hnin. apply list_elem_of_fmap. eauto.
Qed.

Lemma initial_order_layered seed workflow :
  ∃ nbl, initial_order seed workflow = Some nbl ∧
         layered (layers_of workflow) nbl.
Proof.
  unfold initial_order.
  destruct (group_by_layer_spec (hash_iter seed (map_to_list (layers_of workflow))))
    as (nbl & -> & Hlen & Hat).
  exists nbl. split; [done|]. split_and!.
  - intros v L. rewrite Hat, list_elem_of_fmap. split.
    + intros ([v' L'] & -> & [HL Hin]%list_elem_of_filter). simpl in *. subst L'.
      rewrite hash_iter_perm in Hin. by apply elem_of_map_to_list in Hin.
    + intros HvL. exists (v, L). split; [done|]. apply list_elem_of_filter.
      split; [done|]. rewrite hash_iter_perm. by apply elem_of_map_to_list.
  - intros L. rewrite Hat. apply NoDup_filter_fst.
    rewrite hash_iter_perm. apply NoDup_fst_map_to_list.
  - intros K. rewrite Hlen. split.
    + intros ([v L] & Hin & HK). rewrite hash_iter_perm in Hin.
      apply elem_of_map_to_list in Hin. eauto.
    + intros (v & L & HvL & HK). exists (v, L). split; [|done].
      rewrite hash_iter_perm. by apply elem_of_map_to_list.
Qed.

(** Either comparator: the ordering phase never panics. *)
Lemma final_order_layered seed workflow :
  ∃ nbl0 nbl,
    initial_order seed workflow = Some nbl0 ∧
    final_order cmp_unwrap seed workflow = Some nbl ∧
    final_order cmp_unwrap_or seed workflow = Some nbl ∧
    layered (layers_of workflow) nbl ∧
    Forall2 (≡ₚ) nbl nbl0 ∧ nbl !! 0 = nbl0 !! 0.
Proof.
  destruct (initial_order_layered seed workflow) as (nbl0 & H0 & Hlay).
  destruct (minimize_crossings_perm (graph_of workflow) nbl0)
    as (nbl & Hmin & Hperm & Hzero).
  exists nbl0, nbl. unfold final_order. rewrite H0. simpl.
  rewrite minimize_crossings_unwrap_or, Hmin.
  split_and!; try done. by eapply layered_perm.
Qed.

Lemma apply_with_unwrap_or seed cfg workflow :
  Layout.apply_unwrap seed cfg workflow = Layout.apply seed cfg workflow.
Proof.
  unfold Layout.apply_unwrap, Layout.apply. rewrite !apply_with_unfold.
  destruct (final_order_layered seed workflow) as (? & nbl & _ & -> & -> & _).
  done.
Qed.

(** [apply] returns, whatever its input. *)
Lemma apply_total seed cfg workflow : is_Some (Layout.apply seed cfg workflow).
Proof.
  unfold Layout.apply. rewrite apply_with_unfold.
  destruct (final_order_layered seed workflow) as (? & nbl & _ & _ & -> & _).
  case_bool_decide; [eauto|]. destruct (toposort _); simpl; eauto.
Qed.
End Run.

(** * The claims of the specification *)

(** ** Cycles *)

(** C2.  When the internal graph (the connections whose two endpoints name
    nodes of the workflow) has a cycle, [apply] returns and leaves the
    workflow, hence the coordinates of every node, exactly as it found them.
    This holds for both revisions of the sort comparator. *)
Theorem cycle_is_noop (seed : list nat) (cfg : DagLayout) (workflow : Workflow) :
  cyclic (graph_of workflow) →
  Layout.apply seed cfg workflow = Some workflow ∧
  Layout.apply_unwrap seed cfg workflow = Some workflow.
Proof. intros Hcyc. split; by apply apply_with_cyclic. Qed.

Lemma cycle_is_noop_witness :
  cyclic (graph_of two_cycle) ∧
  Layout.apply [] DagLayout_default two_cycle = Some two_cycle ∧
  Layout.apply_unwrap [] DagLayout_default two_cycle = Some two_cycle.
Proof.
  assert (cyclic (graph_of two_cycle)) as Hcyc.
  { exists 0. eapply path_snoc; [apply path_edge|]; vm_compute.
    - left.
    - right. left. }
  split; [exact Hcyc|].
  exact (cycle_is_noop [] DagLayout_default two_cycle Hcyc).
Defined.

(** The identifier map resolves every identifier of the node list. *)
Lemma index_map_total (workflow : Workflow) (a : NodeId) :
  a ∈ id <$> nodes workflow → is_Some ((Layout.build workflow).1.2 !! a).
Proof.
  intros Ha. destruct (Layout.build workflow) as [[g im] rm] eqn:Hb.
  apply build_spec in Hb as (_ & _ & _ & Him). simpl.
  apply list_elem_of_split_r in Ha as (l1 & l2 & Hl & Hnin).
  exists (length l1). apply Him. rewrite Hl. split.
  - by rewrite lookup_app_r, Nat.sub_diag by lia.
  - intros j Hj Hlk. rewrite lookup_app_r in Hlk by lia.
    destruct (j - length l1) as [|j'] eqn:Hj'; [lia|]. simpl in Hlk.
    apply Hnin. by eapply list_elem_of_lookup_2.
Qed.

(** C9.  A connection from a node of the workflow to itself makes the
    internal graph cyclic, and the whole layout is skipped: [apply] returns
    the workflow as it found it. *)
Theorem self_loop_is_noop (seed : list nat) (cfg : DagLayout) (workflow : Workflow)
  (a : NodeId) :
  {| source := a; target := a |} ∈ connections workflow →
  a ∈ id <$> nodes workflow →
  cyclic (graph_of workflow) ∧ Layout.apply seed cfg workflow = Some workflow.
Proof.
  intros Hconn Ha.
  assert (cyclic (graph_of workflow)) as Hcyc.
  { destruct (index_map_total workflow a Ha) as [i Hi].
    exists i. apply path_edge. unfold graph_of.
    destruct (Layout.build workflow) as [[g im] rm] eqn:Hb. simpl in *.
    apply build_spec in Hb as (_ & He & _). rewrite He.
    apply list_elem_of_omap. eexists. split; [done|].
    unfold resolve. simpl. by rewrite Hi. }
  split; [done|]. by apply apply_with_cyclic.
Qed.

Lemma self_loop_is_noop_witness :
  edge 1 1 ∈ connections self_loop ∧ 1 ∈ id <$> nodes self_loop ∧
  cyclic (graph_of self_loop) ∧
  Layout.apply [] DagLayout_default self_loop = Some self_loop.
Proof.
  assert (edge 1 1 ∈ connections self_loop) as Hc by (vm_compute; left).
  assert (1 ∈ id <$> nodes self_loop) as Ha by (vm_compute; left).
  split; [exact Hc|]. split; [exact Ha|].
  exact (self_loop_is_noop [] DagLayout_default self_loop 1 Hc Ha).
Defined.

(** ** Duplicate identifiers *)

(** C10.  When two nodes carry the same identifier, the later one is never
    written: [apply] returns with that node as it was on entry.  The
    identifier map holds the index of the last node with the identifier,
    while the write-back goes to the first one. *)
Theorem duplicate_id_untouched (seed : list nat) (cfg : DagLayout)
  (workflow : Workflow) (i j : nat) (ni nj : Node) :
  i < j →
  nodes workflow !! i = Some ni → nodes workflow !! j = Some nj →
  id ni = id nj →
  (∃ workflow', Layout.apply seed cfg workflow = Some workflow' ∧
                nodes workflow' !! j = Some nj) ∧
  (∀ k, (Layout.build workflow).1.2 !! id nj = Some k → j ≤ k) ∧
  (∀ k, first_with (nodes workflow) (id nj) = Some k → k ≤ i).
Proof.
  intros Hij Hi Hj Hid. split_and!.
  - destruct (apply_total seed cfg workflow) as [workflow' Happ].
    exists workflow'. split; [done|].
    unfold Layout.apply in Happ. rewrite apply_with_unfold in Happ.
    case_bool_decide; [by injection Happ as <-|].
    destruct (toposort _); [|by injection Happ as <-].
    destruct (final_order _ _ _) as [nbl|]; [|done]. injection Happ as <-. simpl.
    rewrite assign_coordinates_writes, foldl_write1_frame; [done|].
    intros a (n & Hn & Ha & Hfirst)%first_with_Some.
    apply (Hfirst i ni); [done..|]. congruence.
  - intros k Hk. destruct (Layout.build workflow) as [[g im] rm] eqn:Hb.
    apply build_spec in Hb as (_ & _ & _ & Him). simpl in Hk.
    apply Him in Hk as [_ Hlast]. destruct (decide (j ≤ k)); [done|].
    destruct (Hlast j); [lia|]. by rewrite list_lookup_fmap, Hj.
  - intros k (n & Hn & Ha & Hfirst)%first_with_Some.
    destruct (decide (k ≤ i)); [done|].
    destruct (Hfirst i ni); [done|lia|congruence].
Qed.

Lemma duplicate_id_untouched_witness :
  0 < 1 ∧
  nodes twins !! 0 = Some (node_at 1) ∧ nodes twins !! 1 = Some (node_at 1) ∧
  id (node_at 1) = id (node_at 1) ∧
  (∃ workflow', Layout.apply [] DagLayout_default twins = Some workflow' ∧
                nodes workflow' !! 1 = Some (node_at 1)) ∧
  (∀ k, (Layout.build twins).1.2 !! id (node_at 1) = Some k → 1 ≤ k) ∧
  (∀ k, first_with (nodes twins) (id (node_at 1)) = Some k → k ≤ 0).
Proof.
  split; [lia|]. split; [reflexivity|]. split; [reflexivity|]. split; [reflexivity|].
  apply (duplicate_id_untouched [] DagLayout_default twins 0 1 (node_at 1) (node_at 1));
    [lia|reflexivity..].
Defined.

(** ** Panics *)

(** C8.  [apply] returns for every node list and connection list --
    duplicate edges, self-loops, dangling references, cycles and the empty
    graph included -- with the comparator of either revision, and the two
    revisions return the same workflow: the [unwrap] of the first revision
    never fails, because no barycenter is NaN.  A barycenter is moreover
    finite as long as the sum of the positions stays in the range where
    single precision is exact. *)
Theorem apply_never_panics (seed : list nat) (cfg : DagLayout) (workflow : Workflow) :
  is_Some (Layout.apply seed cfg workflow) ∧
  Layout.apply_unwrap seed cfg workflow = Layout.apply seed cfg workflow ∧
  ∀ (g : Graph.t) (prev prev' : list nat) (n n' : nat),
    F32.is_nan (Layout.barycenter g prev n) = false ∧
    is_Some (F32.partial_cmp (Layout.barycenter g prev n)
                             (Layout.barycenter g prev' n')) ∧
    ((Z.of_nat (length prev) * Z.of_nat (length (Graph.incoming g n)) < 2 ^ 24)%Z →
     F32.is_finite (Layout.barycenter g prev n) = true).
Proof.
  split_and!.
  - apply apply_total.
  - apply apply_with_unwrap_or.
  - intros g prev prev' n n'. split_and!.
    + pose proof (barycenter_nonneg g prev n) as H.
      by destruct (Layout.barycenter g prev n) as [[]|[]| |[] ??].
    + apply partial_cmp_nonneg; apply barycenter_nonneg.
    + apply barycenter_finite.
Qed.

Lemma apply_never_panics_witness :
  (Z.of_nat (length [1; 2]) * Z.of_nat (length (Graph.incoming (graph_of diamond) 3))
   < 2 ^ 24)%Z ∧
  F32.is_finite (Layout.barycenter (graph_of diamond) [1; 2] 3) = true.
Proof.
  assert (Z.of_nat (length [1; 2])
          * Z.of_nat (length (Graph.incoming (graph_of diamond) 3)) < 2 ^ 24)%Z
    as Hb by (vm_compute; reflexivity).
  split; [exact Hb|].
  exact (proj2 (proj2 (proj2 (proj2 (apply_never_panics [] DagLayout_default diamond))
                 (graph_of diamond) [1; 2] [1; 2] 3 3)) Hb).
Defined.

(** ** Layers and coordinates of an acyclic workflow *)
Section Acyclic.
Implicit Types (workflow : Workflow) (cfg : DagLayout) (seed : list nat).

Lemma node_layer_bound (g : Graph.t) (layers : gmap nat nat) (v B : nat) :
  (∀ p pl, layers !! p = Some pl → pl < B) → Layout.node_layer g layers v ≤ B.
Proof.
  intros Hb. unfold Layout.node_layer.
  assert (0 ≤ B) as H0 by lia. revert H0. generalize 0 at 1 3.
  induction (Graph.incoming g v) as [|p ps IH]; intros acc Hacc; simpl; [done|].
  apply IH. destruct (layers !! p) as [pl|] eqn:Hp; [|done].
  apply Hb in Hp. lia.
Qed.

Lemma assign_layers_bound (g : Graph.t) (placed : list nat) :
  emitted g placed →
  ∀ v L, Layout.assign_layers g (reverse placed) !! v = Some L → L < length placed.
Proof.
  induction 1 as [|v placed Hem IH Hv Hpre]; intros u L.
  - unfold Layout.assign_layers. simpl. by rewrite lookup_empty.
  - rewrite reverse_cons, assign_layers_snoc. simpl.
    destruct (decide (u = v)) as [->|Hne].
    + rewrite lookup_insert_eq. intros [= <-].
      apply Nat.lt_succ_r, node_layer_bound. apply IH.
    + rewrite lookup_insert_ne by done. intros HL%IH. lia.
Qed.

(** No layer number reaches the number of nodes. *)
Lemma layers_of_bound workflow v L :
  layers_of workflow !! v = Some L → L < length (nodes workflow).
Proof.
  unfold layers_of. destruct (toposort (graph_of workflow)) as [sorted|] eqn:Hs;
    [|by rewrite lookup_empty].
  apply toposort_sound in Hs as (placed & -> & Hem & Hel).
  intros HL%assign_layers_bound; [|done].
  rewrite graph_of_node_count in Hel.
  assert (placed ≡ₚ seq 0 (length (nodes workflow))) as Hp.
  { apply NoDup_Permutation; [by eapply emitted_NoDup|apply NoDup_seq|].
    intros x. rewrite Hel, elem_of_seq. lia. }
  by rewrite Hp, length_seq in HL.
Qed.

(** The layer map is defined on the nodes of an acyclic workflow only. *)
Lemma layers_of_defined workflow v L :
  layers_of workflow !! v = Some L →
  ¬ cyclic (graph_of workflow) ∧ v < length (nodes workflow).
Proof.
  intros Hv.
  assert (¬ cyclic (graph_of workflow)) as Hac.
  { apply toposort_acyclic; [apply graph_of_well_formed|].
    unfold layers_of in Hv. destruct (toposort _); [eauto|].
    by rewrite lookup_empty in Hv. }
  split; [done|]. apply (layers_of_spec workflow Hac). eauto.
Qed.

(** Layering correctness. *)
Lemma layers_of_edge workflow u v :
  ¬ cyclic (graph_of workflow) → (u, v) ∈ Graph.edges (graph_of workflow) →
  ∃ lu lv, layers_of workflow !! u = Some lu ∧
           layers_of workflow !! v = Some lv ∧ lu < lv.
Proof.
  intros Hac He. destruct (layers_of_spec workflow Hac) as [Hdom Hrec].
  destruct (graph_of_well_formed workflow u v He) as [Hu Hv].
  rewrite graph_of_node_count in Hu, Hv.
  destruct (proj2 (Hdom u) Hu) as [lu Hlu].
  exists lu, (Layout.node_layer (graph_of workflow) (layers_of workflow) v).
  split_and!; [done|by apply Hrec|]. by eapply node_layer_parent.
Qed.

(** Root placement. *)
Lemma layers_of_root workflow v :
  ¬ cyclic (graph_of workflow) → v < length (nodes workflow) →
  Graph.incoming (graph_of workflow) v = [] →
  layers_of workflow !! v = Some 0.
Proof.
  intros Hac Hv Hin. destruct (layers_of_spec workflow Hac) as [_ Hrec].
  by rewrite Hrec, node_layer_root.
Qed.

Lemma layered_lookup (layers : gmap nat nat) (nbl : list (list nat)) L ms i k :
  layered layers nbl → nbl !! L = Some ms → ms !! i = Some k →
  layers !! k = Some L.
Proof.
  intros (Hin & _) HL Hi. apply Hin. rewrite (layer_at_lookup _ _ _ HL).
  by eapply list_elem_of_lookup_2.
Qed.

Lemma layered_cover (layers : gmap nat nat) (nbl : list (list nat)) L k :
  layered layers nbl → layers !! k = Some L →
  ∃ ms i, nbl !! L = Some ms ∧ ms !! i = Some k.
Proof.
  intros (Hin & _) HL. apply Hin in HL. unfold layer_at in HL.
  destruct (nbl !! L) as [ms|]; [|by apply elem_of_nil in HL].
  apply list_elem_of_lookup_1 in HL as [i Hi]. eauto.
Qed.

(** With distinct identifiers, every node receives the coordinates of its
    own position in the final order. *)
Lemma apply_coordinates seed cfg workflow :
  ¬ cyclic (graph_of workflow) → NoDup (id <$> nodes workflow) →
  ∃ workflow' nbl,
    Layout.apply seed cfg workflow = Some workflow' ∧
    final_order cmp_unwrap_or seed workflow = Some nbl ∧
    layered (layers_of workflow) nbl ∧
    ∀ L ms i k, nbl !! L = Some ms → ms !! i = Some k →
      ∃ n, nodes workflow !! k = Some n ∧
           nodes workflow' !! k
           = Some {| id := id n; x := Layout.node_x cfg (length ms) i;
                     y := Layout.node_y cfg L |}.
Proof.
  intros Hac Hnd.
  destruct (final_order_layered seed workflow)
    as (nbl0 & nbl & _ & _ & Hfin & Hlay & _).
  destruct (layers_of_spec workflow Hac) as [Hdom _].
  unfold Layout.apply. rewrite apply_with_unfold, Hfin.
  apply toposort_acyclic in Hac as [sorted Hs]; [|apply graph_of_well_formed].
  rewrite Hs. cbn [mbind option_bind].
  case_bool_decide as Hnil.
  - exists workflow, nbl. split_and!; [done..|].
    intros L ms i k HL Hi.
    pose proof (layered_lookup _ _ _ _ _ _ Hlay HL Hi) as Hk.
    assert (k < length (nodes workflow)) as Hlt by (apply Hdom; eauto).
    rewrite Hnil in Hlt. simpl in Hlt. lia.
  - eexists _, nbl. split_and!; [done..|].
    intros L ms i k HL Hi. cbn [nodes].
    pose proof (layered_lookup _ _ _ _ _ _ Hlay HL Hi) as Hk.
    assert (k < length (nodes workflow)) as Hlt by (apply Hdom; eauto).
    destruct (lookup_lt_is_Some_2 _ _ Hlt) as [n Hn].
    exists n. split; [done|].
    destruct (Layout.build workflow) as [[g im] rm] eqn:Hb.
    apply build_spec in Hb as (_ & _ & Hrm & _). cbn [snd].
    rewrite assign_coordinates_writes.
    destruct (foldl_write1_NoDup rm (nodes workflow) (writes cfg nbl) k n)
      as [Hin _]; [done|done| |done|].
    + rewrite writes_targets. by eapply layered_NoDup.
    + apply (Hin (Layout.node_x cfg (length ms) i, Layout.node_y cfg L)).
      apply elem_of_writes. eauto 10.
Qed.
End Acyclic.

(** ** Coordinates under the default configuration *)
Section DefaultConfig.
Local Open Scope Z_scope.

Lemma node_y_default (L : nat) :
  140 * Z.of_nat L < 2 ^ 24 →
  Layout.node_y DagLayout_default L = F32.of_Z (140 * Z.of_nat L).
Proof.
  intros HL. unfold Layout.node_y, F32.of_usize. cbn [layer_spacing DagLayout_default].
  rewrite mul_of_Z by lia. f_equal. lia.
Qed.

Lemma node_x_default (k i : nat) :
  (i < k)%nat → 300 * Z.of_nat k < 2 ^ 24 →
  Layout.node_x DagLayout_default k i
  = F32.of_Z (30 - 150 * Z.of_nat k + 300 * Z.of_nat i).
Proof.
  intros Hi Hk.
  unfold Layout.node_x, Layout.start_x, Layout.layer_width, F32.of_usize.
  cbn [node_spacing DagLayout_default].
  replace (F32.add (F32.of_Z 240) (F32.of_Z 60)) with (F32.of_Z 300)
    by (symmetry; apply (add_of_Z 240 60); lia).
  rewrite !mul_of_Z by lia.
  rewrite sub_of_Z by lia.
  rewrite neg_of_Z by lia.
  rewrite half_of_Z.
  - replace (- (Z.of_nat k * 300 - 60) / 2) with (30 - 150 * Z.of_nat k).
    + rewrite add_of_Z by lia. f_equal. lia.
    + replace (- (Z.of_nat k * 300 - 60)) with ((30 - 150 * Z.of_nat k) * 2) by lia.
      by rewrite Z.div_mul.
  - lia.
  - lia.
  - replace (- (Z.of_nat k * 300 - 60)) with (2 * (30 - 150 * Z.of_nat k)) by lia.
    apply Z.even_mul.
Qed.
End DefaultConfig.

(** ** Layering and coordinates *)

(** C3, as stated, fails in two ways.  With a duplicated identifier the
    write-back never reaches the later of the two nodes: in [dup_edge] the
    edge from index 1 to index 2 is in the internal graph and goes from
    layer 0 to layer 1, but the node at index 1 keeps its [y] of 1000 while
    the node at index 2 gets 140.  And the product [layer * layer_spacing]
    is rounded to single precision: the [y] of layer 479351 is less than
    140 above the [y] of layer 479350. *)
Lemma layering_counterexample :
  ¬ cyclic (graph_of dup_edge) ∧
  (1, 2) ∈ Graph.edges (graph_of dup_edge) ∧
  layers_of dup_edge !! 1 = Some 0 ∧ layers_of dup_edge !! 2 = Some 1 ∧
  (∃ workflow' nu nv,
     Layout.apply [] DagLayout_default dup_edge = Some workflow' ∧
     nodes workflow' !! 1 = Some nu ∧ nodes workflow' !! 2 = Some nv ∧
     F32.to_Z (y nu) = Some 1000%Z ∧ F32.to_Z (y nv) = Some 140%Z) ∧
  F32.to_Z (Layout.node_y DagLayout_default (Z.to_nat 479350)) = Some 67109000%Z ∧
  F32.to_Z (Layout.node_y DagLayout_default (Z.to_nat 479351)) = Some 67109136%Z.
Proof.
  split.
  { apply toposort_acyclic; [apply graph_of_well_formed|]. vm_compute. eauto. }
  split; [vm_compute; left|]. split; [reflexivity|]. split; [reflexivity|].
  split.
  { eexists _, _, _. split; [vm_compute; reflexivity|].
    split; [reflexivity|]. split; [reflexivity|]. split; reflexivity. }
  unfold Layout.node_y, F32.of_usize. rewrite !Z2Nat.id by discriminate.
  split; vm_compute; reflexivity.
Qed.

(** C3, amended.  On an acyclic input every edge of the internal graph goes
    to a strictly greater layer.  With distinct node identifiers and the
    default [layer_spacing] of 140, the [y] of a node is 140 times its
    layer, so the [y] of the target exceeds the [y] of the source by at
    least 140; the products are exact in single precision as long as 140
    times the number of nodes is below [2 ^ 24]. *)
Theorem layering_respects_edges (seed : list nat) (workflow : Workflow) (u v : nat) :
  ¬ cyclic (graph_of workflow) →
  (u, v) ∈ Graph.edges (graph_of workflow) →
  ∃ lu lv,
    layers_of workflow !! u = Some lu ∧ layers_of workflow !! v = Some lv ∧
    lu < lv ∧
    (NoDup (id <$> nodes workflow) →
     (140 * Z.of_nat (length (nodes workflow)) < 2 ^ 24)%Z →
     ∃ workflow' nu nv,
       Layout.apply seed DagLayout_default workflow = Some workflow' ∧
       nodes workflow' !! u = Some nu ∧ nodes workflow' !! v = Some nv ∧
       F32.to_Z (y nu) = Some (140 * Z.of_nat lu)%Z ∧
       F32.to_Z (y nv) = Some (140 * Z.of_nat lv)%Z ∧
       (140 * Z.of_nat lu + 140 ≤ 140 * Z.of_nat lv)%Z).
Proof.
  intros Hac He. destruct (layers_of_edge workflow u v Hac He) as (lu & lv & Hu & Hv & Hlt).
  exists lu, lv. split_and!; [done..|]. intros Hnd Hsize.
  destruct (apply_coordinates seed DagLayout_default workflow Hac Hnd)
    as (workflow' & nbl & Happ & _ & Hlay & Hxy).
  destruct (layered_cover _ _ _ _ Hlay Hu) as (msu & iu & HLu & Hiu).
  destruct (layered_cover _ _ _ _ Hlay Hv) as (msv & iv & HLv & Hiv).
  destruct (Hxy _ _ _ _ HLu Hiu) as (nu & _ & Hnu).
  destruct (Hxy _ _ _ _ HLv Hiv) as (nv & _ & Hnv).
  pose proof (layers_of_bound _ _ _ Hu). pose proof (layers_of_bound _ _ _ Hv).
  eexists workflow', _, _. split_and!; [done..| | |lia]; cbn [y];
    rewrite node_y_default, to_Z_of_Z by lia; done.
Qed.

Lemma layering_respects_edges_witness :
  ¬ cyclic (graph_of chain) ∧ (0, 1) ∈ Graph.edges (graph_of chain) ∧
  NoDup (id <$> nodes chain) ∧ (140 * Z.of_nat (length (nodes chain)) < 2 ^ 24)%Z ∧
  ∃ workflow' nu nv,
    Layout.apply [] DagLayout_default chain = Some workflow' ∧
    nodes workflow' !! 0 = Some nu ∧ nodes workflow' !! 1 = Some nv ∧
    F32.to_Z (y nu) = Some 0%Z ∧ F32.to_Z (y nv) = Some 140%Z.
Proof.
  assert (¬ cyclic (graph_of chain)) as Hac.
  { apply toposort_acyclic; [apply graph_of_well_formed|]. vm_compute. eauto. }
  assert ((0, 1) ∈ Graph.edges (graph_of chain)) as He by (vm_compute; left).
  assert (NoDup (id <$> nodes chain)) as Hnd
    by (apply (bool_decide_unpack _); vm_compute; exact I).
  assert (140 * Z.of_nat (length (nodes chain)) < 2 ^ 24)%Z as Hsize by reflexivity.
  split_and!; [done..|].
  destruct (layering_respects_edges [] chain 0 1 Hac He)
    as (lu & lv & Hu & Hv & _ & Hy).
  vm_compute in Hu, Hv. injection Hu as <-. injection Hv as <-.
  destruct (Hy Hnd Hsize) as (workflow' & nu & nv & Happ & Hnu & Hnv & Hyu & Hyv & _).
  exists workflow', nu, nv.
  exact (conj Happ (conj Hnu (conj Hnv (conj Hyu Hyv)))).
Defined.

(** C7, as stated, fails in two ways.  In [dup_root] the node at index 0
    has no incoming edge and is on layer 0, but its identifier is also that
    of the node at index 2, which is on layer 1: the write meant for that
    node lands on the first node with the identifier, and the root ends
    with [y = 140].  And with an infinite [layer_spacing] the [y] of layer 0
    is [0 * inf], which is not a number. *)
Lemma root_counterexample :
  ¬ cyclic (graph_of dup_root) ∧
  Graph.incoming (graph_of dup_root) 0 = [] ∧
  layers_of dup_root !! 0 = Some 0 ∧
  (∃ workflow' n',
     Layout.apply [] DagLayout_default dup_root = Some workflow' ∧
     nodes workflow' !! 0 = Some n' ∧ F32.to_Z (y n') = Some 140%Z) ∧
  ¬ cyclic (graph_of one_node) ∧
  Graph.incoming (graph_of one_node) 0 = [] ∧
  ∃ workflow' n',
    Layout.apply [] DagLayout_infinite one_node = Some workflow' ∧
    nodes workflow' !! 0 = Some n' ∧ F32.is_nan (y n') = true.
Proof.
  split.
  { apply toposort_acyclic; [apply graph_of_well_formed|]. vm_compute. eauto. }
  split; [reflexivity|]. split; [reflexivity|]. split.
  { eexists _, _. split; [vm_compute; reflexivity|]. split; reflexivity. }
  split.
  { apply toposort_acyclic; [apply graph_of_well_formed|]. vm_compute. eauto. }
  split; [reflexivity|].
  eexists _, _. split; [vm_compute; reflexivity|]. split; reflexivity.
Qed.

(** C7, amended.  On an acyclic input a node with no incoming edge in the
    internal graph -- a node without any edge included -- is on layer 0.
    With distinct node identifiers and a finite [layer_spacing] its [y] is
    0. *)
Theorem roots_on_layer_zero (seed : list nat) (cfg : DagLayout) (workflow : Workflow)
  (k : nat) (n : Node) :
  ¬ cyclic (graph_of workflow) →
  nodes workflow !! k = Some n →
  Graph.incoming (graph_of workflow) k = [] →
  layers_of workflow !! k = Some 0 ∧
  (NoDup (id <$> nodes workflow) → F32.is_finite (layer_spacing cfg) = true →
   ∃ workflow' n',
     Layout.apply seed cfg workflow = Some workflow' ∧
     nodes workflow' !! k = Some n' ∧ id n' = id n ∧
     F32.to_Z (y n') = Some 0%Z).
Proof.
  intros Hac Hk Hroot.
  assert (layers_of workflow !! k = Some 0) as HL.
  { apply layers_of_root; [done| |done]. by eapply lookup_lt_Some. }
  split; [done|]. intros Hnd Hfin.
  destruct (apply_coordinates seed cfg workflow Hac Hnd)
    as (workflow' & nbl & Happ & _ & Hlay & Hxy).
  destruct (layered_cover _ _ _ _ Hlay HL) as (ms & i & Hms & Hi).
  destruct (Hxy _ _ _ _ Hms Hi) as (n0 & Hn0 & Hn').
  assert (n0 = n) as -> by congruence.
  eexists workflow', _. split_and!; [done..|]. cbn [y].
  unfold Layout.node_y. change (F32.of_usize 0) with (S754_zero false).
  by destruct (layer_spacing cfg) as [[]|[]| |[] ??].
Qed.

Lemma roots_on_layer_zero_witness :
  ¬ cyclic (graph_of two_roots) ∧ nodes two_roots !! 1 = Some (node_at 2) ∧
  Graph.incoming (graph_of two_roots) 1 = [] ∧
  NoDup (id <$> nodes two_roots) ∧
  F32.is_finite (layer_spacing DagLayout_default) = true ∧
  layers_of two_roots !! 1 = Some 0 ∧
  ∃ workflow' n',
    Layout.apply [] DagLayout_default two_roots = Some workflow' ∧
    nodes workflow' !! 1 = Some n' ∧ id n' = id (node_at 2) ∧
    F32.to_Z (y n') = Some 0%Z.
Proof.
  assert (¬ cyclic (graph_of two_roots)) as Hac.
  { apply toposort_acyclic; [apply graph_of_well_formed|]. vm_compute. eauto. }
  assert (NoDup (id <$> nodes two_roots)) as Hnd
    by (apply (bool_decide_unpack _); vm_compute; exact I).
  split_and!; [exact Hac|reflexivity|reflexivity|exact Hnd|reflexivity|..];
    destruct (roots_on_layer_zero [] DagLayout_default two_roots 1 (node_at 2)
                Hac eq_refl eq_refl) as [HL Hy].
  - exact HL.
  - exact (Hy Hnd eq_refl).
Defined.

(** C6, as stated, fails.  In [twins] two nodes have the same identifier;
    the node at index 1 has a position on layer 0 of the final order, but
    the coordinates of that position are written to the node at index 0,
    which is the first with the identifier, and the node at index 1 keeps
    the [x] and [y] that it had. *)
Lemma formula_counterexample :
  ¬ cyclic (graph_of twins) ∧ nodes twins ≠ [] ∧
  ∃ workflow' nbl L ms i n',
    Layout.apply [] DagLayout_default twins = Some workflow' ∧
    final_order cmp_unwrap_or [] twins = Some nbl ∧
    nbl !! L = Some ms ∧ ms !! i = Some 1 ∧
    nodes workflow' !! 1 = Some n' ∧
    nodes twins !! 1 = Some n' ∧
    x n' ≠ Layout.node_x DagLayout_default (length ms) i ∧
    y n' ≠ Layout.node_y DagLayout_default L.
Proof.
  split.
  { apply toposort_acyclic; [apply graph_of_well_formed|]. vm_compute. eauto. }
  split; [done|].
  exists {| nodes := [ {| id := 1; x := F32.of_Z 30; y := F32.of_Z 0 |};
                       node_at 1;
                       {| id := 2; x := F32.of_Z (-120); y := F32.of_Z 140 |} ];
            connections := [edge 1 2] |}, [[1; 0]; [2]], 0, [1; 0], 0, (node_at 1).
  split; [vm_compute; reflexivity|]. split; [vm_compute; reflexivity|].
  split; [reflexivity|]. split; [reflexivity|]. split; [reflexivity|].
  split; [reflexivity|]. split; vm_compute; discriminate.
Qed.

(** C6, amended.  On an acyclic input with distinct node identifiers, every
    node has a position [i] on a layer [L] of the final order, and receives
    [x = start_x + i * (240 + node_spacing)] and [y = L * layer_spacing],
    where [start_x = - width / 2] and
    [width = k * (240 + node_spacing) - node_spacing] for the [k] nodes of
    the layer; the operations are those of single-precision arithmetic. *)
Theorem coordinate_formula (seed : list nat) (cfg : DagLayout) (workflow : Workflow) :
  ¬ cyclic (graph_of workflow) → NoDup (id <$> nodes workflow) →
  ∃ workflow' nbl,
    Layout.apply seed cfg workflow = Some workflow' ∧
    final_order cmp_unwrap_or seed workflow = Some nbl ∧
    (∀ k, k < length (nodes workflow) →
          ∃ L ms i, nbl !! L = Some ms ∧ ms !! i = Some k) ∧
    ∀ L ms i k, nbl !! L = Some ms → ms !! i = Some k →
      let stride := F32.add (F32.of_Z 240) (node_spacing cfg) in
      let width :=
        F32.sub (F32.mul (F32.of_usize (length ms)) stride) (node_spacing cfg) in
      let start_x := F32.div (F32.neg width) F32.two in
      ∃ n, nodes workflow !! k = Some n ∧
           nodes workflow' !! k
           = Some {| id := id n;
                     x := F32.add start_x (F32.mul (F32.of_usize i) stride);
                     y := F32.mul (F32.of_usize L) (layer_spacing cfg) |}.
Proof.
  intros Hac Hnd.
  destruct (apply_coordinates seed cfg workflow Hac Hnd)
    as (workflow' & nbl & Happ & Hfin & Hlay & Hxy).
  exists workflow', nbl. split_and!; [done..| |].
  - intros k Hk. destruct (layers_of_spec workflow Hac) as [Hdom _].
    destruct (proj2 (Hdom k) Hk) as [L HL].
    destruct (layered_cover _ _ _ _ Hlay HL) as (ms & i & ? & ?). eauto.
  - intros L ms i k HL Hi. apply (Hxy L ms i k HL Hi).
Qed.

Lemma coordinate_formula_witness :
  ¬ cyclic (graph_of diamond) ∧ NoDup (id <$> nodes diamond) ∧
  ∃ workflow' nbl,
    Layout.apply [] DagLayout_default diamond = Some workflow' ∧
    final_order cmp_unwrap_or [] diamond = Some nbl.
Proof.
  assert (¬ cyclic (graph_of diamond)) as Hac.
  { apply toposort_acyclic; [apply graph_of_well_formed|]. vm_compute. eauto. }
  assert (NoDup (id <$> nodes diamond)) as Hnd
    by (apply (bool_decide_unpack _); vm_compute; exact I).
  split; [exact Hac|]. split; [exact Hnd|].
  destruct (coordinate_formula [] DagLayout_default diamond Hac Hnd)
    as (workflow' & nbl & Happ & Hfin & _).
  exists workflow', nbl. exact (conj Happ Hfin).
Defined.

(** ** Horizontal centering *)

(** C4, as stated, fails: the only node of a one-node workflow gets
    [x = -120], which is both the least and the greatest [x] of its layer,
    and [-120] is not [- (-120)]. *)
Lemma centering_counterexample :
  ¬ cyclic (graph_of one_node) ∧ nodes one_node ≠ [] ∧
  ∃ workflow' nbl,
    Layout.apply [] DagLayout_default one_node = Some workflow' ∧
    final_order cmp_unwrap_or [] one_node = Some nbl ∧
    nbl !! 0 = Some [0] ∧
    ¬ ∃ lo hi, x_extent workflow' [0] lo hi ∧ lo = (- hi)%Z.
Proof.
  split.
  { apply toposort_acyclic; [apply graph_of_well_formed|]. vm_compute. eauto. }
  split; [done|].
  eexists _, _. split; [vm_compute; reflexivity|].
  split; [vm_compute; reflexivity|]. split; [reflexivity|].
  intros (lo & hi & ((v & Hv & Hlo) & (w & Hw & Hhi) & _) & Heq).
  apply list_elem_of_singleton in Hv as ->.
  apply list_elem_of_singleton in Hw as ->.
  vm_compute in Hlo, Hhi. injection Hlo as <-. injection Hhi as <-. done.
Qed.

Lemma NoDup_length_bound (ms : list nat) (n : nat) :
  NoDup ms → (∀ v, v ∈ ms → v < n) → length ms ≤ n.
Proof.
  intros Hnd Hlt. rewrite <-(length_seq n 0). apply submseteq_length.
  apply NoDup_submseteq; [done|]. intros v Hv. apply elem_of_seq.
  specialize (Hlt v Hv). lia.
Qed.

(** C4, amended.  On an acyclic input with distinct node identifiers and the
    default configuration, the least [x] of a layer is the [x] of its first
    node, the greatest is the [x] of its last node, and
    [least = - (greatest + 240)]: the span from the left edge of the first
    node to the right edge of the last one, nodes being 240 wide, is
    centred on 0.  The arithmetic is exact as long as 300 times the number
    of nodes is below [2 ^ 24]. *)
Theorem layer_extent_centred (seed : list nat) (workflow : Workflow) :
  ¬ cyclic (graph_of workflow) → NoDup (id <$> nodes workflow) →
  (300 * Z.of_nat (length (nodes workflow)) < 2 ^ 24)%Z →
  ∃ workflow' nbl,
    Layout.apply seed DagLayout_default workflow = Some workflow' ∧
    final_order cmp_unwrap_or seed workflow = Some nbl ∧
    ∀ L ms, nbl !! L = Some ms → ms ≠ [] →
      ∃ lo hi, x_extent workflow' ms lo hi ∧ lo = (- (hi + 240))%Z ∧
               (∀ v, ms !! 0 = Some v → x_value workflow' v = Some lo) ∧
               (∀ v, last ms = Some v → x_value workflow' v = Some hi).
Proof.
  intros Hac Hnd Hsize.
  destruct (apply_coordinates seed DagLayout_default workflow Hac Hnd)
    as (workflow' & nbl & Happ & Hfin & Hlay & Hxy).
  exists workflow', nbl. split_and!; [done..|]. intros L ms HL Hne.
  destruct (layers_of_spec workflow Hac) as [Hdom _].
  assert (length ms ≤ length (nodes workflow)) as Hlen.
  { apply NoDup_length_bound.
    - rewrite <-(layer_at_lookup _ _ _ HL). apply Hlay.
    - intros v (i & Hi)%list_elem_of_lookup_1. apply Hdom.
      rewrite (layered_lookup _ _ _ _ _ _ Hlay HL Hi). eauto. }
  assert (∀ i v, ms !! i = Some v →
            x_value workflow' v
            = Some (30 - 150 * Z.of_nat (length ms) + 300 * Z.of_nat i)%Z) as Hx.
  { intros i v Hi. destruct (Hxy _ _ _ _ HL Hi) as (n & _ & Hn').
    unfold x_value. rewrite Hn'. cbn [mbind option_bind x].
    pose proof (lookup_lt_Some _ _ _ Hi).
    rewrite node_x_default, to_Z_of_Z by lia. done. }
  assert (0 < length ms) as Hpos by (destruct ms; [done|simpl; lia]).
  exists (30 - 150 * Z.of_nat (length ms))%Z, (150 * Z.of_nat (length ms) - 270)%Z.
  split_and!.
  - split_and!.
    + destruct (lookup_lt_is_Some_2 ms 0 Hpos) as [v Hv]. exists v.
      split; [by eapply list_elem_of_lookup_2|]. rewrite (Hx 0 v Hv). f_equal. lia.
    + destruct (lookup_lt_is_Some_2 ms (length ms - 1)) as [v Hv]; [lia|].
      exists v. split; [by eapply list_elem_of_lookup_2|].
      rewrite (Hx _ v Hv). f_equal. lia.
    + intros v (i & Hi)%list_elem_of_lookup_1. eexists. split; [by apply (Hx i)|].
      pose proof (lookup_lt_Some _ _ _ Hi). lia.
  - lia.
  - intros v Hv. rewrite (Hx 0 v Hv). f_equal. lia.
  - intros v Hv. rewrite last_lookup in Hv. rewrite (Hx _ v Hv). f_equal. lia.
Qed.

Lemma layer_extent_centred_witness :
  ¬ cyclic (graph_of diamond) ∧ NoDup (id <$> nodes diamond) ∧
  (300 * Z.of_nat (length (nodes diamond)) < 2 ^ 24)%Z ∧
  ∃ workflow' nbl,
    Layout.apply [] DagLayout_default diamond = Some workflow' ∧
    final_order cmp_unwrap_or [] diamond = Some nbl.
Proof.
  assert (¬ cyclic (graph_of diamond)) as Hac.
  { apply toposort_acyclic; [apply graph_of_well_formed|]. vm_compute. eauto. }
  assert (NoDup (id <$> nodes diamond)) as Hnd
    by (apply (bool_decide_unpack _); vm_compute; exact I).
  assert (300 * Z.of_nat (length (nodes diamond)) < 2 ^ 24)%Z as Hsize by reflexivity.
  split; [exact Hac|]. split; [exact Hnd|]. split; [exact Hsize|].
  destruct (layer_extent_centred [] diamond Hac Hnd Hsize)
    as (workflow' & nbl & Happ & Hfin & _).
  exists workflow', nbl. exact (conj Happ Hfin).
Defined.

(** No layer has more members than the workflow has nodes. *)
Lemma layered_bounded (workflow : Workflow) (nbl : list (list nat)) :
  layered (layers_of workflow) nbl →
  Forall (λ ms : list nat, length ms ≤ length (nodes workflow)) nbl.
Proof.
  intros Hlay. apply Forall_lookup. intros L ms HL.
  apply NoDup_length_bound.
  - rewrite <-(layer_at_lookup _ _ _ HL). apply Hlay.
  - intros v (j & Hj)%list_elem_of_lookup_1.
    by eapply layers_of_defined, layered_lookup.
Qed.

(** ** The four passes *)
Section Passes.
Lemma resorted_ext (key key' : nat → f32) (layer layer' : list nat) :
  (∀ n, key n = key' n) →
  Spec.resorted key layer layer' → Spec.resorted key' layer layer'.
Proof.
  intros Hk (Hp & Hasc & Hties). split_and!; [done| |].
  - eapply Sorted_weaken; [|exact Hasc]. intros a b. cbv beta. by rewrite !Hk.
  - intros c. specialize (Hties c).
    erewrite (list_filter_iff _ (λ n, F32.partial_cmp (key n) c = Some Eq) layer'),
             (list_filter_iff _ (λ n, F32.partial_cmp (key n) c = Some Eq) layer);
      [done|intros n; by rewrite Hk..].
Qed.

Lemma incoming_length (workflow : Workflow) (v : nat) :
  length (Graph.incoming (graph_of workflow) v) ≤ length (connections workflow).
Proof.
  unfold Graph.incoming, graph_of.
  destruct (Layout.build workflow) as [[g im] rm] eqn:Hb.
  apply build_spec in Hb as (_ & He & _). simpl. rewrite He.
  rewrite length_fmap. etrans; [apply length_filter|].
  rewrite length_reverse. clear He.
  induction (connections workflow) as [|c cs IH]; [done|].
  cbn [omap list_omap]. fold (omap (resolve im) cs).
  destruct (resolve im c); cbn [length]; lia.
Qed.

Lemma SFleb_trans (a b c : f32) :
  SFleb a b = true → SFleb b c = true → SFleb a c = true.
Proof.
  unfold SFleb.
  destruct a as [[]|[]| |[] ma ea], b as [[]|[]| |[] mb eb],
           c as [[]|[]| |[] mc ec]; simpl; try done;
    fold (Pos.compare ma mb); fold (Pos.compare mb mc); fold (Pos.compare ma mc);
    destruct (Z.compare_spec ea eb), (Z.compare_spec eb ec), (Z.compare_spec ea ec);
    try done; try lia; subst;
    destruct (Pos.compare_spec ma mb), (Pos.compare_spec mb mc),
             (Pos.compare_spec ma mc); simpl; try done; lia.
Qed.

Lemma partial_cmp_refl (a b : f32) (c : comparison) :
  F32.partial_cmp a b = Some c → F32.partial_cmp a a = Some Eq.
Proof.
  unfold F32.partial_cmp. destruct a as [[]|[]| |[] ma ea]; simpl; try done;
    intros _; by rewrite Z.compare_refl, Pos.compare_cont_refl.
Qed.

Lemma partial_cmp_flip_Lt (a b : f32) :
  F32.partial_cmp a b = Some Lt → F32.partial_cmp b a = Some Gt.
Proof.
  unfold F32.partial_cmp.
  destruct a as [[]|[]| |[] ma ea], b as [[]|[]| |[] mb eb]; simpl; try done;
    fold (Pos.compare ma mb); fold (Pos.compare mb ma);
    destruct (Z.compare_spec ea eb), (Z.compare_spec eb ea); try done; try lia;
    destruct (Pos.compare_spec ma mb), (Pos.compare_spec mb ma); simpl;
    try done; lia.
Qed.

Lemma SFleb_antisym (a b : f32) :
  SFleb a b = true → SFleb b a = true → F32.partial_cmp a b = Some Eq.
Proof.
  unfold SFleb. fold (F32.partial_cmp a b). fold (F32.partial_cmp b a).
  destruct (F32.partial_cmp a b) as [[]|] eqn:Hab; try done.
  apply partial_cmp_flip_Lt in Hab. by rewrite Hab.
Qed.

(** A permutation that is ascending and keeps the ties in order is the
    only one: the words of the specification determine the result of the
    sort. *)
Lemma stable_sorted_unique (key : nat → f32) (l1 l2 : list nat) :
  l1 ≡ₚ l2 → Spec.ascending key l1 → Spec.ascending key l2 →
  (∀ c : f32, filter (λ n, F32.partial_cmp (key n) c = Some Eq) l1
              = filter (λ n, F32.partial_cmp (key n) c = Some Eq) l2) →
  l1 = l2.
Proof.
  assert (Transitive (λ a b, SFleb (key a) (key b) = true)) as Htrans.
  { intros a b c. apply SFleb_trans. }
  revert l2. induction l1 as [|a l1 IH]; intros l2 Hp Hs1 Hs2 Hf.
  - by apply Permutation_nil_l in Hp.
  - destruct l2 as [|b l2]; [by apply Permutation_nil_r in Hp|].
    apply Sorted_StronglySorted in Hs1 as Hss1; [|done].
    apply Sorted_StronglySorted in Hs2 as Hss2; [|done].
    apply StronglySorted_inv in Hss1 as [Hss1 Ha].
    apply StronglySorted_inv in Hss2 as [Hss2 Hb].
    rewrite Forall_forall in Ha, Hb.
    assert (a = b) as <-.
    { destruct (decide (a = b)) as [|Hne]; [done|].
      assert (b ∈ l1) as Hbl1.
      { assert (b ∈ a :: l1) as [?|?]%elem_of_cons by (rewrite Hp; by left);
          [by subst|done]. }
      assert (a ∈ l2) as Hal2.
      { assert (a ∈ b :: l2) as [?|?]%elem_of_cons by (rewrite <-Hp; by left);
          [by subst|done]. }
      pose proof (SFleb_antisym _ _ (Ha b Hbl1) (Hb a Hal2)) as Heq.
      specialize (Hf (key b)). rewrite !filter_cons in Hf.
      rewrite decide_True in Hf by done.
      rewrite (decide_True (P:=F32.partial_cmp (key b) (key b) = Some Eq)) in Hf.
      - by injection Hf.
      - apply partial_cmp_Eq_sym in Heq. by eapply partial_cmp_refl. }
    f_equal. apply IH.
    + by apply (inj (cons a)).
    + by apply Sorted_inv in Hs1 as [? _].
    + by apply Sorted_inv in Hs2 as [? _].
    + intros c. specialize (Hf c). rewrite !filter_cons in Hf.
      destruct (decide (F32.partial_cmp (key a) c = Some Eq)); [|done].
      by injection Hf.
Qed.

Lemma resorted_unique (key : nat → f32) (layer l1 l2 : list nat) :
  Spec.resorted key layer l1 → Spec.resorted key layer l2 → l1 = l2.
Proof.
  intros (Hp1 & Hs1 & Ht1) (Hp2 & Hs2 & Ht2).
  apply (stable_sorted_unique key); [by rewrite Hp1, Hp2|done..|].
  intros c. by rewrite Ht1, Ht2.
Qed.

Lemma swept_unique (bary : list nat → nat → f32) prev rest rest1 rest2 :
  Spec.swept bary prev rest rest1 → Spec.swept bary prev rest rest2 → rest1 = rest2.
Proof.
  intros H1. revert rest2.
  induction H1 as [|prev layer layer' rest rest' Hres _ IH]; intros rest2 H2.
  - by inversion H2.
  - inversion H2 as [|? ? layer'' ? rest'' Hres' Hsw']; subst.
    assert (layer'' = layer') as -> by (by eapply resorted_unique).
    f_equal. by apply IH.
Qed.

Lemma pass_unique (bary : list nat → nat → f32) nbl nbl1 nbl2 :
  Spec.pass bary nbl nbl1 → Spec.pass bary nbl nbl2 → nbl1 = nbl2.
Proof.
  destruct nbl as [|l0 rest], nbl1 as [|l1 rest1], nbl2 as [|l2 rest2];
    simpl; try done.
  intros [-> H1] [-> H2]. f_equal. by eapply swept_unique.
Qed.
End Passes.

(** ** The barycenter as an average *)
Section Average.
Local Open Scope Z_scope.

Lemma position_index_of (layer : list nat) (u : nat) :
  Layout.position layer u = Spec.index_of layer u.
Proof.
  unfold Layout.position. induction layer as [|a layer IH]; [done|].
  cbn [list_find Spec.index_of]. destruct (decide (a = u)); [done|].
  rewrite <-IH. by destruct (list_find _ layer) as [[]|].
Qed.

(** The loop meets the positions of the specification, one for each edge,
    in another order. *)
Lemma found_positions_perm (g : Graph.t) (prev : list nat) (node : nat) :
  found_positions g prev node ≡ₚ Spec.edge_positions g prev node.
Proof.
  unfold found_positions, Spec.edge_positions, Graph.incoming.
  trans (omap (Layout.position prev)
              (filter (λ e, e.2 = node) (Graph.edges g)).*1).
  { apply omap_Permutation, fmap_Permutation, filter_Permutation,
      reverse_Permutation. }
  induction (Graph.edges g) as [|e es IH]; [done|].
  rewrite filter_cons. cbn [omap list_omap].
  destruct (decide (e.2 = node)).
  - cbn [fmap list_fmap omap list_omap]. rewrite position_index_of.
    destruct (Spec.index_of prev e.1); [by constructor|done].
  - done.
Qed.

Lemma average_perm (ps1 ps2 : list nat) :
  ps1 ≡ₚ ps2 → Spec.average ps1 = Spec.average ps2.
Proof.
  intros Hp. unfold Spec.average.
  destruct ps1 as [|p1 ps1], ps2 as [|p2 ps2]; [done| | |].
  - by apply Permutation_nil_cons in Hp.
  - symmetry in Hp. by apply Permutation_nil_cons in Hp.
  - assert (sum_list (p1 :: ps1) = sum_list (p2 :: ps2)) as -> by (by rewrite Hp).
    by rewrite (Permutation_length Hp).
Qed.

(** What the code computes is the average over the incoming edges, as long
    as its sum and its counter are exact. *)
Lemma barycenter_exact (g : Graph.t) (prev : list nat) (node : nat) :
  Z.of_nat (length prev) * Z.of_nat (length (Graph.incoming g node)) < 2 ^ 24 →
  Layout.barycenter g prev node = Spec.edge_barycenter g prev node.
Proof.
  intros Hb. unfold Spec.edge_barycenter.
  rewrite <-(average_perm _ _ (found_positions_perm g prev node)).
  rewrite barycenter_unfold. cbv zeta.
  pose proof (found_positions_length g prev node) as Hlen.
  assert (∀ p, p ∈ found_positions g prev node → (p < length prev)%nat) as Hlt.
  { intros p (q & _ & Hq)%list_elem_of_omap. by eapply position_lt. }
  destruct (found_positions g prev node) as [|p ps] eqn:Hps; [done|].
  assert (p < length prev)%nat as Hp by (apply Hlt; by left).
  assert (Z.of_nat (length prev) * Z.of_nat (length (p :: ps))
          ≤ Z.of_nat (length prev) * Z.of_nat (length (Graph.incoming g node)))
    as Hmul by (apply Z.mul_le_mono_nonneg_l; lia).
  assert (Z.of_nat (length (p :: ps)) < 2 ^ 24) as Hcount by nia.
  rewrite Z.min_l by lia.
  destruct (of_Z_positive (Z.of_nat (length (p :: ps)))) as (m & e & Hme).
  { cbn [length] in *. lia. }
  rewrite Hme. replace (F32.gt (S754_finite false m e) F32.zero) with true by done.
  rewrite <-Hme. change F32.zero with (F32.of_Z 0).
  rewrite (sum_value (p :: ps) (length prev) 0 Hlt) by lia.
  unfold Spec.average, F32.of_usize. by rewrite Z.add_0_l.
Qed.
End Average.

Section PassesOn.
Context (bary bary' : list nat → nat → f32) (P : list nat → Prop).
Hypothesis HP : ∀ l l', l' ≡ₚ l → P l → P l'.
Hypothesis Hbary : ∀ prev n, P prev → bary prev n = bary' prev n.

Lemma swept_ext_on prev rest rest' :
  P prev → Forall P rest →
  Spec.swept bary prev rest rest' → Spec.swept bary' prev rest rest'.
Proof.
  intros Hprev Hrest Hsw. revert Hprev Hrest.
  induction Hsw as [|prev layer layer' rest rest' Hres _ IH]; intros Hprev Hrest;
    constructor.
  - eapply resorted_ext; [|done]. intros n. by apply Hbary.
  - apply Forall_cons in Hrest as [Hlayer Hrest]. apply IH; [|done].
    destruct Hres as [Hp _]. by eapply HP.
Qed.

Lemma pass_ext_on nbl nbl' :
  Forall P nbl → Spec.pass bary nbl nbl' → Spec.pass bary' nbl nbl'.
Proof.
  destruct nbl as [|l0 rest], nbl' as [|l0' rest']; simpl; try done.
  intros [Hl0 Hrest]%Forall_cons [-> Hsw]. split; [done|].
  by apply swept_ext_on.
Qed.

Lemma pass_on nbl nbl' :
  Forall P nbl → Spec.pass bary nbl nbl' → Forall P nbl'.
Proof.
  intros Hb Hp%pass_perm. induction Hp as [|l' l nbl' nbl Hl _ IH]; [done|].
  apply Forall_cons in Hb as [Hlb Hb]. constructor; [|by apply IH].
  by eapply HP.
Qed.
End PassesOn.

(** ** Predecessors and edges *)
Section Predecessors.

Lemma index_of_lookup (layer : list nat) (u i : nat) :
  Spec.index_of layer u = Some i → layer !! i = Some u.
Proof.
  revert i. induction layer as [|a layer IH]; intros i; [done|].
  cbn [Spec.index_of]. destruct (decide (a = u)) as [->|Hne].
  - by intros [= <-].
  - destruct (Spec.index_of layer u) as [j|]; [|done].
    intros [= <-]. by apply IH.
Qed.

Lemma lookup_index_of (layer : list nat) (u i : nat) :
  NoDup layer → layer !! i = Some u → Spec.index_of layer u = Some i.
Proof.
  revert i. induction layer as [|a layer IH]; intros i Hnd Hi; [done|].
  apply NoDup_cons in Hnd as [Ha Hnd]. cbn [Spec.index_of].
  destruct i as [|i]; simpl in Hi.
  - injection Hi as ->. by rewrite decide_True.
  - rewrite decide_False.
    + by rewrite (IH i Hnd Hi).
    + intros ->. apply Ha. by eapply list_elem_of_lookup_2.
Qed.

Lemma imap_pair_fst {A} (l : list A) (k : nat) :
  (imap (λ i a, (k + i, a)) l).*1 = seq k (length l).
Proof.
  revert k. induction l as [|a l IH]; intros k; [done|].
  cbn [imap fmap list_fmap length seq]. rewrite Nat.add_0_r. f_equal.
  rewrite <-(IH (S k)). f_equal. apply imap_ext. intros i b _. cbn. f_equal. lia.
Qed.

(** Without parallel edges, counting by edge is counting by predecessor. *)
Lemma edge_positions_parent (g : Graph.t) (prev : list nat) (node : nat) :
  NoDup (Graph.edges g) → NoDup prev →
  Spec.edge_positions g prev node ≡ₚ Spec.parent_positions g prev node.
Proof.
  intros He Hprev. apply NoDup_Permutation.
  - unfold Spec.edge_positions.
    induction (Graph.edges g) as [|e es IH]; [constructor|].
    apply NoDup_cons in He as [Hnin Hes]. cbn [omap list_omap].
    destruct (decide (e.2 = node)) as [Hn|]; [|by apply IH].
    destruct (Spec.index_of prev e.1) as [i|] eqn:Hi; [|by apply IH].
    apply NoDup_cons. split; [|by apply IH].
    intros (e' & He' & Hf)%list_elem_of_omap.
    destruct (decide (e'.2 = node)) as [Hn'|]; [|done].
    apply index_of_lookup in Hi, Hf.
    apply Hnin. replace e with e'; [done|].
    destruct e, e'. simpl in *. congruence.
  - unfold Spec.parent_positions. apply NoDup_filter_fst.
    change (imap pair prev) with (imap (λ i a, (0 + i, a)) prev).
    rewrite imap_pair_fst. apply NoDup_seq.
  - intros i. unfold Spec.edge_positions, Spec.parent_positions.
    rewrite list_elem_of_omap, list_elem_of_fmap. split.
    + intros ([u v] & Hin & Hf). cbn [fst snd] in Hf.
      destruct (decide (v = node)) as [->|]; [|done].
      apply index_of_lookup in Hf. exists (i, u). split; [done|].
      apply list_elem_of_filter. split; [done|]. apply elem_of_imap. eauto.
    + intros ([j u] & -> & [Hin Him]%list_elem_of_filter). cbn [fst snd] in *.
      apply elem_of_imap in Him as (k & a & Hk & [= -> ->]).
      exists (a, node). split; [done|]. cbn [fst snd].
      rewrite decide_True by done. by apply lookup_index_of.
Qed.

(** Connections that differ resolve to edges that differ. *)
Lemma graph_of_edges_NoDup (workflow : Workflow) :
  NoDup (connections workflow) → NoDup (Graph.edges (graph_of workflow)).
Proof.
  unfold graph_of. destruct (Layout.build workflow) as [[g im] rm] eqn:Hb.
  apply build_spec in Hb as (_ & He & _ & Him). cbn [fst]. rewrite He. clear He.
  induction (connections workflow) as [|c cs IH]; intros Hnd; [constructor|].
  apply NoDup_cons in Hnd as [Hc Hnd]. cbn [omap list_omap].
  destruct (resolve im c) as [e|] eqn:Hr; [|by apply IH].
  apply NoDup_cons. split; [|by apply IH].
  intros (c' & Hc' & Hr')%list_elem_of_omap.
  apply Hc. replace c with c'; [done|].
  unfold resolve in Hr, Hr'.
  destruct (im !! source c) as [u|] eqn:Hu; [|done].
  destruct (im !! target c) as [v|] eqn:Hv; [|done].
  destruct (im !! source c') as [u'|] eqn:Hu'; [|done].
  destruct (im !! target c') as [v'|] eqn:Hv'; [|done].
  injection Hr as <-. injection Hr' as [= -> ->].
  apply Him in Hu as [Hu _], Hu' as [Hu' _], Hv as [Hv _], Hv' as [Hv' _].
  destruct c, c'. simpl in *. congruence.
Qed.
End Predecessors.

(** ** Large fans *)
Section Fan.
Local Open Scope Z_scope.

Lemma omap_replicate {A C} (f : A → option C) (n : nat) (a : A) :
  omap f (replicate n a)
  = match f a with Some c => replicate n c | None => [] end.
Proof.
  induction n as [|n IH]; [by destruct (f a)|].
  cbn [replicate omap list_omap]. fold (omap f (replicate n a)).
  rewrite IH. by destruct (f a).
Qed.

Lemma filter_replicate {A} (P : A → Prop) `{∀ a, Decision (P a)} (n : nat) (a : A) :
  filter P (replicate n a) = if decide (P a) then replicate n a else [].
Proof.
  induction n as [|n IH]; [by destruct (decide (P a))|].
  cbn [replicate]. rewrite filter_cons, IH. by destruct (decide (P a)).
Qed.

Lemma fan_edges (N : nat) :
  Graph.edges (graph_of (fan N)) = replicate N (0, 2)%nat ++ replicate N (1, 2)%nat.
Proof.
  unfold graph_of, Layout.build, fan. cbn [nodes connections].
  set (r := Layout.add_nodes _). vm_compute in r. subst r. cbn [fst].
  rewrite (proj2 (add_edges_spec _ _ _)). cbn [Graph.edges app].
  by rewrite omap_app, !omap_replicate.
Qed.

Lemma fan_incoming (N : nat) :
  Graph.incoming (graph_of (fan N)) 2 = replicate N 1%nat ++ replicate N 0%nat.
Proof.
  unfold Graph.incoming. rewrite fan_edges.
  rewrite reverse_app, !reverse_replicate, filter_app, !filter_replicate.
  cbn [snd]. rewrite !decide_True by done.
  by rewrite fmap_app, !fmap_replicate.
Qed.

(** Adding 1 is exact up to [2 ^ 24], and adding 0 changes nothing. *)
Lemma sum_ones (k : nat) (S0 : Z) :
  0 ≤ S0 → S0 + Z.of_nat k ≤ 2 ^ 24 →
  foldl (λ sum pos, F32.add sum (F32.of_usize pos)) (F32.of_Z S0) (replicate k 1%nat)
  = F32.of_Z (S0 + Z.of_nat k).
Proof.
  revert S0. induction k as [|k IH]; intros S0 H0 Hk.
  - simpl. f_equal. lia.
  - cbn [replicate foldl]. unfold F32.of_usize at 2.
    rewrite add_of_Z by lia. rewrite IH by lia. f_equal. lia.
Qed.

Lemma sum_zeros (k : nat) (S0 : Z) :
  0 ≤ S0 ≤ 2 ^ 24 →
  foldl (λ sum pos, F32.add sum (F32.of_usize pos)) (F32.of_Z S0) (replicate k 0%nat)
  = F32.of_Z S0.
Proof.
  intros HS0. induction k as [|k IH]; [done|].
  cbn [replicate foldl]. unfold F32.of_usize at 2.
  destruct (decide (S0 = 2 ^ 24)) as [->|Hne]; [exact IH|].
  rewrite add_of_Z by lia. by rewrite Z.add_0_r.
Qed.

(** With [2 ^ 24] connections from each of two roots, the counter of
    [barycenter] stops at [2 ^ 24] and the result is 1, whichever root
    comes first; the average of the positions 0 and 1 is one half, counted
    by predecessor or by edge. *)
Lemma fan_barycenter (N : nat) (prev : list nat) :
  Z.of_nat N = 2 ^ 24 → prev = [0; 1]%nat ∨ prev = [1; 0]%nat →
  Layout.barycenter (graph_of (fan N)) prev 2 = F32.one ∧
  Spec.barycenter (graph_of (fan N)) prev 2 = F32.div F32.one F32.two ∧
  Spec.edge_barycenter (graph_of (fan N)) prev 2 = F32.div F32.one F32.two.
Proof.
  intros HN Hprev.
  assert (N ≠ 0)%nat as HN0 by lia.
  assert ((0, 2)%nat ∈ Graph.edges (graph_of (fan N))) as He0.
  { rewrite fan_edges, elem_of_app. left. by apply elem_of_replicate. }
  assert ((1, 2)%nat ∈ Graph.edges (graph_of (fan N))) as He1.
  { rewrite fan_edges, elem_of_app. right. by apply elem_of_replicate. }
  split_and!.
  - rewrite barycenter_unfold. cbv zeta. unfold found_positions.
    rewrite fan_incoming, omap_app, !omap_replicate.
    destruct Hprev as [-> | ->].
    + replace (Layout.position [0; 1]%nat 1%nat) with (Some 1%nat) by done.
      replace (Layout.position [0; 1]%nat 0%nat) with (Some 0%nat) by done.
      rewrite length_app, !length_replicate, Z.min_r by lia.
      rewrite foldl_app. change F32.zero with (F32.of_Z 0).
      rewrite sum_ones by lia. rewrite sum_zeros by lia.
      rewrite Z.add_0_l, HN. by vm_compute.
    + replace (Layout.position [1; 0]%nat 1%nat) with (Some 0%nat) by done.
      replace (Layout.position [1; 0]%nat 0%nat) with (Some 1%nat) by done.
      rewrite length_app, !length_replicate, Z.min_r by lia.
      rewrite foldl_app. change F32.zero with (F32.of_Z 0).
      rewrite sum_zeros by lia. rewrite sum_ones by lia.
      rewrite Z.add_0_l, HN. by vm_compute.
  - unfold Spec.barycenter, Spec.parent_positions.
    destruct Hprev as [-> | ->]; cbn [imap]; rewrite !filter_cons;
      cbn [snd]; rewrite !decide_True by done; by vm_compute.
  - unfold Spec.edge_barycenter, Spec.edge_positions.
    rewrite fan_edges, omap_app, !omap_replicate. cbn [fst snd].
    rewrite !decide_True by done.
    assert (∃ a b, Spec.index_of prev 0%nat = Some a ∧
                   Spec.index_of prev 1%nat = Some b ∧ (a + b = 1)%nat)
      as (a & b & -> & -> & Hab).
    { destruct Hprev as [-> | ->]; [by exists 0%nat, 1%nat|by exists 1%nat, 0%nat]. }
    assert (Z.of_nat (sum_list (replicate N a ++ replicate N b)) = 2 ^ 24) as Hsum.
    { rewrite sum_list_with_app, !sum_list_replicate. nia. }
    assert (Z.of_nat (length (replicate N a ++ replicate N b)) = 2 ^ 25) as Hlen.
    { rewrite length_app, !length_replicate. lia. }
    unfold Spec.average, F32.of_usize.
    destruct (replicate N a ++ replicate N b) as [|p ps] eqn:Hps.
    { cbn [length] in Hlen. lia. }
    rewrite Hsum, Hlen. by vm_compute.
Qed.
End Fan.

(** C5, as stated, fails in two ways.  A predecessor that is joined to a
    node by two connections counts twice in the barycenter that the code
    computes: in [weighted] the final order of layer 1 is not ascending in
    the average of the positions of the predecessors.  And the counter is
    a single-precision float, which stops counting at [2 ^ 24]: in a fan of
    [2 ^ 25] connections the code computes 1 where the average is one
    half, however the predecessors are counted. *)
Lemma barycenter_counterexample :
  (∃ prev ms,
     final_order cmp_unwrap_or [] weighted = Some [prev; ms] ∧
     ¬ Spec.ascending (Spec.barycenter (graph_of weighted) prev) ms) ∧
  (∀ prev, prev = [0; 1] ∨ prev = [1; 0] →
     Layout.barycenter (graph_of (fan (Z.to_nat (2 ^ 24)))) prev 2 = F32.one ∧
     Spec.barycenter (graph_of (fan (Z.to_nat (2 ^ 24)))) prev 2
     = F32.div F32.one F32.two ∧
     Spec.edge_barycenter (graph_of (fan (Z.to_nat (2 ^ 24)))) prev 2
     = F32.div F32.one F32.two) ∧
  F32.partial_cmp (F32.div F32.one F32.two) F32.one = Some Lt.
Proof.
  split; [|split; [|reflexivity]].
  - eexists _, _. split; [vm_compute; reflexivity|].
    intros Hasc. apply Sorted_inv in Hasc as [_ Hhd].
    apply HdRel_inv in Hhd. vm_compute in Hhd. discriminate Hhd.
  - intros prev Hprev. apply fan_barycenter; [|exact Hprev].
    apply Z2Nat.id. discriminate.
Qed.

(** C5, amended.  Crossing minimisation is exactly four passes, none of
    them conditional.  A pass keeps layer 0 and re-sorts every other layer,
    from the top down, by ascending barycenter with respect to the order
    that the pass has just given to the layer above; the sort is stable,
    and these words determine the result: no other order satisfies them.
    The barycenter of a node is the average, over the edges that enter it
    from the layer above, of the position of the source of the edge in
    that layer, and 0 when there is no such edge; when no connection is
    listed twice, that is the average of the positions of its direct
    predecessors in the layer above.  Sum and counter are exact as long as
    the number of nodes times the number of connections is below
    [2 ^ 24]. *)
Theorem four_barycenter_passes (seed : list nat) (workflow : Workflow) :
  (Z.of_nat (length (nodes workflow)) * Z.of_nat (length (connections workflow))
   < 2 ^ 24)%Z →
  ∃ nbl0 nbl1 nbl2 nbl3 nbl4,
    initial_order seed workflow = Some nbl0 ∧
    Layout.minimize_crossings cmp_unwrap_or (graph_of workflow) nbl0 = Some nbl4 ∧
    final_order cmp_unwrap_or seed workflow = Some nbl4 ∧
    Spec.pass (Spec.edge_barycenter (graph_of workflow)) nbl0 nbl1 ∧
    Spec.pass (Spec.edge_barycenter (graph_of workflow)) nbl1 nbl2 ∧
    Spec.pass (Spec.edge_barycenter (graph_of workflow)) nbl2 nbl3 ∧
    Spec.pass (Spec.edge_barycenter (graph_of workflow)) nbl3 nbl4 ∧
    (∀ m1 m2 m3 m4,
       Spec.pass (Spec.edge_barycenter (graph_of workflow)) nbl0 m1 →
       Spec.pass (Spec.edge_barycenter (graph_of workflow)) m1 m2 →
       Spec.pass (Spec.edge_barycenter (graph_of workflow)) m2 m3 →
       Spec.pass (Spec.edge_barycenter (graph_of workflow)) m3 m4 →
       m4 = nbl4) ∧
    (NoDup (connections workflow) →
     Spec.pass (Spec.barycenter (graph_of workflow)) nbl0 nbl1 ∧
     Spec.pass (Spec.barycenter (graph_of workflow)) nbl1 nbl2 ∧
     Spec.pass (Spec.barycenter (graph_of workflow)) nbl2 nbl3 ∧
     Spec.pass (Spec.barycenter (graph_of workflow)) nbl3 nbl4).
Proof.
  intros Hsize.
  destruct (initial_order_layered seed workflow) as (nbl0 & H0 & Hlay).
  destruct (minimize_crossings_passes (graph_of workflow) nbl0)
    as (nbl1 & nbl2 & nbl3 & nbl4 & Hmin & H1 & H2 & H3 & H4).
  set (P := λ l : list nat, NoDup l ∧ length l ≤ length (nodes workflow)).
  assert (∀ l l', l' ≡ₚ l → P l → P l') as HP.
  { intros l l' Hp [Hnd Hlen]. split; by rewrite Hp. }
  assert (∀ prev n, P prev →
            Layout.barycenter (graph_of workflow) prev n
            = Spec.edge_barycenter (graph_of workflow) prev n) as Hb.
  { intros prev n [_ Hprev]. apply barycenter_exact.
    pose proof (incoming_length workflow n). nia. }
  assert (Forall P nbl0) as Hb0.
  { apply Forall_lookup. intros L ms HL. split.
    - rewrite <-(layer_at_lookup _ _ _ HL). apply Hlay.
    - by apply (Forall_lookup_1 _ _ _ _ (layered_bounded _ _ Hlay) HL). }
  pose proof (pass_on _ P HP _ _ Hb0 H1) as Hb1.
  pose proof (pass_on _ P HP _ _ Hb1 H2) as Hb2.
  pose proof (pass_on _ P HP _ _ Hb2 H3) as Hb3.
  pose proof (pass_ext_on _ _ P HP Hb _ _ Hb0 H1) as S1.
  pose proof (pass_ext_on _ _ P HP Hb _ _ Hb1 H2) as S2.
  pose proof (pass_ext_on _ _ P HP Hb _ _ Hb2 H3) as S3.
  pose proof (pass_ext_on _ _ P HP Hb _ _ Hb3 H4) as S4.
  exists nbl0, nbl1, nbl2, nbl3, nbl4.
  rewrite <-minimize_crossings_unwrap_or in Hmin.
  split_and!; [done|done| |done..| |].
  - unfold final_order. rewrite H0. exact Hmin.
  - intros m1 m2 m3 m4 Hm1 Hm2 Hm3 Hm4.
    rewrite (pass_unique _ _ _ _ Hm1 S1) in Hm2.
    rewrite (pass_unique _ _ _ _ Hm2 S2) in Hm3.
    rewrite (pass_unique _ _ _ _ Hm3 S3) in Hm4.
    exact (pass_unique _ _ _ _ Hm4 S4).
  - intros Hnd%graph_of_edges_NoDup.
    assert (∀ prev n, P prev →
              Layout.barycenter (graph_of workflow) prev n
              = Spec.barycenter (graph_of workflow) prev n) as Hb'.
    { intros prev n HPprev. rewrite (Hb prev n HPprev).
      apply average_perm, edge_positions_parent; [done|apply HPprev]. }
    split_and!; eapply (pass_ext_on _ _ P HP Hb'); eauto.
Qed.

Lemma four_barycenter_passes_witness :
  ((Z.of_nat (length (nodes weighted)) * Z.of_nat (length (connections weighted))
    < 2 ^ 24)%Z ∧
   ∃ nbl0 nbl1 nbl4,
     initial_order [] weighted = Some nbl0 ∧
     final_order cmp_unwrap_or [] weighted = Some nbl4 ∧
     Spec.pass (Spec.edge_barycenter (graph_of weighted)) nbl0 nbl1) ∧
  (Z.of_nat (length (nodes diamond)) * Z.of_nat (length (connections diamond))
   < 2 ^ 24)%Z ∧
  NoDup (connections diamond) ∧
  ∃ nbl0 nbl1 nbl4,
    initial_order [] diamond = Some nbl0 ∧
    final_order cmp_unwrap_or [] diamond = Some nbl4 ∧
    Spec.pass (Spec.barycenter (graph_of diamond)) nbl0 nbl1.
Proof.
  assert (Z.of_nat (length (nodes weighted)) * Z.of_nat (length (connections weighted))
          < 2 ^ 24)%Z as Hsize by reflexivity.
  assert (Z.of_nat (length (nodes diamond)) * Z.of_nat (length (connections diamond))
          < 2 ^ 24)%Z as Hsize' by reflexivity.
  assert (NoDup (connections diamond)) as Hnd.
  { repeat (apply NoDup_cons_2;
              [rewrite ?elem_of_cons, elem_of_nil; by intuition|]).
    apply NoDup_nil_2. }
  split; [split; [exact Hsize|]|split; [exact Hsize'|split; [exact Hnd|]]].
  - destruct (four_barycenter_passes [] weighted Hsize)
      as (nbl0 & nbl1 & _ & _ & nbl4 & H0 & _ & Hfin & H1 & _).
    exists nbl0, nbl1, nbl4. exact (conj H0 (conj Hfin H1)).
  - destruct (four_barycenter_passes [] diamond Hsize')
      as (nbl0 & nbl1 & nbl2 & nbl3 & nbl4 & H0 & _ & Hfin & _ & _ & _ & _ & _ & Hlit).
    exists nbl0, nbl1, nbl4. exact (conj H0 (conj Hfin (proj1 (Hlit Hnd)))).
Defined.


(** ** Determinism *)
Section Determinism.
Context (cfg : DagLayout) (rm : gmap nat NodeId).
Implicit Types (ns : list Node) (ws : list (nat * (f32 * f32))).

Lemma const_lookup_ids {C} (c : C) ns ns' k :
  id <$> ns = id <$> ns' → (λ _, c) <$> ns !! k = (λ _, c) <$> ns' !! k.
Proof.
  intros Hids.
  assert ((λ _, c) <$> (id <$> ns) !! k = (λ _ : NodeId, c) <$> (id <$> ns') !! k)
    as H by (by rewrite Hids).
  rewrite !list_lookup_fmap in H.
  by destruct (ns !! k), (ns' !! k).
Qed.

(** After the writes of one layer, which all carry the same [y], a node
    has that [y] if some write went to it and its old [y] otherwise. *)
Lemma foldl_write1_y ns ws (c : f32) k :
  (∀ w, w ∈ ws → w.2.2 = c) →
  y <$> (foldl (write1 rm) ns ws !! k) =
    if bool_decide (Exists (λ v, rm !! v ≫= first_with ns = Some k) ws.*1)
    then (λ _, c) <$> ns !! k
    else y <$> ns !! k.
Proof.
  induction ws as [|w ws IH] using rev_ind; intros Hc.
  - done.
  - rewrite foldl_snoc, fmap_app.
    set (ns' := foldl (write1 rm) ns ws) in *.
    assert (id <$> ns' = id <$> ns) as Hids by apply foldl_write1_ids.
    specialize (IH (λ w' Hw', Hc w' (proj2 (elem_of_app _ _ _) (or_introl Hw')))).
    assert (w.2.2 = c) as Hw by (apply Hc, elem_of_app; right; by left).
    unfold write1 at 1.
    destruct (rm !! w.1) as [a|] eqn:Ha.
    + rewrite write_back_lookup, (first_with_ext ns' ns) by done.
      case_decide as Hd.
      * rewrite bool_decide_eq_true_2.
        2:{ apply Exists_app. right. constructor. simpl. by rewrite Ha. }
        rewrite <-option_fmap_compose. rewrite <-Hw.
        by apply const_lookup_ids.
      * rewrite IH. apply (f_equal (λ b : bool, if b then _ else _)).
        apply bool_decide_ext.
        rewrite Exists_app, fmap_cons, Exists_cons, fmap_nil, Exists_nil.
        rewrite Ha. simpl. tauto.
    + rewrite IH. apply (f_equal (λ b : bool, if b then _ else _)).
      apply bool_decide_ext.
      rewrite Exists_app, fmap_cons, Exists_cons, fmap_nil, Exists_nil.
      rewrite Ha. simpl. split; [tauto|]. by intros [?|[?|[]]].
Qed.

Lemma place_layer_y ns1 ns2 (L : nat) (ms1 ms2 : list nat) :
  ms1 ≡ₚ ms2 → id <$> ns1 = id <$> ns2 → y <$> ns1 = y <$> ns2 →
  id <$> Layout.place_layer cfg rm ns1 (L, ms1)
  = id <$> Layout.place_layer cfg rm ns2 (L, ms2) ∧
  y <$> Layout.place_layer cfg rm ns1 (L, ms1)
  = y <$> Layout.place_layer cfg rm ns2 (L, ms2).
Proof.
  intros Hp Hids Hys. rewrite !place_layer_writes. split.
  - by rewrite !foldl_write1_ids.
  - apply list_eq. intros k. rewrite !list_lookup_fmap.
    rewrite !(foldl_write1_y _ _ (Layout.node_y cfg L)).
    + rewrite !layer_writes_targets.
      rewrite (const_lookup_ids _ ns1 ns2) by done.
      rewrite <-!list_lookup_fmap, Hys.
      apply (f_equal (λ b : bool, if b then _ else _)).
      apply bool_decide_ext. rewrite Hp.
      assert (∀ v, rm !! v ≫= first_with ns1 = rm !! v ≫= first_with ns2) as Ht.
      { intros v. destruct (rm !! v); simpl; [by apply first_with_ext|done]. }
      rewrite !Exists_exists. split; intros (v & Hv & Hk); exists v;
        (split; [done|]); by rewrite ?Ht in *.
    + by intros w (i & v & _ & ->)%elem_of_imap.
    + by intros w (i & v & _ & ->)%elem_of_imap.
Qed.

(** The [y] coordinates do not depend on the order within the layers. *)
Lemma assign_coordinates_y (nbl1 nbl2 : list (list nat)) ns :
  Forall2 (≡ₚ) nbl1 nbl2 →
  id <$> Layout.assign_coordinates cfg rm nbl1 ns
  = id <$> Layout.assign_coordinates cfg rm nbl2 ns ∧
  y <$> Layout.assign_coordinates cfg rm nbl1 ns
  = y <$> Layout.assign_coordinates cfg rm nbl2 ns.
Proof.
  intros HF. unfold Layout.assign_coordinates.
  assert (∀ (f : nat → nat) ns1 ns2,
    id <$> ns1 = id <$> ns2 → y <$> ns1 = y <$> ns2 →
    id <$> foldl (Layout.place_layer cfg rm) ns1 (imap (λ i ms, (f i, ms)) nbl1)
    = id <$> foldl (Layout.place_layer cfg rm) ns2 (imap (λ i ms, (f i, ms)) nbl2) ∧
    y <$> foldl (Layout.place_layer cfg rm) ns1 (imap (λ i ms, (f i, ms)) nbl1)
    = y <$> foldl (Layout.place_layer cfg rm) ns2 (imap (λ i ms, (f i, ms)) nbl2))
    as Hgen.
  { induction HF as [|ms1 ms2 nbl1 nbl2 Hp HF IH]; intros f ns1 ns2 Hids Hys;
      [done|].
    rewrite !imap_cons. cbn [foldl].
    destruct (place_layer_y ns1 ns2 (f 0) ms1 ms2 Hp Hids Hys) as [Hids' Hys'].
    apply (IH (f ∘ S) _ _ Hids' Hys'). }
  apply (Hgen (λ i, i)); done.
Qed.

Lemma layered_unique (layers : gmap nat nat) (nbl1 nbl2 : list (list nat)) :
  layered layers nbl1 → layered layers nbl2 → Forall2 (≡ₚ) nbl1 nbl2.
Proof.
  intros (Hin1 & Hnd1 & Hlen1) (Hin2 & Hnd2 & Hlen2).
  apply Forall2_same_length_lookup_2.
  - destruct (Nat.lt_trichotomy (length nbl1) (length nbl2)) as [Hlt|[?|Hlt]];
      [|done|].
    + apply Hlen2, Hlen1 in Hlt. lia.
    + apply Hlen1, Hlen2 in Hlt. lia.
  - intros L ms1 ms2 H1 H2.
    apply NoDup_Permutation.
    + rewrite <-(layer_at_lookup _ _ _ H1). apply Hnd1.
    + rewrite <-(layer_at_lookup _ _ _ H2). apply Hnd2.
    + intros v. rewrite <-(layer_at_lookup _ _ _ H1), <-(layer_at_lookup _ _ _ H2).
      by rewrite Hin1, Hin2.
Qed.
End Determinism.

(** C1, as stated, fails: the [layers] map is a [HashMap], the order in
    which it is iterated decides the order of the nodes within a layer, and
    layer 0 is never re-sorted.  Two runs on the same two unconnected nodes
    that iterate the map in the two possible orders swap the [x] of the
    nodes. *)
Lemma determinism_counterexample :
  ∃ workflow1 workflow2,
    Layout.apply [] DagLayout_default two_roots = Some workflow1 ∧
    Layout.apply [1] DagLayout_default two_roots = Some workflow2 ∧
    x_value workflow1 0 = Some 30%Z ∧ x_value workflow2 0 = Some (-270)%Z ∧
    workflow1 ≠ workflow2.
Proof.
  eexists _, _. split; [vm_compute; reflexivity|].
  split; [vm_compute; reflexivity|]. split; [reflexivity|]. split; [reflexivity|].
  discriminate.
Qed.

(** C1, amended.  Two runs of [apply] on the same input return workflows
    with the same node identifiers, the same connections and the same [y]
    coordinates, whatever the order in which each run iterates the [layers]
    map.  When the two runs group the nodes of every layer in the same
    order, the four passes give the same final order and the workflows
    returned are equal, [x] coordinates included. *)
Theorem layout_determinism (seed1 seed2 : list nat) (cfg : DagLayout)
  (workflow : Workflow) :
  ∃ workflow1 workflow2,
    Layout.apply seed1 cfg workflow = Some workflow1 ∧
    Layout.apply seed2 cfg workflow = Some workflow2 ∧
    id <$> nodes workflow1 = id <$> nodes workflow2 ∧
    y <$> nodes workflow1 = y <$> nodes workflow2 ∧
    connections workflow1 = connections workflow2 ∧
    (initial_order seed1 workflow = initial_order seed2 workflow →
     final_order cmp_unwrap_or seed1 workflow = final_order cmp_unwrap_or seed2 workflow ∧
     workflow1 = workflow2).
Proof.
  unfold Layout.apply. rewrite !apply_with_unfold.
  destruct (final_order_layered seed1 workflow)
    as (? & nbl1 & _ & _ & Hfin1 & Hlay1 & _).
  destruct (final_order_layered seed2 workflow)
    as (? & nbl2 & _ & _ & Hfin2 & Hlay2 & _).
  assert (initial_order seed1 workflow = initial_order seed2 workflow → nbl1 = nbl2)
    as Hsame.
  { intros Heq. unfold final_order in Hfin1, Hfin2. rewrite Heq in Hfin1. congruence. }
  rewrite Hfin1, Hfin2.
  case_bool_decide.
  { exists workflow, workflow. split_and!; try done. intros ?%Hsame. by subst. }
  destruct (toposort (graph_of workflow)); cbn [mbind option_bind].
  - eexists _, _. split_and!; [done..| | |done|]; cbn [nodes].
    + eapply assign_coordinates_y, layered_unique; done.
    + eapply assign_coordinates_y, layered_unique; done.
    + intros ?%Hsame. by subst.
  - exists workflow, workflow. split_and!; try done. intros ?%Hsame. by subst.
Qed.

Lemma layout_determinism_witness :
  initial_order [] diamond = initial_order [0] diamond ∧
  ∃ workflow1 workflow2,
    Layout.apply [] DagLayout_default diamond = Some workflow1 ∧
    Layout.apply [0] DagLayout_default diamond = Some workflow2 ∧
    y <$> nodes workflow1 = y <$> nodes workflow2 ∧
    workflow1 = workflow2.
Proof.
  assert (initial_order [] diamond = initial_order [0] diamond) as Hinit
    by (vm_compute; reflexivity).
  split; [exact Hinit|].
  destruct (layout_determinism [] [0] DagLayout_default diamond)
    as (workflow1 & workflow2 & H1 & H2 & _ & Hy & _ & Hx).
  exists workflow1, workflow2.
  exact (conj H1 (conj H2 (conj Hy (proj2 (Hx Hinit))))).
Defined.

(** * Further properties of [DagLayout::apply] *)

(** ** The last write wins *)
Section LastWrite.
Context (rm : gmap nat NodeId).
Implicit Types (ns : list Node) (ws : list (nat * (f32 * f32))).

Lemma foldl_write1_last ns ws k :
  foldl (write1 rm) ns ws !! k =
    match last (filter (λ w, rm !! w.1 ≫= first_with ns = Some k) ws) with
    | Some w => (λ n, {| id := id n; x := w.2.1; y := w.2.2 |}) <$> ns !! k
    | None => ns !! k
    end.
Proof.
  induction ws as [|w ws IH] using rev_ind; [done|].
  rewrite foldl_snoc, filter_app, filter_cons, filter_nil.
  set (ns' := foldl (write1 rm) ns ws) in *.
  assert (∀ a, first_with ns' a = first_with ns a) as Hfw.
  { intros a. apply first_with_ext, foldl_write1_ids. }
  unfold write1 at 1. destruct (rm !! w.1) as [a|] eqn:Ha; simpl.
  - rewrite write_back_lookup, Hfw.
    destruct (decide (first_with ns a = Some k)) as [Hd|Hd].
    + rewrite last_snoc, IH.
      destruct (last _) as [w'|]; destruct (ns !! k); done.
    + by rewrite app_nil_r.
  - by rewrite app_nil_r.
Qed.

(** Writing the same coordinates a second time changes nothing. *)
Lemma foldl_write1_twice ns ws :
  foldl (write1 rm) (foldl (write1 rm) ns ws) ws = foldl (write1 rm) ns ws.
Proof.
  apply list_eq. intros k. rewrite (foldl_write1_last (foldl _ ns ws)).
  rewrite (list_filter_iff _ (λ w, rm !! w.1 ≫= first_with ns = Some k)).
  - rewrite (foldl_write1_last ns).
    destruct (last _) as [w|]; [|done]. by destruct (ns !! k).
  - intros w. destruct (rm !! w.1) as [a|]; simpl; [|done].
    by rewrite (first_with_ext _ ns) by apply foldl_write1_ids.
Qed.

(** The written coordinates do not depend on the coordinates found. *)
Lemma foldl_write1_ids_only ns1 ns2 ws k w :
  id <$> ns1 = id <$> ns2 →
  last (filter (λ w, rm !! w.1 ≫= first_with ns1 = Some k) ws) = Some w →
  foldl (write1 rm) ns1 ws !! k = foldl (write1 rm) ns2 ws !! k.
Proof.
  intros Hids Hw. rewrite !foldl_write1_last.
  rewrite (list_filter_iff (λ w, rm !! w.1 ≫= first_with ns2 = Some k)
                           (λ w, rm !! w.1 ≫= first_with ns1 = Some k)).
  - rewrite Hw.
    assert (id <$> ns1 !! k = id <$> ns2 !! k) as Hk
      by (by rewrite <-!list_lookup_fmap, Hids).
    destruct (ns1 !! k), (ns2 !! k); simplify_eq/=; congruence.
  - intros w'. destruct (rm !! w'.1) as [a|]; simpl; [|done].
    by rewrite (first_with_ext _ ns1).
Qed.
End LastWrite.

(** ** The graph depends on the identifiers only *)
Section BuildIds.
Implicit Types (ns : list Node) (workflow : Workflow).

Lemma add_nodes_ids ns1 ns2 :
  id <$> ns1 = id <$> ns2 → Layout.add_nodes ns1 = Layout.add_nodes ns2.
Proof.
  unfold Layout.add_nodes. generalize (Graph.new, (∅ : gmap NodeId nat), (∅ : gmap nat NodeId)).
  revert ns2. induction ns1 as [|n1 ns1 IH]; intros [|n2 ns2] [[g im] rm]; try done.
  rewrite !fmap_cons. intros [= Hid Hids]. simpl. rewrite Hid. by apply IH.
Qed.

Lemma build_ids workflow1 workflow2 :
  id <$> nodes workflow1 = id <$> nodes workflow2 →
  connections workflow1 = connections workflow2 →
  Layout.build workflow1 = Layout.build workflow2.
Proof.
  intros Hids Hcs. unfold Layout.build. by rewrite (add_nodes_ids _ _ Hids), Hcs.
Qed.

Lemma final_order_build cmp seed workflow1 workflow2 :
  Layout.build workflow1 = Layout.build workflow2 →
  graph_of workflow1 = graph_of workflow2 ∧
  layers_of workflow1 = layers_of workflow2 ∧
  initial_order seed workflow1 = initial_order seed workflow2 ∧
  final_order cmp seed workflow1 = final_order cmp seed workflow2.
Proof.
  intros Hb. unfold final_order, initial_order, layers_of, graph_of.
  by rewrite Hb.
Qed.
End BuildIds.

(** ** The two ways out of [apply] *)
Section Cases.
Implicit Types (workflow : Workflow) (cfg : DagLayout) (seed : list nat).

Lemma layered_empty (nbl : list (list nat)) :
  layered ∅ nbl → nbl = [].
Proof.
  intros (_ & _ & Hlen). destruct nbl as [|ms nbl]; [done|].
  destruct (proj1 (Hlen 0)) as (v & L & Hv & _); [simpl; lia|].
  by rewrite lookup_empty in Hv.
Qed.

Lemma apply_acyclic seed cfg workflow :
  ¬ cyclic (graph_of workflow) →
  ∃ nbl, final_order cmp_unwrap_or seed workflow = Some nbl ∧
         layered (layers_of workflow) nbl ∧
         Layout.apply seed cfg workflow
         = Some {| nodes := foldl (write1 (Layout.build workflow).2)
                                  (nodes workflow) (writes cfg nbl);
                   connections := connections workflow |}.
Proof.
  intros Hac.
  destruct (final_order_layered seed workflow) as (nbl0 & nbl & _ & _ & Hfin & Hlay & _).
  exists nbl. split_and!; [done..|].
  unfold Layout.apply. rewrite apply_with_unfold, Hfin. simpl.
  rewrite assign_coordinates_writes.
  apply toposort_acyclic in Hac as [sorted Hs]; [|apply graph_of_well_formed].
  rewrite Hs. case_bool_decide as Hnil; [|done].
  assert (layers_of workflow = ∅) as Hl.
  { unfold layers_of. rewrite Hs.
    apply toposort_sound in Hs as (placed & -> & _ & Hel).
    rewrite graph_of_node_count, Hnil in Hel. destruct placed as [|v ?]; [done|].
    assert (v < length (@nil Node)) by (apply Hel; by left). simpl in *. lia. }
  rewrite Hl in Hlay. apply layered_empty in Hlay as ->.
  destruct workflow as [ns cs]. simpl in *. by subst.
Qed.

Lemma apply_cases seed cfg workflow :
  (cyclic (graph_of workflow) ∧ Layout.apply seed cfg workflow = Some workflow) ∨
  (¬ cyclic (graph_of workflow)).
Proof.
  destruct (toposort (graph_of workflow)) as [sorted|] eqn:Hs.
  - right. apply toposort_acyclic; [apply graph_of_well_formed|eauto].
  - left. apply toposort_None in Hs; [|apply graph_of_well_formed].
    split; [done|]. by apply apply_with_cyclic.
Qed.
End Cases.

Section Frame.
Implicit Types (workflow : Workflow) (cfg : DagLayout) (seed : list nat).

Lemma apply_ids seed cfg workflow :
  ∃ workflow',
    Layout.apply seed cfg workflow = Some workflow' ∧
    id <$> nodes workflow' = id <$> nodes workflow ∧
    connections workflow' = connections workflow.
Proof.
  destruct (apply_cases seed cfg workflow) as [[_ Happ]|Hac].
  - by exists workflow.
  - destruct (apply_acyclic seed cfg workflow Hac) as (nbl & _ & _ & Happ).
    eexists. split; [exact Happ|]. cbn [nodes connections].
    split; [apply foldl_write1_ids|done].
Qed.

Lemma index_map_known workflow a i :
  (Layout.build workflow).1.2 !! a = Some i → a ∈ id <$> nodes workflow.
Proof.
  destruct (Layout.build workflow) as [[g im] rm] eqn:Hb. simpl.
  apply build_spec in Hb as (_ & _ & _ & Him). intros [Hi _]%Him.
  by eapply list_elem_of_lookup_2.
Qed.

Lemma build_pruned (ns : list Node) (cs : list Connection) :
  Layout.build
    {| nodes := ns;
       connections :=
         filter (λ c, source c ∈ id <$> ns ∧ target c ∈ id <$> ns) cs |}
  = Layout.build {| nodes := ns; connections := cs |}.
Proof.
  pose proof (index_map_known {| nodes := ns; connections := [] |}) as Him.
  unfold Layout.build in *. cbn [nodes connections] in *.
  destruct (Layout.add_nodes ns) as [[g im] rm]. cbn [fst snd] in Him.
  do 2 f_equal. unfold Layout.add_edges. revert g.
  induction cs as [|c cs IH]; intros g; [done|].
  rewrite filter_cons. case_decide as Hc; cbn [foldl]; [apply IH|].
  rewrite IH.
  destruct (im !! source c) as [i|] eqn:Hi, (im !! target c) as [j|] eqn:Hj;
    try done.
  destruct Hc. split; by eapply Him.
Qed.

(** The workflow that [apply] leaves behind on an acyclic input with
    distinct identifiers does not depend on the coordinates found. *)
Lemma writes_ids_only cfg (rm : gmap nat NodeId) (nbl : list (list nat))
  (layers : gmap nat nat) (ns1 ns2 : list Node) :
  id <$> ns1 = id <$> ns2 → NoDup (id <$> ns1) →
  (∀ i, rm !! i = (id <$> ns1) !! i) →
  layered layers nbl → (∀ v, is_Some (layers !! v) ↔ v < length ns1) →
  foldl (write1 rm) ns1 (writes cfg nbl) = foldl (write1 rm) ns2 (writes cfg nbl).
Proof.
  intros Hids Hnd Hrm Hlay Hdom. apply list_eq. intros k.
  assert (NoDup (writes cfg nbl).*1) as Hws
    by (rewrite writes_targets; by eapply layered_NoDup).
  assert (id <$> ns1 !! k = id <$> ns2 !! k) as Hk
    by (by rewrite <-!list_lookup_fmap, Hids).
  destruct (ns1 !! k) as [n1|] eqn:H1, (ns2 !! k) as [n2|] eqn:H2; try done.
  - injection Hk as Hk.
    destruct (proj2 (Hdom k)) as [L HL]; [by eapply lookup_lt_Some|].
    destruct (layered_cover _ _ _ _ Hlay HL) as (ms & i & Hms & Hi).
    assert ((k, (Layout.node_x cfg (length ms) i, Layout.node_y cfg L))
              ∈ writes cfg nbl) as Hin by (apply elem_of_writes; eauto 10).
    rewrite (proj1 (foldl_write1_NoDup rm ns1 _ k n1 Hnd Hrm Hws H1) _ Hin).
    rewrite Hids in Hnd, Hrm.
    rewrite (proj1 (foldl_write1_NoDup rm ns2 _ k n2 Hnd Hrm Hws H2) _ Hin).
    by rewrite Hk.
  - rewrite !lookup_ge_None_2; [done|..].
    + rewrite <-(length_fmap id), foldl_write1_ids, length_fmap.
      by apply lookup_ge_None_1.
    + rewrite <-(length_fmap id), foldl_write1_ids, length_fmap.
      by apply lookup_ge_None_1.
Qed.
End Frame.

(** X1.  [apply] only ever assigns [x] and [y]: whatever the input, the
    workflow it leaves behind has the same node identifiers at the same
    indices, hence as many nodes, and the same connections. *)
Theorem apply_keeps_structure (seed : list nat) (cfg : DagLayout)
  (workflow : Workflow) :
  ∃ workflow',
    Layout.apply seed cfg workflow = Some workflow' ∧
    id <$> nodes workflow' = id <$> nodes workflow ∧
    length (nodes workflow') = length (nodes workflow) ∧
    connections workflow' = connections workflow.
Proof.
  destruct (apply_ids seed cfg workflow) as (workflow' & Happ & Hids & Hcs).
  exists workflow'. split_and!; [done..| |done].
  by rewrite <-(length_fmap id), Hids, length_fmap.
Qed.

(** X2.  A connection one of whose endpoints is not the identifier of a
    node plays no part: the nodes come out as they do when all such
    connections are removed from the workflow first. *)
Theorem dangling_connections_ignored (seed : list nat) (cfg : DagLayout)
  (workflow : Workflow) :
  nodes <$> Layout.apply seed cfg workflow
  = nodes <$> Layout.apply seed cfg
      {| nodes := nodes workflow;
         connections :=
           filter (λ c, source c ∈ id <$> nodes workflow ∧
                        target c ∈ id <$> nodes workflow)
                  (connections workflow) |}.
Proof.
  set (pruned := {| nodes := nodes workflow; connections := filter _ _ |}).
  assert (Layout.build pruned = Layout.build workflow) as Hb.
  { destruct workflow as [ns cs]. apply build_pruned. }
  destruct (final_order_build cmp_unwrap_or seed _ _ Hb) as (Hg & _ & _ & Hf).
  unfold Layout.apply. rewrite !apply_with_unfold, Hg, Hf, Hb.
  subst pruned. cbn [nodes]. case_bool_decide; [done|].
  destruct (toposort _); [|done]. clear Hf.
  destruct (final_order cmp_unwrap_or seed workflow); reflexivity.
Qed.

(** X3.  The coordinates that the nodes have on entry are never read: two
    acyclic workflows with the same distinct identifiers and the same
    connections come out equal, wherever their nodes were before. *)
Theorem input_coordinates_ignored (seed : list nat) (cfg : DagLayout)
  (workflow1 workflow2 : Workflow) :
  id <$> nodes workflow1 = id <$> nodes workflow2 →
  connections workflow1 = connections workflow2 →
  ¬ cyclic (graph_of workflow1) → NoDup (id <$> nodes workflow1) →
  ∃ workflow',
    Layout.apply seed cfg workflow1 = Some workflow' ∧
    Layout.apply seed cfg workflow2 = Some workflow'.
Proof.
  intros Hids Hcs Hac Hnd.
  pose proof (build_ids _ _ Hids Hcs) as Hb.
  destruct (final_order_build cmp_unwrap_or seed _ _ Hb) as (Hg & Hl & _ & Hf).
  destruct (apply_acyclic seed cfg workflow1 Hac) as (nbl & Hfin & Hlay & Happ1).
  destruct (apply_acyclic seed cfg workflow2) as (nbl2 & Hfin2 & _ & Happ2);
    [by rewrite <-Hg|].
  assert (nbl2 = nbl) as -> by congruence.
  eexists. split; [exact Happ1|]. rewrite Happ2, <-Hb, <-Hcs. do 2 f_equal.
  symmetry. eapply writes_ids_only; [done..| |done|apply layers_of_spec, Hac].
  intros i. destruct (Layout.build workflow1) as [[g im] rm] eqn:Hb1.
  by apply build_spec in Hb1 as (_ & _ & Hrm & _).
Qed.

Lemma input_coordinates_ignored_witness :
  id <$> nodes chain = id <$> nodes chain_moved ∧
  connections chain = connections chain_moved ∧
  ¬ cyclic (graph_of chain) ∧ NoDup (id <$> nodes chain) ∧
  ∃ workflow',
    Layout.apply [] DagLayout_default chain = Some workflow' ∧
    Layout.apply [] DagLayout_default chain_moved = Some workflow'.
Proof.
  assert (¬ cyclic (graph_of chain)) as Hac.
  { apply toposort_acyclic; [apply graph_of_well_formed|]. vm_compute. eauto. }
  assert (NoDup (id <$> nodes chain)) as Hnd
    by (apply (bool_decide_unpack _); vm_compute; exact I).
  split; [reflexivity|]. split; [reflexivity|]. split; [exact Hac|].
  split; [exact Hnd|].
  exact (input_coordinates_ignored [] DagLayout_default chain chain_moved
           eq_refl eq_refl Hac Hnd).
Defined.

(** X4.  Laying out a workflow that [apply] has laid out already moves
    nothing vertically, and moves nothing at all when the nodes of each
    layer are grouped in the same order as in the first run. *)
Theorem apply_idempotent (seed1 seed2 : list nat) (cfg : DagLayout)
  (workflow : Workflow) :
  ∃ workflow1 workflow2,
    Layout.apply seed1 cfg workflow = Some workflow1 ∧
    Layout.apply seed2 cfg workflow1 = Some workflow2 ∧
    id <$> nodes workflow2 = id <$> nodes workflow1 ∧
    y <$> nodes workflow2 = y <$> nodes workflow1 ∧
    connections workflow2 = connections workflow1 ∧
    (initial_order seed2 workflow1 = initial_order seed1 workflow →
     workflow2 = workflow1).
Proof.
  destruct (apply_cases seed1 cfg workflow) as [[Hcyc Happ]|Hac].
  { exists workflow, workflow. split_and!; try done.
    by apply apply_with_cyclic. }
  destruct (apply_acyclic seed1 cfg workflow Hac) as (nbl1 & Hfin1 & Hlay1 & Happ1).
  set (rm := (Layout.build workflow).2) in *.
  set (ns1 := foldl (write1 rm) (nodes workflow) (writes cfg nbl1)) in *.
  set (workflow1 := {| nodes := ns1; connections := connections workflow |}) in *.
  assert (Layout.build workflow1 = Layout.build workflow) as Hb.
  { apply build_ids; [apply foldl_write1_ids|done]. }
  destruct (final_order_build cmp_unwrap_or seed2 _ _ Hb) as (Hg & Hl & Hi & Hf).
  destruct (apply_acyclic seed2 cfg workflow1) as (nbl2 & Hfin2 & Hlay2 & Happ2);
    [by rewrite Hg|].
  rewrite Hb in Happ2. fold rm in Happ2. cbn [nodes connections] in Happ2.
  rewrite Hl in Hlay2. rewrite Hf in Hfin2.
  eexists _, _. split; [exact Happ1|]. split; [exact Happ2|].
  cbn [nodes connections]. split_and!; [apply foldl_write1_ids| |done|].
  - transitivity (y <$> foldl (write1 rm) ns1 (writes cfg nbl1)).
    + rewrite <-!assign_coordinates_writes.
      apply assign_coordinates_y. by eapply layered_unique.
    + unfold ns1. by rewrite foldl_write1_twice.
  - rewrite Hi. intros Hinit. unfold workflow1. f_equal.
    assert (nbl2 = nbl1) as ->.
    { unfold final_order in Hfin1, Hfin2. rewrite Hinit in Hfin2. congruence. }
    apply foldl_write1_twice.
Qed.

(** ** Longest-path layering *)
Section LongestPath.
Implicit Types (workflow : Workflow).

Lemma layers_of_parent workflow v L :
  layers_of workflow !! v = Some (S L) →
  ∃ p, (p, v) ∈ Graph.edges (graph_of workflow) ∧ layers_of workflow !! p = Some L.
Proof.
  intros Hv. destruct (layers_of_defined _ _ _ Hv) as [Hac Hlt].
  apply (node_layer_witness (graph_of workflow) (layers_of workflow)).
  destruct (layers_of_spec workflow Hac) as [_ Hrec].
  rewrite (Hrec v Hlt) in Hv. congruence.
Qed.

Lemma layers_of_no_parent workflow v :
  layers_of workflow !! v = Some 0 → Graph.incoming (graph_of workflow) v = [].
Proof.
  intros Hv. destruct (layers_of_defined _ _ _ Hv) as [Hac _].
  destruct (Graph.incoming (graph_of workflow) v) as [|p ps] eqn:Hin; [done|].
  assert ((p, v) ∈ Graph.edges (graph_of workflow)) as He.
  { apply elem_of_incoming. rewrite Hin. by left. }
  destruct (layers_of_edge workflow p v Hac He) as (lp & lv & _ & Hlv & Hlt).
  rewrite Hv in Hlv. injection Hlv as <-. lia.
Qed.

Lemma walk_layers workflow n u v L :
  walk (graph_of workflow) n u v → layers_of workflow !! v = Some L →
  ∃ lu, layers_of workflow !! u = Some lu ∧ lu + n ≤ L.
Proof.
  intros Hw. revert L. induction Hw as [v|n u v w _ IH He]; intros L HL.
  - exists L. split; [done|lia].
  - destruct (layers_of_defined _ _ _ HL) as [Hac _].
    destruct (layers_of_edge workflow v w Hac He) as (lv & lw & Hlv & Hlw & Hlt).
    destruct (IH lv Hlv) as (lu & Hlu & Hle). exists lu. split; [done|].
    rewrite HL in Hlw. injection Hlw as <-. lia.
Qed.

Lemma layers_of_walk workflow v L :
  layers_of workflow !! v = Some L →
  ∃ u, walk (graph_of workflow) L u v ∧ layers_of workflow !! u = Some 0.
Proof.
  revert v. induction L as [|L IH]; intros v Hv.
  - exists v. split; [constructor|done].
  - destruct (layers_of_parent _ _ _ Hv) as (p & He & Hp).
    destruct (IH p Hp) as (u & Hw & Hu). exists u. split; [|done].
    by econstructor.
Qed.

(** Every layer up to that of a node is inhabited. *)
Lemma layers_of_below workflow v L K :
  layers_of workflow !! v = Some L → K ≤ L →
  ∃ u, layers_of workflow !! u = Some K.
Proof.
  revert v. induction L as [|L IH]; intros v Hv HK.
  - assert (K = 0) as -> by lia. eauto.
  - destruct (decide (K = S L)) as [->|]; [eauto|].
    destruct (layers_of_parent _ _ _ Hv) as (p & _ & Hp).
    apply (IH p Hp). lia.
Qed.
End LongestPath.

(** X5.  The layering is the longest-path layering: the layer of a node is
    the number of edges of the longest walk that ends in it.  A walk of that
    length starts at a node without incoming edges, and no walk into the
    node is longer. *)
Theorem layer_is_longest_path (workflow : Workflow) (v L : nat) :
  layers_of workflow !! v = Some L →
  (∃ u, walk (graph_of workflow) L u v ∧
        Graph.incoming (graph_of workflow) u = []) ∧
  (∀ n u, walk (graph_of workflow) n u v → n ≤ L).
Proof.
  intros Hv. split.
  - destruct (layers_of_walk _ _ _ Hv) as (u & Hw & Hu).
    exists u. split; [done|]. by apply layers_of_no_parent.
  - intros n u Hw. destruct (walk_layers _ _ _ _ _ Hw Hv) as (lu & _ & Hle). lia.
Qed.

Lemma layer_is_longest_path_witness :
  layers_of diamond !! 3 = Some 2 ∧
  (∃ u, walk (graph_of diamond) 2 u 3 ∧ Graph.incoming (graph_of diamond) u = []) ∧
  (∀ n u, walk (graph_of diamond) n u 3 → n ≤ 2).
Proof.
  assert (layers_of diamond !! 3 = Some 2) as Hv by (vm_compute; reflexivity).
  split; [exact Hv|]. exact (layer_is_longest_path diamond 3 2 Hv).
Defined.

(** X6.  On an acyclic input the layers partition the nodes: every node
    index sits in exactly one layer, exactly once; no layer is empty; and
    there are at most as many layers as nodes. *)
Theorem layers_partition_nodes (seed : list nat) (workflow : Workflow) :
  ¬ cyclic (graph_of workflow) →
  ∃ nbl,
    final_order cmp_unwrap_or seed workflow = Some nbl ∧
    mjoin nbl ≡ₚ seq 0 (length (nodes workflow)) ∧
    (∀ L ms, nbl !! L = Some ms → ms ≠ []) ∧
    length nbl ≤ length (nodes workflow).
Proof.
  intros Hac.
  destruct (final_order_layered seed workflow)
    as (nbl0 & nbl & _ & _ & Hfin & Hlay & _).
  destruct (layers_of_spec workflow Hac) as [Hdom _].
  exists nbl. split; [done|]. split_and!.
  - apply NoDup_Permutation; [by eapply layered_NoDup|apply NoDup_seq|].
    intros v. rewrite list_elem_of_join, elem_of_seq, <-Hdom. split.
    + intros (ms & Hv & (L & HL)%list_elem_of_lookup_1).
      apply list_elem_of_lookup_1 in Hv as [i Hi].
      split; [lia|]. rewrite (layered_lookup _ _ _ _ _ _ Hlay HL Hi). eauto.
    + intros [_ [L HL]]. destruct (layered_cover _ _ _ _ Hlay HL) as (ms & i & Hms & Hi).
      exists ms. split; by eapply list_elem_of_lookup_2.
  - intros L ms HL ->.
    destruct Hlay as (Hin & _ & Hlen).
    destruct (proj1 (Hlen L)) as (v & L' & Hv & HLL'); [by eapply lookup_lt_Some|].
    destruct (layers_of_below _ _ _ _ Hv HLL') as (u & Hu).
    apply Hin in Hu. unfold layer_at in Hu. rewrite HL in Hu.
    by apply elem_of_nil in Hu.
  - destruct (length nbl) as [|K] eqn:HK; [lia|].
    destruct Hlay as (_ & _ & Hlen).
    destruct (proj1 (Hlen K)) as (v & L & Hv & HKL); [lia|].
    apply layers_of_bound in Hv. lia.
Qed.

Lemma layers_partition_nodes_witness :
  ¬ cyclic (graph_of diamond) ∧
  ∃ nbl,
    final_order cmp_unwrap_or [] diamond = Some nbl ∧
    mjoin nbl ≡ₚ seq 0 (length (nodes diamond)) ∧
    length nbl ≤ length (nodes diamond).
Proof.
  assert (¬ cyclic (graph_of diamond)) as Hac.
  { apply toposort_acyclic; [apply graph_of_well_formed|]. vm_compute. eauto. }
  split; [exact Hac|].
  destruct (layers_partition_nodes [] diamond Hac) as (nbl & Hfin & Hp & _ & Hlen).
  exists nbl. exact (conj Hfin (conj Hp Hlen)).
Defined.

(** ** Exact coordinates under the default configuration *)
Section DefaultValues.
Local Open Scope Z_scope.

Lemma apply_default_values (seed : list nat) (workflow : Workflow) :
  ¬ cyclic (graph_of workflow) → NoDup (id <$> nodes workflow) →
  300 * Z.of_nat (length (nodes workflow)) < 2 ^ 24 →
  ∃ workflow' nbl,
    Layout.apply seed DagLayout_default workflow = Some workflow' ∧
    final_order cmp_unwrap_or seed workflow = Some nbl ∧
    layered (layers_of workflow) nbl ∧
    ∀ L ms i k, nbl !! L = Some ms → ms !! i = Some k →
      (length ms ≤ length (nodes workflow))%nat ∧
      (L < length (nodes workflow))%nat ∧
      x_value workflow' k
      = Some (30 - 150 * Z.of_nat (length ms) + 300 * Z.of_nat i) ∧
      y_value workflow' k = Some (140 * Z.of_nat L).
Proof.
  intros Hac Hnd Hsize.
  destruct (apply_coordinates seed DagLayout_default workflow Hac Hnd)
    as (workflow' & nbl & Happ & Hfin & Hlay & Hxy).
  exists workflow', nbl. split_and!; [done..|]. intros L ms i k HL Hi.
  destruct (layers_of_spec workflow Hac) as [Hdom _].
  assert (length ms ≤ length (nodes workflow))%nat as Hlen.
  { apply NoDup_length_bound.
    - rewrite <-(layer_at_lookup _ _ _ HL). apply Hlay.
    - intros v (j & Hj)%list_elem_of_lookup_1. apply Hdom.
      rewrite (layered_lookup _ _ _ _ _ _ Hlay HL Hj). eauto. }
  assert (L < length (nodes workflow))%nat as HLn.
  { eapply layers_of_bound. by eapply layered_lookup. }
  pose proof (lookup_lt_Some _ _ _ Hi) as Hlt.
  destruct (Hxy _ _ _ _ HL Hi) as (n & _ & Hn').
  split_and!; [done..| |].
  - unfold x_value. rewrite Hn'. cbn [mbind option_bind x].
    rewrite node_x_default, to_Z_of_Z by lia. done.
  - unfold y_value. rewrite Hn'. cbn [mbind option_bind y].
    rewrite node_y_default, to_Z_of_Z by lia. done.
Qed.
End DefaultValues.

(** X7.  No two nodes land on each other.  On an acyclic input with
    distinct identifiers and the default configuration, two different nodes
    of the same layer are at least 300 apart in [x], which leaves a gap of
    60 between boxes 240 wide, and two nodes of different layers are at
    least 140 apart in [y]. *)
Theorem nodes_never_overlap (seed : list nat) (workflow : Workflow) :
  ¬ cyclic (graph_of workflow) → NoDup (id <$> nodes workflow) →
  (300 * Z.of_nat (length (nodes workflow)) < 2 ^ 24)%Z →
  ∃ workflow',
    Layout.apply seed DagLayout_default workflow = Some workflow' ∧
    ∀ k1 k2, k1 < length (nodes workflow) → k2 < length (nodes workflow) →
      k1 ≠ k2 →
      ∃ x1 y1 x2 y2 : Z,
        x_value workflow' k1 = Some x1 ∧ y_value workflow' k1 = Some y1 ∧
        x_value workflow' k2 = Some x2 ∧ y_value workflow' k2 = Some y2 ∧
        ((y1 = y2 ∧ 300 ≤ Z.abs (x1 - x2)) ∨ 140 ≤ Z.abs (y1 - y2))%Z.
Proof.
  intros Hac Hnd Hsize.
  destruct (apply_default_values seed workflow Hac Hnd Hsize)
    as (workflow' & nbl & Happ & _ & Hlay & Hval).
  exists workflow'. split; [done|]. intros k1 k2 Hk1 Hk2 Hne.
  destruct (layers_of_spec workflow Hac) as [Hdom _].
  destruct (proj2 (Hdom k1) Hk1) as [L1 HL1].
  destruct (proj2 (Hdom k2) Hk2) as [L2 HL2].
  destruct (layered_cover _ _ _ _ Hlay HL1) as (ms1 & i1 & Hms1 & Hi1).
  destruct (layered_cover _ _ _ _ Hlay HL2) as (ms2 & i2 & Hms2 & Hi2).
  destruct (Hval _ _ _ _ Hms1 Hi1) as (_ & _ & Hx1 & Hy1).
  destruct (Hval _ _ _ _ Hms2 Hi2) as (_ & _ & Hx2 & Hy2).
  eexists _, _, _, _. split_and!; [done..|].
  destruct (decide (L1 = L2)) as [->|HL]; [left|right; lia].
  split; [done|]. assert (ms2 = ms1) as -> by congruence.
  assert (i1 ≠ i2) by congruence. lia.
Qed.

Lemma nodes_never_overlap_witness :
  ¬ cyclic (graph_of diamond) ∧ NoDup (id <$> nodes diamond) ∧
  (300 * Z.of_nat (length (nodes diamond)) < 2 ^ 24)%Z ∧
  ∃ workflow', Layout.apply [] DagLayout_default diamond = Some workflow'.
Proof.
  assert (¬ cyclic (graph_of diamond)) as Hac.
  { apply toposort_acyclic; [apply graph_of_well_formed|]. vm_compute. eauto. }
  assert (NoDup (id <$> nodes diamond)) as Hnd
    by (apply (bool_decide_unpack _); vm_compute; exact I).
  assert (300 * Z.of_nat (length (nodes diamond)) < 2 ^ 24)%Z as Hsize by reflexivity.
  split; [exact Hac|]. split; [exact Hnd|]. split; [exact Hsize|].
  destruct (nodes_never_overlap [] diamond Hac Hnd Hsize) as (workflow' & Happ & _).
  exists workflow'. exact Happ.
Defined.

(** X8.  The layout stays inside a box given by the number [n] of nodes.
    On an acyclic input with distinct identifiers and the default
    configuration every node has [0 ≤ y ≤ 140 (n - 1)] and
    [30 - 150 n ≤ x ≤ 150 n - 270], and [y] is a multiple of 140. *)
Theorem layout_bounding_box (seed : list nat) (workflow : Workflow) :
  ¬ cyclic (graph_of workflow) → NoDup (id <$> nodes workflow) →
  (300 * Z.of_nat (length (nodes workflow)) < 2 ^ 24)%Z →
  ∃ workflow',
    Layout.apply seed DagLayout_default workflow = Some workflow' ∧
    ∀ k, k < length (nodes workflow) →
      ∃ xk yk : Z,
        x_value workflow' k = Some xk ∧ y_value workflow' k = Some yk ∧
        (30 - 150 * Z.of_nat (length (nodes workflow)) ≤ xk
         ≤ 150 * Z.of_nat (length (nodes workflow)) - 270)%Z ∧
        (0 ≤ yk ≤ 140 * (Z.of_nat (length (nodes workflow)) - 1))%Z ∧
        (yk mod 140 = 0)%Z.
Proof.
  intros Hac Hnd Hsize.
  destruct (apply_default_values seed workflow Hac Hnd Hsize)
    as (workflow' & nbl & Happ & _ & Hlay & Hval).
  exists workflow'. split; [done|]. intros k Hk.
  destruct (layers_of_spec workflow Hac) as [Hdom _].
  destruct (proj2 (Hdom k) Hk) as [L HL].
  destruct (layered_cover _ _ _ _ Hlay HL) as (ms & i & Hms & Hi).
  destruct (Hval _ _ _ _ Hms Hi) as (Hlen & HLn & Hx & Hy).
  pose proof (lookup_lt_Some _ _ _ Hi) as Hlt.
  eexists _, _. split_and!; [done|done|lia|lia|lia|lia|].
  rewrite Z.mul_comm. apply Z.mod_mul. lia.
Qed.

Lemma layout_bounding_box_witness :
  ¬ cyclic (graph_of chain) ∧ NoDup (id <$> nodes chain) ∧
  (300 * Z.of_nat (length (nodes chain)) < 2 ^ 24)%Z ∧
  ∃ workflow', Layout.apply [] DagLayout_default chain = Some workflow'.
Proof.
  assert (¬ cyclic (graph_of chain)) as Hac.
  { apply toposort_acyclic; [apply graph_of_well_formed|]. vm_compute. eauto. }
  assert (NoDup (id <$> nodes chain)) as Hnd
    by (apply (bool_decide_unpack _); vm_compute; exact I).
  assert (300 * Z.of_nat (length (nodes chain)) < 2 ^ 24)%Z as Hsize by reflexivity.
  split; [exact Hac|]. split; [exact Hnd|]. split; [exact Hsize|].
  destruct (layout_bounding_box [] chain Hac Hnd Hsize) as (workflow' & Happ & _).
  exists workflow'. exact Happ.
Defined.

(** ** The order of the connections *)
Section EdgeOrder.
Context (g1 g2 : Graph.t).
Hypothesis Hedges : Graph.edges g1 ≡ₚ Graph.edges g2.

Lemma incoming_perm v : Graph.incoming g1 v ≡ₚ Graph.incoming g2 v.
Proof.
  unfold Graph.incoming. apply fmap_Permutation, filter_Permutation.
  by rewrite !reverse_Permutation.
Qed.

Lemma path_perm u v : path g1 u v → path g2 u v.
Proof.
  induction 1 as [u v He|u v w _ IH He].
  - apply path_edge. by rewrite <-Hedges.
  - eapply path_snoc; [done|]. by rewrite <-Hedges.
Qed.

Lemma node_layer_le (layers : gmap nat nat) v :
  Layout.node_layer g1 layers v ≤ Layout.node_layer g2 layers v.
Proof.
  destruct (Layout.node_layer g1 layers v) as [|l] eqn:Hl; [lia|].
  apply node_layer_witness in Hl as (p & He & Hp).
  rewrite Hedges in He. pose proof (node_layer_parent g2 layers v p l He Hp). lia.
Qed.

Lemma emitted_perm placed : emitted g1 placed → emitted g2 placed.
Proof.
  induction 1 as [|v placed _ IH Hv Hin]; constructor; [done..|].
  intros p Hp. apply Hin. by rewrite incoming_perm.
Qed.
End EdgeOrder.

Section ConnectionOrder.
Implicit Types (workflow : Workflow) (g : Graph.t).

Lemma node_layer_perm g1 g2 (layers : gmap nat nat) v :
  Graph.edges g1 ≡ₚ Graph.edges g2 →
  Layout.node_layer g1 layers v = Layout.node_layer g2 layers v.
Proof.
  intros He. apply Nat.le_antisymm; by apply node_layer_le.
Qed.

Lemma assign_layers_perm g1 g2 (l : list nat) :
  Graph.edges g1 ≡ₚ Graph.edges g2 →
  Layout.assign_layers g1 l = Layout.assign_layers g2 l.
Proof.
  intros He. induction l as [|v l IH] using rev_ind; [done|].
  by rewrite !assign_layers_snoc, IH, (node_layer_perm g1 g2).
Qed.

Lemma cyclic_perm g1 g2 :
  Graph.edges g1 ≡ₚ Graph.edges g2 → cyclic g1 → cyclic g2.
Proof. intros He [v Hv]. exists v. by eapply path_perm. Qed.

Lemma graph_of_perm workflow1 workflow2 :
  nodes workflow1 = nodes workflow2 →
  connections workflow1 ≡ₚ connections workflow2 →
  Graph.edges (graph_of workflow1) ≡ₚ Graph.edges (graph_of workflow2) ∧
  (Layout.build workflow1).2 = (Layout.build workflow2).2.
Proof.
  intros Hns Hcs. unfold graph_of, Layout.build. rewrite Hns.
  destruct (Layout.add_nodes (nodes workflow2)) as [[g im] rm]. cbn [fst snd].
  split; [|done].
  rewrite !(proj2 (add_edges_spec im _ g)). by rewrite Hcs.
Qed.

Lemma layers_of_perm workflow1 workflow2 :
  nodes workflow1 = nodes workflow2 →
  connections workflow1 ≡ₚ connections workflow2 →
  layers_of workflow1 = layers_of workflow2.
Proof.
  intros Hns Hcs. destruct (graph_of_perm _ _ Hns Hcs) as [He _].
  unfold layers_of.
  destruct (toposort (graph_of workflow1)) as [l1|] eqn:H1,
           (toposort (graph_of workflow2)) as [l2|] eqn:H2.
  - apply toposort_sound in H1 as (placed1 & -> & Hem1 & Hel1).
    apply toposort_sound in H2 as (placed2 & -> & Hem2 & Hel2).
    rewrite (assign_layers_perm _ (graph_of workflow2)) by done.
    apply assign_layers_spec; [by eapply emitted_perm|done|].
    intros v. by rewrite Hel1, Hel2, !graph_of_node_count, Hns.
  - apply toposort_None in H2; [|apply graph_of_well_formed].
    apply (cyclic_perm _ (graph_of workflow1)) in H2; [|done].
    apply toposort_cyclic in H2; [congruence|apply graph_of_well_formed].
  - apply toposort_None in H1; [|apply graph_of_well_formed].
    apply (cyclic_perm _ (graph_of workflow2)) in H1; [|done].
    apply toposort_cyclic in H1; [congruence|apply graph_of_well_formed].
  - done.
Qed.
End ConnectionOrder.

Section BarycenterOrder.
Local Open Scope Z_scope.

Lemma barycenter_perm (g1 g2 : Graph.t) (prev : list nat) (v : nat) :
  Graph.edges g1 ≡ₚ Graph.edges g2 →
  Z.of_nat (length prev) * Z.of_nat (length (Graph.incoming g1 v)) < 2 ^ 24 →
  Layout.barycenter g1 prev v = Layout.barycenter g2 prev v.
Proof.
  intros He Hb. rewrite !barycenter_unfold. cbv zeta.
  assert (found_positions g1 prev v ≡ₚ found_positions g2 prev v) as Hp.
  { unfold found_positions. apply omap_Permutation. by apply incoming_perm. }
  pose proof (found_positions_length g1 prev v) as Hlen.
  assert (Z.of_nat (length prev) * Z.of_nat (length (found_positions g1 prev v))
          ≤ Z.of_nat (length prev) * Z.of_nat (length (Graph.incoming g1 v)))
    as Hmul by (apply Z.mul_le_mono_nonneg_l; lia).
  assert (∀ g, (∀ p, p ∈ found_positions g prev v → (p < length prev)%nat))
    as Hlt.
  { intros g p (q & _ & Hq)%list_elem_of_omap. by eapply position_lt. }
  pose proof (sum_value (found_positions g1 prev v) (length prev) 0 (Hlt g1))
    as H1.
  pose proof (sum_value (found_positions g2 prev v) (length prev) 0 (Hlt g2))
    as H2.
  rewrite <-(Permutation_length Hp) in H2 |- *.
  change (F32.of_Z 0) with F32.zero in H1, H2.
  rewrite H1, H2 by lia.
  assert (sum_list (found_positions g1 prev v)
          = sum_list (found_positions g2 prev v)) as Hsum by (by rewrite Hp).
  by rewrite Hsum.
Qed.
End BarycenterOrder.

Section CrossingOrder.
Context (cmp : nat * f32 → nat * f32 → option comparison).
Context (g1 g2 : Graph.t) (B : nat).
Hypothesis Hbary : ∀ prev v,
  length prev ≤ B → Layout.barycenter g1 prev v = Layout.barycenter g2 prev v.
Local Abbreviation bounded := (Forall (λ ms : list nat, length ms ≤ B)).

Lemma try_fold_ext_inv {A C} (P : A → Prop) (f f' : A → C → option A) a l :
  P a → (∀ a b, P a → f a b = f' a b) →
  (∀ a b a', P a → f a b = Some a' → P a') →
  try_fold f a l = try_fold f' a l.
Proof.
  intros Ha Hf HP. revert a Ha. induction l as [|b l IH]; intros a Ha; [done|].
  simpl. rewrite <-Hf by done. destruct (f a b) as [a'|] eqn:Hfa; [|done].
  simpl. apply IH. by eapply HP.
Qed.

Lemma reorder_layer_bounded nbl idx :
  bounded nbl →
  Layout.reorder_layer cmp g1 nbl idx = Layout.reorder_layer cmp g2 nbl idx.
Proof.
  intros HB. unfold Layout.reorder_layer.
  destruct (nbl !! idx) as [cur|]; [|done]. simpl.
  destruct (nbl !! (idx - 1)) as [prev|] eqn:Hprev; [|done]. simpl.
  assert (length prev ≤ B) as Hlen.
  { by apply (Forall_lookup_1 _ _ _ _ HB Hprev). }
  rewrite (list_fmap_ext (keyed (Layout.barycenter g1 prev))
                         (keyed (Layout.barycenter g2 prev)) cur); [done|].
  intros i v _. unfold keyed. by rewrite Hbary.
Qed.

Lemma reorder_layer_preserves g nbl idx nbl' :
  bounded nbl → Layout.reorder_layer cmp g nbl idx = Some nbl' → bounded nbl'.
Proof.
  intros HB. unfold Layout.reorder_layer.
  destruct (nbl !! idx) as [cur|] eqn:Hcur; [|done]. simpl.
  destruct (nbl !! (idx - 1)) as [prev|]; [|done]. simpl.
  destruct (sort_by _ _) as [sorted|] eqn:Hs; [|done]. simpl. intros [= <-].
  apply Forall_insert; [done|]. apply sort_by_perm in Hs.
  rewrite length_fmap, Hs, length_fmap.
  by apply (Forall_lookup_1 _ _ _ _ HB Hcur).
Qed.

Lemma sweep_preserves g nbl nbl' :
  bounded nbl → Layout.sweep cmp g nbl = Some nbl' → bounded nbl'.
Proof.
  intros HB. apply (try_fold_preserves _ bounded); [done|].
  intros a b a' Ha _. by apply reorder_layer_preserves.
Qed.

Lemma sweep_bounded nbl :
  bounded nbl → Layout.sweep cmp g1 nbl = Layout.sweep cmp g2 nbl.
Proof.
  intros HB. apply (try_fold_ext_inv bounded); [done|..].
  - intros a b Ha. by apply reorder_layer_bounded.
  - intros a b a' Ha. by apply reorder_layer_preserves.
Qed.

Lemma minimize_crossings_bounded nbl :
  bounded nbl →
  Layout.minimize_crossings cmp g1 nbl = Layout.minimize_crossings cmp g2 nbl.
Proof.
  intros HB. apply (try_fold_ext_inv bounded); [done|..].
  - intros a _ Ha. by apply sweep_bounded.
  - intros a _ a' Ha. by apply sweep_preserves.
Qed.
End CrossingOrder.

(** X9.  The order in which the connections are listed does not matter
    for the layering: two workflows with the same nodes whose connection
    lists are permutations of each other get the same layers and the same
    [y] for every node.  They get the same [x] as well when the nodes of
    each layer are grouped in the same order, as long as the sums of
    positions are exact (number of nodes times number of connections below
    [2 ^ 24]). *)
Theorem connection_order_irrelevant (seed1 seed2 : list nat) (cfg : DagLayout)
  (workflow1 workflow2 : Workflow) :
  nodes workflow1 = nodes workflow2 →
  connections workflow1 ≡ₚ connections workflow2 →
  ∃ workflow1' workflow2',
    Layout.apply seed1 cfg workflow1 = Some workflow1' ∧
    Layout.apply seed2 cfg workflow2 = Some workflow2' ∧
    layers_of workflow1 = layers_of workflow2 ∧
    id <$> nodes workflow1' = id <$> nodes workflow2' ∧
    y <$> nodes workflow1' = y <$> nodes workflow2' ∧
    ((Z.of_nat (length (nodes workflow1))
      * Z.of_nat (length (connections workflow1)) < 2 ^ 24)%Z →
     initial_order seed1 workflow1 = initial_order seed2 workflow2 →
     nodes workflow1' = nodes workflow2').
Proof.
  intros Hns Hcs. destruct (graph_of_perm _ _ Hns Hcs) as [He Hrm].
  pose proof (layers_of_perm _ _ Hns Hcs) as Hl.
  destruct (apply_cases seed1 cfg workflow1) as [[Hcyc Happ1]|Hac].
  { exists workflow1, workflow2. split_and!; [done| |done|by rewrite Hns..|done].
    apply apply_with_cyclic. by eapply cyclic_perm. }
  assert (¬ cyclic (graph_of workflow2)) as Hac2.
  { intros Hcyc. apply Hac. by eapply cyclic_perm. }
  destruct (apply_acyclic seed1 cfg workflow1 Hac) as (nbl1 & Hfin1 & Hlay1 & Happ1).
  destruct (apply_acyclic seed2 cfg workflow2 Hac2) as (nbl2 & Hfin2 & Hlay2 & Happ2).
  rewrite <-Hl in Hlay2. rewrite <-Hrm, <-Hns in Happ2.
  eexists _, _. split; [exact Happ1|]. split; [exact Happ2|].
  cbn [nodes]. split_and!; [done|by rewrite !foldl_write1_ids| |].
  - rewrite <-!assign_coordinates_writes. apply assign_coordinates_y.
    by eapply layered_unique.
  - intros Hsize Hinit. f_equal. f_equal. unfold final_order in Hfin1, Hfin2.
    rewrite <-Hinit in Hfin2.
    destruct (initial_order_layered seed1 workflow1) as (nbl0 & H0 & Hlay0).
    rewrite H0 in Hfin1, Hfin2. cbn [mbind option_bind] in Hfin1, Hfin2.
    rewrite (minimize_crossings_bounded _ _ (graph_of workflow2)
               (length (nodes workflow1))) in Hfin1;
      [congruence| |by apply layered_bounded].
    intros prev v Hprev. apply barycenter_perm; [done|].
    pose proof (incoming_length workflow1 v).
    assert (Z.of_nat (length prev) * Z.of_nat (length (Graph.incoming (graph_of workflow1) v))
            ≤ Z.of_nat (length (nodes workflow1))
              * Z.of_nat (length (connections workflow1)))%Z; [|lia].
    apply Z.mul_le_mono_nonneg; lia.
Qed.

Lemma connection_order_irrelevant_witness :
  nodes diamond = nodes diamond_shuffled ∧
  connections diamond ≡ₚ connections diamond_shuffled ∧
  (Z.of_nat (length (nodes diamond)) * Z.of_nat (length (connections diamond))
   < 2 ^ 24)%Z ∧
  initial_order [] diamond = initial_order [] diamond_shuffled ∧
  ∃ workflow1' workflow2',
    Layout.apply [] DagLayout_default diamond = Some workflow1' ∧
    Layout.apply [] DagLayout_default diamond_shuffled = Some workflow2' ∧
    nodes workflow1' = nodes workflow2'.
Proof.
  assert (connections diamond ≡ₚ connections diamond_shuffled) as Hcs.
  { unfold diamond, diamond_shuffled. cbn [connections].
    etrans; [apply Permutation_swap|]. do 2 apply Permutation_skip.
    apply Permutation_swap. }
  assert (Z.of_nat (length (nodes diamond)) * Z.of_nat (length (connections diamond))
          < 2 ^ 24)%Z as Hsize by reflexivity.
  assert (initial_order [] diamond = initial_order [] diamond_shuffled) as Hinit
    by (vm_compute; reflexivity).
  split; [reflexivity|]. split; [exact Hcs|]. split; [exact Hsize|].
  split; [exact Hinit|].
  destruct (connection_order_irrelevant [] [] DagLayout_default diamond
              diamond_shuffled eq_refl Hcs)
    as (w1 & w2 & H1 & H2 & _ & _ & _ & Hx).
  exists w1, w2. exact (conj H1 (conj H2 (Hx Hsize Hinit))).
Defined.

(** ** The two spacings *)
Section Spacings.
Context (rm : gmap nat NodeId).
Context (field : Node → f32) (proj : f32 * f32 → f32).
Hypothesis Hfield : ∀ a xx yy, field {| id := a; x := xx; y := yy |} = proj (xx, yy).
Implicit Types (ns : list Node) (ws : list (nat * (f32 * f32))).

Lemma write1_field ns1 ns2 (w1 w2 : nat * (f32 * f32)) :
  id <$> ns1 = id <$> ns2 → field <$> ns1 = field <$> ns2 →
  w1.1 = w2.1 → proj w1.2 = proj w2.2 →
  field <$> write1 rm ns1 w1 = field <$> write1 rm ns2 w2.
Proof.
  intros Hids Hf Hv Hp. unfold write1. rewrite <-Hv.
  destruct (rm !! w1.1) as [a|]; [|done].
  apply list_eq. intros k. rewrite !list_lookup_fmap, !write_back_lookup.
  rewrite (first_with_ext ns1 ns2) by done.
  assert (field <$> ns1 !! k = field <$> ns2 !! k) as Hk
    by (by rewrite <-!list_lookup_fmap, Hf).
  case_decide; [|done].
  destruct w1 as [v1 [x1 y1]], w2 as [v2 [x2 y2]]. simpl in *.
  destruct (ns1 !! k), (ns2 !! k); simpl in *; try done.
  by rewrite !Hfield, Hp.
Qed.

Lemma foldl_write1_field ns1 ns2 ws1 ws2 :
  id <$> ns1 = id <$> ns2 → field <$> ns1 = field <$> ns2 →
  Forall2 (λ w1 w2, w1.1 = w2.1 ∧ proj w1.2 = proj w2.2) ws1 ws2 →
  field <$> foldl (write1 rm) ns1 ws1 = field <$> foldl (write1 rm) ns2 ws2.
Proof.
  intros Hids Hf HF. revert ns1 ns2 Hids Hf.
  induction HF as [|w1 w2 ws1 ws2 [Hv Hp] _ IH]; intros ns1 ns2 Hids Hf; [done|].
  simpl. apply IH.
  - by rewrite !write1_ids.
  - by apply write1_field.
Qed.
End Spacings.

Section SpacingsWrites.
Implicit Types (cfg : DagLayout) (nbl : list (list nat)).

Lemma Forall2_imap {A B C} (R : B → C → Prop) (f : nat → A → B) (g : nat → A → C)
  (l : list A) :
  (∀ i a, l !! i = Some a → R (f i a) (g i a)) → Forall2 R (imap f l) (imap g l).
Proof.
  revert f g. induction l as [|a l IH]; intros f g HR; [constructor|].
  rewrite !imap_cons. constructor; [by apply (HR 0)|].
  apply IH. intros i b Hi. by apply (HR (S i)).
Qed.

Lemma Forall2_join {A B} (R : A → B → Prop) (ls : list (list A)) (ks : list (list B)) :
  Forall2 (Forall2 R) ls ks → Forall2 R (mjoin ls) (mjoin ks).
Proof.
  induction 1 as [|l k ls ks Hlk _ IH]; [constructor|].
  simpl. by apply Forall2_app.
Qed.

Lemma writes_related (R : f32 * f32 → f32 * f32 → Prop) cfg1 cfg2 nbl :
  (∀ k i L, R (Layout.node_x cfg1 k i, Layout.node_y cfg1 L)
              (Layout.node_x cfg2 k i, Layout.node_y cfg2 L)) →
  Forall2 (λ w1 w2, w1.1 = w2.1 ∧ R w1.2 w2.2) (writes cfg1 nbl) (writes cfg2 nbl).
Proof.
  intros HR. unfold writes. apply Forall2_join, Forall2_imap.
  intros L ms _. unfold layer_writes. apply Forall2_imap.
  intros i v _. split; [done|apply HR].
Qed.
End SpacingsWrites.

(** X10.  The two spacings act on one axis each.  Whatever the input, a
    change of [layer_spacing] alone leaves every [x] as it is, and a change
    of [node_spacing] alone leaves every [y] as it is. *)
Theorem spacings_are_independent (seed : list nat) (cfg1 cfg2 : DagLayout)
  (workflow : Workflow) :
  ∃ workflow1 workflow2,
    Layout.apply seed cfg1 workflow = Some workflow1 ∧
    Layout.apply seed cfg2 workflow = Some workflow2 ∧
    (node_spacing cfg1 = node_spacing cfg2 →
     x <$> nodes workflow1 = x <$> nodes workflow2) ∧
    (layer_spacing cfg1 = layer_spacing cfg2 →
     y <$> nodes workflow1 = y <$> nodes workflow2).
Proof.
  destruct (apply_cases seed cfg1 workflow) as [[Hcyc Happ]|Hac].
  { exists workflow, workflow. split_and!; try done. by apply apply_with_cyclic. }
  destruct (apply_acyclic seed cfg1 workflow Hac) as (nbl & Hfin & _ & Happ1).
  destruct (apply_acyclic seed cfg2 workflow Hac) as (nbl' & Hfin' & _ & Happ2).
  assert (nbl' = nbl) as -> by congruence.
  eexists _, _. split; [exact Happ1|]. split; [exact Happ2|].
  cbn [nodes]. split.
  - intros Hs. apply (foldl_write1_field _ x fst); [done..|].
    apply (writes_related (λ p1 p2, p1.1 = p2.1)). intros k i L. cbn [fst].
    unfold Layout.node_x, Layout.start_x, Layout.layer_width. by rewrite Hs.
  - intros Hs. apply (foldl_write1_field _ y snd); [done..|].
    apply (writes_related (λ p1 p2, p1.2 = p2.2)). intros k i L. cbn [snd].
    unfold Layout.node_y. by rewrite Hs.
Qed.

Lemma spacings_are_independent_witness :
  node_spacing DagLayout_default
  = node_spacing {| layer_spacing := F32.of_Z 200; node_spacing := F32.of_Z 60 |} ∧
  ∃ workflow1 workflow2,
    Layout.apply [] DagLayout_default diamond = Some workflow1 ∧
    Layout.apply [] {| layer_spacing := F32.of_Z 200; node_spacing := F32.of_Z 60 |}
                 diamond = Some workflow2 ∧
    x <$> nodes workflow1 = x <$> nodes workflow2.
Proof.
  split; [reflexivity|].
  destruct (spacings_are_independent [] DagLayout_default
              {| layer_spacing := F32.of_Z 200; node_spacing := F32.of_Z 60 |}
              diamond) as (w1 & w2 & H1 & H2 & Hx & _).
  exists w1, w2. exact (conj H1 (conj H2 (Hx eq_refl))).
Defined.

(** ** Order of exact floats *)
Section FloatOrder.
Local Open Scope Z_scope.

Lemma div_one_exact s (n : positive) :
  Z.pos n < 2 ^ 24 → F32.div (F32.exact s n 0) F32.one = F32.exact s n 0.
Proof.
  intros Hn. pose proof (small_digits n Hn) as Hd.
  pose proof (exact_digits n Hn) as Hdm.
  change F32.one with (S754_finite false 8388608 (-23)).
  unfold F32.div, F32.exact. cbn [SFdiv].
  set (d := Z.pos (digits2_pos n)) in *.
  set (m := Z.to_pos (Z.pos n * 2 ^ (24 - d))) in *.
  unfold SFdiv_core_binary. cbn [Zdigits2]. rewrite Hdm.
  change (Z.pos (digits2_pos 8388608)) with 24.
  replace (24 + (0 + d - 24) - (24 + -23)) with (d - 1) by lia.
  rewrite fexp_f32 by lia.
  replace (Z.min (d - 1 - 24) (0 + d - 24 - -23)) with (d - 25) by lia.
  replace (0 + d - 24 - -23 - (d - 25)) with 24 by lia.
  cbv iota beta.
  assert (Z.div_eucl (Z.shiftl (Z.pos m) 24) 8388608 = (2 * Z.pos m, 0)) as ->.
  { rewrite Z.shiftl_mul_pow2 by lia.
    pose proof (Z.div_eucl_eq (Z.pos m * 2 ^ 24) 8388608) as Heq.
    pose proof (Z.mod_pos_bound (Z.pos m * 2 ^ 24) 8388608) as Hb.
    unfold Z.modulo in Hb.
    destruct (Z.div_eucl (Z.pos m * 2 ^ 24) 8388608) as [q r].
    specialize (Heq ltac:(lia)). specialize (Hb ltac:(lia)).
    change (2 ^ 24) with (2 * 8388608) in Heq. f_equal; lia. }
  change (new_location 8388608 0) with loc_Exact. rewrite xorb_false_r.
  assert (0 < 2 ^ (24 - d)) by (apply Z.pow_pos_nonneg; lia).
  rewrite (binary_round_aux_exact s (m~0)%positive n (25 - d)); [|lia| |lia..].
  - f_equal. lia.
  - rewrite Pos2Z.inj_xO. unfold m. rewrite Z2Pos.id by lia.
    replace (25 - d) with (24 - d + 1) by lia. rewrite Z.pow_add_r by lia. lia.
Qed.

Lemma div_one_of_Z (c : Z) :
  0 ≤ c < 2 ^ 24 → F32.div (F32.of_Z c) F32.one = F32.of_Z c.
Proof.
  intros Hc. destruct c as [|n|n]; [done| |lia].
  rewrite of_Z_pos by lia. apply div_one_exact. lia.
Qed.

Lemma compare_exact (a b : positive) :
  Z.pos a < 2 ^ 24 → Z.pos b < 2 ^ 24 →
  F32.partial_cmp (F32.exact false a 0) (F32.exact false b 0)
  = Some (Pos.compare a b).
Proof.
  intros Ha Hb. pose proof (small_digits a Ha) as Hda.
  pose proof (small_digits b Hb) as Hdb.
  pose proof (digits2_pos_bounds a) as [Hloa Hhia].
  pose proof (digits2_pos_bounds b) as [Hlob Hhib].
  unfold F32.partial_cmp, F32.exact. cbn [SFcompare]. f_equal.
  set (da := Z.pos (digits2_pos a)) in *. set (db := Z.pos (digits2_pos b)) in *.
  destruct (Z.compare_spec (0 + da - 24) (0 + db - 24)) as [He|He|He].
  - assert (db = da) as -> by lia.
    assert (0 < 2 ^ (24 - da)) by (apply Z.pow_pos_nonneg; lia).
    fold (Pos.compare (Z.to_pos (Z.pos a * 2 ^ (24 - da)))
                      (Z.to_pos (Z.pos b * 2 ^ (24 - da)))).
    rewrite !Pos2Z.inj_compare, !Z2Pos.id by lia.
    destruct (Z.compare_spec (Z.pos a * 2 ^ (24 - da)) (Z.pos b * 2 ^ (24 - da))),
             (Z.compare_spec (Z.pos a) (Z.pos b)); try done; nia.
  - symmetry. apply Pos.compare_lt_iff.
    assert (2 ^ da ≤ 2 ^ (db - 1)) by (apply Z.pow_le_mono_r; lia). lia.
  - symmetry. apply Pos.compare_gt_iff.
    assert (2 ^ db ≤ 2 ^ (da - 1)) by (apply Z.pow_le_mono_r; lia). lia.
Qed.

Lemma partial_cmp_of_Z (a b : Z) :
  0 ≤ a < 2 ^ 24 → 0 ≤ b < 2 ^ 24 →
  F32.partial_cmp (F32.of_Z a) (F32.of_Z b) = Some (a ?= b).
Proof.
  intros Ha Hb. destruct a as [|na|na], b as [|nb|nb]; try lia.
  - done.
  - by rewrite (of_Z_pos nb) by lia.
  - by rewrite (of_Z_pos na) by lia.
  - rewrite !of_Z_pos by lia. rewrite compare_exact by lia. done.
Qed.

Lemma SFleb_of_usize (a b : nat) :
  Z.of_nat a < 2 ^ 24 → Z.of_nat b < 2 ^ 24 →
  SFleb (F32.of_usize a) (F32.of_usize b) = true → (a ≤ b)%nat.
Proof.
  intros Ha Hb. unfold SFleb, F32.of_usize.
  fold (F32.partial_cmp (F32.of_Z (Z.of_nat a)) (F32.of_Z (Z.of_nat b))).
  rewrite partial_cmp_of_Z by lia.
  destruct (Z.compare_spec (Z.of_nat a) (Z.of_nat b)); [lia|lia|done].
Qed.

(** The barycenter of a node with one incoming edge is the position of
    its predecessor. *)
Lemma barycenter_single (g : Graph.t) (prev : list nat) (v p a : nat) :
  Graph.incoming g v = [p] → Layout.position prev p = Some a →
  Z.of_nat a < 2 ^ 24 →
  Layout.barycenter g prev v = F32.of_usize a.
Proof.
  intros Hin Hp Ha. unfold Layout.barycenter. rewrite Hin. cbn [foldl].
  rewrite Hp.
  change (F32.add F32.zero F32.one) with F32.one.
  change (F32.gt F32.one F32.zero) with true. cbv iota.
  unfold F32.of_usize. change F32.zero with (F32.of_Z 0).
  rewrite add_of_Z by lia. rewrite Z.add_0_l. apply div_one_of_Z. lia.
Qed.
End FloatOrder.

(** ** The order left by the last pass *)
Section LastPass.
Implicit Types (bary : list nat → nat → f32) (nbl : list (list nat)).

Lemma swept_ascending bary prev rest rest' L p ms :
  Spec.swept bary prev rest rest' →
  (prev :: rest') !! L = Some p → rest' !! L = Some ms →
  Spec.ascending (bary p) ms.
Proof.
  intros Hsw. revert L. induction Hsw as [|prev layer layer' rest rest' Hres _ IH];
    intros L Hp Hms; [done|].
  destruct L as [|L]; simpl in *.
  - injection Hp as <-. injection Hms as <-. apply Hres.
  - by apply (IH L).
Qed.

Lemma pass_ascending bary nbl nbl' L prev ms :
  Spec.pass bary nbl nbl' →
  nbl' !! L = Some prev → nbl' !! S L = Some ms →
  Spec.ascending (bary prev) ms.
Proof.
  destruct nbl as [|l0 rest], nbl' as [|l0' rest']; simpl; try done.
  intros [-> Hsw] Hp Hms. by eapply swept_ascending.
Qed.

Lemma ascending_lookup (key : nat → f32) (ms : list nat) i j v1 v2 :
  Spec.ascending key ms → ms !! i = Some v1 → ms !! j = Some v2 → i < j →
  SFleb (key v1) (key v2) = true.
Proof.
  intros Hs. apply Sorted_StronglySorted in Hs; [|intros a b c; apply SFleb_trans].
  revert i j. induction Hs as [|a l _ IH Hall]; intros i j Hi Hj Hlt; [done|].
  destruct j as [|j]; [lia|]. simpl in Hj. destruct i as [|i]; simpl in Hi.
  - injection Hi as <-. rewrite Forall_forall in Hall. apply Hall.
    by eapply list_elem_of_lookup_2.
  - apply (IH i j); [done..|lia].
Qed.

Lemma final_order_ascending (seed : list nat) (workflow : Workflow)
  (nbl : list (list nat)) L prev ms :
  final_order cmp_unwrap_or seed workflow = Some nbl →
  nbl !! L = Some prev → nbl !! S L = Some ms →
  Spec.ascending (Layout.barycenter (graph_of workflow) prev) ms.
Proof.
  unfold final_order. destruct (initial_order seed workflow) as [nbl0|]; [|done].
  cbn [mbind option_bind]. rewrite minimize_crossings_unwrap_or.
  destruct (minimize_crossings_passes (graph_of workflow) nbl0)
    as (nbl1 & nbl2 & nbl3 & nbl4 & -> & _ & _ & _ & H4).
  intros [= <-] Hp Hm. by eapply pass_ascending.
Qed.
End LastPass.

(** X11.  Where a layer hangs from the layer above by single edges, the
    final order has no crossing: of two nodes of a layer that have one
    incoming edge each, the one placed to the left has its predecessor in
    the layer above, and not to the right of the predecessor of the
    other. *)
Theorem single_edges_do_not_cross (seed : list nat) (workflow : Workflow) :
  (Z.of_nat (length (nodes workflow)) < 2 ^ 24)%Z →
  ∃ nbl,
    final_order cmp_unwrap_or seed workflow = Some nbl ∧
    ∀ L prev ms i j v1 v2 p1 p2,
      nbl !! L = Some prev → nbl !! S L = Some ms →
      ms !! i = Some v1 → ms !! j = Some v2 → i < j →
      Graph.incoming (graph_of workflow) v1 = [p1] →
      Graph.incoming (graph_of workflow) v2 = [p2] →
      ∃ a b, prev !! a = Some p1 ∧ prev !! b = Some p2 ∧ a ≤ b.
Proof.
  intros Hsize.
  destruct (final_order_layered seed workflow)
    as (nbl0 & nbl & _ & _ & Hfin & Hlay & _).
  exists nbl. split; [done|].
  intros L prev ms i j v1 v2 p1 p2 Hprev Hms Hi Hj Hlt Hin1 Hin2.
  pose proof (layered_bounded _ _ Hlay) as Hb.
  pose proof (Forall_lookup_1 _ _ _ _ Hb Hprev) as Hlen. cbv beta in Hlen.
  assert (∀ k v p, ms !! k = Some v → Graph.incoming (graph_of workflow) v = [p] →
            ∃ a, Layout.position prev p = Some a ∧ prev !! a = Some p ∧
                 Layout.barycenter (graph_of workflow) prev v = F32.of_usize a ∧
                 (Z.of_nat a < 2 ^ 24)%Z) as Hone.
  { intros k v p Hk Hin.
    pose proof (layered_lookup _ _ _ _ _ _ Hlay Hms Hk) as Hv.
    destruct (layers_of_parent _ _ _ Hv) as (q & Hq & HLq).
    apply elem_of_incoming in Hq. rewrite Hin in Hq.
    apply list_elem_of_singleton in Hq as ->.
    destruct Hlay as (Hmem & _ & _). apply Hmem in HLq.
    rewrite (layer_at_lookup _ _ _ Hprev) in HLq.
    destruct (list_find_elem_of (λ n, n = p) prev p HLq eq_refl) as [[a p'] Hf].
    assert (Layout.position prev p = Some a) as Hpos
      by (unfold Layout.position; by rewrite Hf).
    apply list_find_Some in Hf as (Ha & -> & _).
    pose proof (lookup_lt_Some _ _ _ Ha).
    exists a. split_and!; [done..| |lia]. apply (barycenter_single _ _ _ p); [done..|lia]. }
  destruct (Hone i v1 p1 Hi Hin1) as (a & _ & Ha & Hb1 & Ha24).
  destruct (Hone j v2 p2 Hj Hin2) as (b & _ & Hb' & Hb2 & Hb24).
  exists a, b. split_and!; [done..|].
  pose proof (final_order_ascending _ _ _ _ _ _ Hfin Hprev Hms) as Hasc.
  pose proof (ascending_lookup _ _ _ _ _ _ Hasc Hi Hj Hlt) as Hle.
  rewrite Hb1, Hb2 in Hle. by apply SFleb_of_usize.
Qed.

Lemma single_edges_do_not_cross_witness :
  (Z.of_nat (length (nodes two_pairs)) < 2 ^ 24)%Z ∧
  initial_order [1] two_pairs = Some [[1; 0]; [3; 2]] ∧
  final_order cmp_unwrap_or [1] two_pairs = Some [[1; 0]; [2; 3]] ∧
  Graph.incoming (graph_of two_pairs) 2 = [1] ∧
  Graph.incoming (graph_of two_pairs) 3 = [0] ∧
  ∃ a b, [1; 0] !! a = Some 1 ∧ [1; 0] !! b = Some 0 ∧ a ≤ b.
Proof.
  assert (Z.of_nat (length (nodes two_pairs)) < 2 ^ 24)%Z as Hsize by reflexivity.
  assert (final_order cmp_unwrap_or [1] two_pairs = Some [[1; 0]; [2; 3]]) as Hfin
    by (vm_compute; reflexivity).
  split; [exact Hsize|]. split; [vm_compute; reflexivity|]. split; [exact Hfin|].
  split; [reflexivity|]. split; [reflexivity|].
  destruct (single_edges_do_not_cross [1] two_pairs Hsize) as (nbl & Hnbl & Hord).
  rewrite Hfin in Hnbl. injection Hnbl as <-.
  exact (Hord 0 [1; 0] [2; 3] 0 1 2 3 1 0 eq_refl eq_refl eq_refl eq_refl
              (le_n 1) eq_refl eq_refl).
Defined.

(** ** The order of the nodes *)
Section NodeOrder.
Implicit Types (workflow : Workflow).

Lemma index_map_NoDup workflow a i :
  NoDup (id <$> nodes workflow) →
  (Layout.build workflow).1.2 !! a = Some i ↔ (id <$> nodes workflow) !! i = Some a.
Proof.
  intros Hnd. destruct (Layout.build workflow) as [[g im] rm] eqn:Hb. simpl.
  apply build_spec in Hb as (_ & _ & _ & Him). rewrite Him. split; [by intros []|].
  intros Hi. split; [done|]. intros j Hlt Hj.
  pose proof (NoDup_lookup _ _ _ _ Hnd Hi Hj). lia.
Qed.

Lemma edges_ids workflow u v :
  NoDup (id <$> nodes workflow) →
  (u, v) ∈ Graph.edges (graph_of workflow) ↔
  ∃ c, c ∈ connections workflow ∧
       (id <$> nodes workflow) !! u = Some (source c) ∧
       (id <$> nodes workflow) !! v = Some (target c).
Proof.
  intros Hnd. pose proof (index_map_NoDup workflow) as Him.
  unfold graph_of in *. destruct (Layout.build workflow) as [[g im] rm] eqn:Hb.
  cbn [fst snd] in *. apply build_spec in Hb as (_ & He & _). rewrite He.
  rewrite list_elem_of_omap. unfold resolve.
  split; intros (c & Hc & Hr); exists c; (split; [done|]).
  - destruct (im !! source c) as [i|] eqn:Hi, (im !! target c) as [j|] eqn:Hj;
      try done. injection Hr as -> ->. split; by apply Him.
  - destruct Hr as [Hi%Him Hj%Him]; [|done..]. by rewrite Hi, Hj.
Qed.
End NodeOrder.

Section NodeOrderTransfer.
Context (workflow1 workflow2 : Workflow).
Hypothesis Hids : id <$> nodes workflow1 ≡ₚ id <$> nodes workflow2.
Hypothesis Hnd : NoDup (id <$> nodes workflow1).
Hypothesis Hcs : ∀ c, c ∈ connections workflow1 → c ∈ connections workflow2.

(** The node of the second workflow that has the identifier of a node of the
    first. *)
Local Abbreviation same_id u u' :=
  (∃ a, (id <$> nodes workflow1) !! u = Some a ∧
        (id <$> nodes workflow2) !! u' = Some a).

Lemma NoDup_ids2 : NoDup (id <$> nodes workflow2).
Proof. by rewrite <-Hids. Qed.

Lemma same_id_total u a :
  (id <$> nodes workflow1) !! u = Some a → ∃ u', (id <$> nodes workflow2) !! u' = Some a.
Proof.
  intros Hu. apply list_elem_of_lookup_1. rewrite <-Hids.
  by eapply list_elem_of_lookup_2.
Qed.

Lemma same_id_fun u u1 u2 : same_id u u1 → same_id u u2 → u1 = u2.
Proof.
  intros (a & Ha & H1) (b & Hb & H2). assert (b = a) as -> by congruence.
  eapply NoDup_lookup; [apply NoDup_ids2|done..].
Qed.

Lemma edge_transfer u v :
  (u, v) ∈ Graph.edges (graph_of workflow1) →
  ∃ u' v', same_id u u' ∧ same_id v v' ∧
           (u', v') ∈ Graph.edges (graph_of workflow2).
Proof.
  intros (c & Hc & Hu & Hv)%edges_ids; [|done].
  destruct (same_id_total _ _ Hu) as [u' Hu'].
  destruct (same_id_total _ _ Hv) as [v' Hv'].
  exists u', v'. split_and!; [eauto..|].
  apply edges_ids; [apply NoDup_ids2|]. exists c. auto.
Qed.

Lemma walk_transfer n u v v' :
  walk (graph_of workflow1) n u v → same_id v v' →
  ∃ u', same_id u u' ∧ walk (graph_of workflow2) n u' v'.
Proof.
  intros Hw. revert v'. induction Hw as [v|n u v w _ IH He]; intros v' Hv.
  - exists v'. split; [done|constructor].
  - destruct (edge_transfer _ _ He) as (v1 & w1 & Hv1 & Hw1 & He1).
    assert (w1 = v') as -> by (by eapply same_id_fun).
    destruct (IH v1 Hv1) as (u' & Hu & Hwalk). exists u'. split; [done|].
    by econstructor.
Qed.

Lemma path_transfer u v v' :
  path (graph_of workflow1) u v → same_id v v' →
  ∃ u', same_id u u' ∧ path (graph_of workflow2) u' v'.
Proof.
  intros Hp. revert v'. induction Hp as [u v He|u v w _ IH He]; intros v' Hv.
  - destruct (edge_transfer _ _ He) as (u1 & v1 & Hu1 & Hv1 & He1).
    assert (v1 = v') as -> by (by eapply same_id_fun).
    exists u1. split; [done|]. by constructor.
  - destruct (edge_transfer _ _ He) as (v1 & w1 & Hv1 & Hw1 & He1).
    assert (w1 = v') as -> by (by eapply same_id_fun).
    destruct (IH v1 Hv1) as (u' & Hu & Hpath). exists u'. split; [done|].
    by econstructor.
Qed.

Lemma cyclic_transfer :
  cyclic (graph_of workflow1) → cyclic (graph_of workflow2).
Proof.
  intros [v Hv].
  destruct (path_valid _ _ _ (graph_of_well_formed _) Hv) as [Hlt _].
  rewrite graph_of_node_count in Hlt.
  destruct (lookup_lt_is_Some_2 (id <$> nodes workflow1) v) as [a Ha];
    [by rewrite length_fmap|].
  destruct (same_id_total _ _ Ha) as [v' Hv'].
  destruct (path_transfer v v v' Hv) as (u' & Hu & Hp); [eauto|].
  assert (u' = v') as -> by (eapply same_id_fun; eauto).
  by exists v'.
Qed.

Lemma layer_transfer u u' L1 L2 :
  same_id u u' →
  layers_of workflow1 !! u = Some L1 → layers_of workflow2 !! u' = Some L2 →
  L1 ≤ L2.
Proof.
  intros Hu H1 H2. destruct (layers_of_walk _ _ _ H1) as (r & Hw & _).
  destruct (walk_transfer _ _ _ _ Hw Hu) as (r' & _ & Hw').
  destruct (walk_layers _ _ _ _ _ Hw' H2) as (lr & _ & Hle). lia.
Qed.
End NodeOrderTransfer.

Section NodeOrderLayers.
Implicit Types (workflow : Workflow).

Lemma layers_of_node_order workflow1 workflow2 u u' a L :
  nodes workflow1 ≡ₚ nodes workflow2 →
  connections workflow1 ≡ₚ connections workflow2 →
  NoDup (id <$> nodes workflow1) →
  (id <$> nodes workflow1) !! u = Some a →
  (id <$> nodes workflow2) !! u' = Some a →
  layers_of workflow1 !! u = Some L → layers_of workflow2 !! u' = Some L.
Proof.
  intros Hns Hcs Hnd Hu Hu' HL.
  assert (id <$> nodes workflow1 ≡ₚ id <$> nodes workflow2) as Hids
    by (by rewrite Hns).
  assert (NoDup (id <$> nodes workflow2)) as Hnd2 by (by rewrite <-Hids).
  destruct (layers_of_defined _ _ _ HL) as [Hac _].
  assert (¬ cyclic (graph_of workflow2)) as Hac2.
  { intros Hcyc. apply Hac.
    apply (cyclic_transfer workflow2 workflow1); [done..| |done].
    intros c. by rewrite Hcs. }
  destruct (proj2 (proj1 (layers_of_spec workflow2 Hac2) u')) as [L2 HL2].
  { apply lookup_lt_Some in Hu'. by rewrite length_fmap in Hu'. }
  rewrite HL2. f_equal. apply Nat.le_antisymm.
  - apply (layer_transfer workflow2 workflow1) with u' u; [done..| |eauto|done|done].
    intros c. by rewrite Hcs.
  - apply (layer_transfer workflow1 workflow2) with u u'; [done..| |eauto|done|done].
    intros c. by rewrite Hcs.
Qed.
End NodeOrderLayers.

(** X12.  The vertical layout depends on the graph only, not on the order
    in which nodes and connections are listed.  Two workflows with distinct
    identifiers whose node lists and whose connection lists are
    permutations of each other give every identifier the same [y],
    whatever the order of iteration of the hash map in either run. *)
Theorem node_order_irrelevant (seed1 seed2 : list nat) (cfg : DagLayout)
  (workflow1 workflow2 : Workflow) :
  nodes workflow1 ≡ₚ nodes workflow2 →
  connections workflow1 ≡ₚ connections workflow2 →
  NoDup (id <$> nodes workflow1) →
  ∃ workflow1' workflow2',
    Layout.apply seed1 cfg workflow1 = Some workflow1' ∧
    Layout.apply seed2 cfg workflow2 = Some workflow2' ∧
    ∀ n1, n1 ∈ nodes workflow1' →
          ∃ n2, n2 ∈ nodes workflow2' ∧ id n2 = id n1 ∧ y n2 = y n1.
Proof.
  intros Hns Hcs Hnd.
  assert (id <$> nodes workflow1 ≡ₚ id <$> nodes workflow2) as Hids
    by (by rewrite Hns).
  assert (NoDup (id <$> nodes workflow2)) as Hnd2 by (by rewrite <-Hids).
  assert (∀ c, c ∈ connections workflow1 → c ∈ connections workflow2) as Hcs12
    by (intros c; by rewrite Hcs).
  assert (∀ c, c ∈ connections workflow2 → c ∈ connections workflow1) as Hcs21
    by (intros c; by rewrite Hcs).
  destruct (apply_cases seed1 cfg workflow1) as [[Hcyc Happ1]|Hac].
  { exists workflow1, workflow2. split; [done|]. split.
    - apply apply_with_cyclic. by apply (cyclic_transfer workflow1 workflow2).
    - intros n1 Hn1. exists n1. by rewrite <-Hns. }
  assert (¬ cyclic (graph_of workflow2)) as Hac2.
  { intros Hcyc. apply Hac. by apply (cyclic_transfer workflow2 workflow1). }
  destruct (apply_coordinates seed1 cfg workflow1 Hac Hnd)
    as (workflow1' & nbl1 & Happ1 & _ & Hlay1 & Hxy1).
  destruct (apply_coordinates seed2 cfg workflow2 Hac2 Hnd2)
    as (workflow2' & nbl2 & Happ2 & _ & Hlay2 & Hxy2).
  exists workflow1', workflow2'. split; [done|]. split; [done|].
  intros n1 (k & Hk)%list_elem_of_lookup_1.
  assert (k < length (nodes workflow1)) as Hlt.
  { destruct (apply_ids seed1 cfg workflow1) as (w & Hw & Hidw & _).
    assert (w = workflow1') as -> by congruence.
    apply lookup_lt_Some in Hk.
    by rewrite <-(length_fmap id), Hidw, length_fmap in Hk. }
  destruct (proj2 (proj1 (layers_of_spec workflow1 Hac) k) Hlt) as [L HL].
  destruct (layered_cover _ _ _ _ Hlay1 HL) as (ms & i & Hms & Hi).
  destruct (Hxy1 _ _ _ _ Hms Hi) as (n & Hn & Hn').
  rewrite Hk in Hn'. injection Hn' as ->.
  assert ((id <$> nodes workflow1) !! k = Some (id n)) as Ha
    by (by rewrite list_lookup_fmap, Hn).
  destruct (same_id_total workflow1 workflow2 Hids _ _ Ha) as [k' Ha'].
  pose proof (layers_of_node_order _ _ _ _ _ _ Hns Hcs Hnd Ha Ha' HL) as HL'.
  destruct (layered_cover _ _ _ _ Hlay2 HL') as (ms' & i' & Hms' & Hi').
  destruct (Hxy2 _ _ _ _ Hms' Hi') as (n' & Hn2 & Hn2').
  eexists. split; [by eapply list_elem_of_lookup_2|]. cbn [id y].
  split; [|done]. rewrite list_lookup_fmap, Hn2 in Ha'. by injection Ha'.
Qed.

Lemma node_order_irrelevant_witness :
  nodes diamond ≡ₚ nodes diamond_reordered ∧
  connections diamond ≡ₚ connections diamond_reordered ∧
  NoDup (id <$> nodes diamond) ∧
  ∃ workflow1' workflow2',
    Layout.apply [] DagLayout_default diamond = Some workflow1' ∧
    Layout.apply [] DagLayout_default diamond_reordered = Some workflow2'.
Proof.
  assert (nodes diamond ≡ₚ nodes diamond_reordered) as Hns.
  { unfold diamond, diamond_reordered. cbn [nodes].
    etrans; [apply Permutation_swap|]. do 2 apply Permutation_skip.
    apply Permutation_swap. }
  assert (connections diamond ≡ₚ connections diamond_reordered) as Hcs
    by reflexivity.
  assert (NoDup (id <$> nodes diamond)) as Hnd
    by (apply (bool_decide_unpack _); vm_compute; exact I).
  split; [exact Hns|]. split; [exact Hcs|]. split; [exact Hnd|].
  destruct (node_order_irrelevant [] [] DagLayout_default diamond
              diamond_reordered Hns Hcs Hnd) as (w1 & w2 & H1 & H2 & _).
  exists w1, w2. exact (conj H1 H2).
Defined.

(** ** A workflow without edges *)
Section Unconnected.
Implicit Types (workflow : Workflow).

Lemma no_edges_acyclic (g : Graph.t) : Graph.edges g = [] → ¬ cyclic g.
Proof.
  intros He [v Hv]. apply path_last in Hv as (p & Hp & _).
  rewrite He in Hp. by apply elem_of_nil in Hp.
Qed.

Lemma no_edges_layers workflow v :
  Graph.edges (graph_of workflow) = [] → v < length (nodes workflow) →
  layers_of workflow !! v = Some 0.
Proof.
  intros He Hv. apply layers_of_root; [by apply no_edges_acyclic|done|].
  unfold Graph.incoming. by rewrite He.
Qed.
End Unconnected.

(** X13.  Nodes without edges between them are laid out in one row.  When
    no connection joins two nodes of the workflow (distinct identifiers,
    default configuration), every node gets [y = 0] and the [n] nodes take
    the [n] places [x = 30 - 150 n + 300 i], [i = 0 .. n - 1], one each.
    The workflow that the editor starts with is such a workflow: its three
    nodes, created one below the other at [x = 350], end up side by side at
    [x = -420], [-120] and [180]. *)
Theorem unconnected_nodes_form_a_row (seed : list nat) (workflow : Workflow) :
  Graph.edges (graph_of workflow) = [] → NoDup (id <$> nodes workflow) →
  (300 * Z.of_nat (length (nodes workflow)) < 2 ^ 24)%Z →
  ∃ workflow' row,
    Layout.apply seed DagLayout_default workflow = Some workflow' ∧
    row ≡ₚ seq 0 (length (nodes workflow)) ∧
    ∀ i k, row !! i = Some k →
      x_value workflow' k
      = Some (30 - 150 * Z.of_nat (length (nodes workflow)) + 300 * Z.of_nat i)%Z ∧
      y_value workflow' k = Some 0%Z.
Proof.
  intros He Hnd Hsize. pose proof (no_edges_acyclic _ He) as Hac.
  destruct (apply_default_values seed workflow Hac Hnd Hsize)
    as (workflow' & nbl & Happ & _ & Hlay & Hval).
  exists workflow', (layer_at nbl 0). split; [done|].
  destruct (layers_of_spec workflow Hac) as [Hdom _].
  assert (layer_at nbl 0 ≡ₚ seq 0 (length (nodes workflow))) as Hrow.
  { apply NoDup_Permutation; [apply Hlay|apply NoDup_seq|].
    intros v. rewrite (proj1 Hlay v 0), elem_of_seq. split.
    - intros Hv. split; [lia|]. apply Hdom. eauto.
    - intros [_ Hv]. by apply no_edges_layers. }
  split; [done|]. intros i k Hi.
  assert (nbl !! 0 = Some (layer_at nbl 0)) as H0.
  { unfold layer_at in *. destruct (nbl !! 0); [done|]. by destruct i. }
  destruct (Hval _ _ _ _ H0 Hi) as (_ & _ & Hx & Hy).
  rewrite Hx, Hy. by rewrite Hrow, length_seq.
Qed.

Lemma unconnected_nodes_form_a_row_witness :
  Graph.edges (graph_of (UpdateMainInit.new_init 1 2 3)) = [] ∧
  NoDup (id <$> nodes (UpdateMainInit.new_init 1 2 3)) ∧
  (300 * Z.of_nat (length (nodes (UpdateMainInit.new_init 1%nat 2%nat 3%nat))) < 2 ^ 24)%Z ∧
  ∃ workflow' row,
    Layout.apply [] DagLayout_default (UpdateMainInit.new_init 1 2 3)
    = Some workflow' ∧
    row ≡ₚ seq 0 3.
Proof.
  assert (Graph.edges (graph_of (UpdateMainInit.new_init 1 2 3)) = []) as He
    by reflexivity.
  assert (NoDup (id <$> nodes (UpdateMainInit.new_init 1 2 3))) as Hnd
    by (apply (bool_decide_unpack _); vm_compute; exact I).
  assert (300 * Z.of_nat (length (nodes (UpdateMainInit.new_init 1%nat 2%nat 3%nat))) < 2 ^ 24)%Z
    as Hsize by reflexivity.
  split; [exact He|]. split; [exact Hnd|]. split; [exact Hsize|].
  destruct (unconnected_nodes_form_a_row [] _ He Hnd Hsize)
    as (workflow' & row & Happ & Hrow & _).
  exists workflow', row. exact (conj Happ Hrow).
Defined.

(** * The category tables *)

(** X14.  The table of node templates fits the rest of the sidebar: it has
    the 24 entries that its array type declares, no node type occurs
    twice, the groups of the sidebar are the display names of the six
    categories in their order of declaration (in both revisions of the
    sidebar), the templates are listed group by group in that very order,
    so that every template belongs to exactly one group, and no group is
    empty. *)
Theorem node_templates_well_formed :
  length UpdateSidebar.NODE_TEMPLATES = UpdateSidebar.NODE_TEMPLATES_len ∧
  NoDup (UpdateSidebar.node_type <$> UpdateSidebar.NODE_TEMPLATES) ∧
  UpdateSidebar.new_order = new_fmt <$> [Entry; Durable; State; Flow; Timing; Signal] ∧
  UpdateSidebarCategories.new_loop_array = UpdateSidebar.new_order ∧
  mjoin ((λ cat, filter (λ t, UpdateSidebar.category t = cat)
                        UpdateSidebar.NODE_TEMPLATES) <$> UpdateSidebar.new_order)
  = UpdateSidebar.NODE_TEMPLATES ∧
  ∀ cat, cat ∈ UpdateSidebar.new_order →
         ∃ t, t ∈ UpdateSidebar.NODE_TEMPLATES ∧ UpdateSidebar.category t = cat.
Proof.
  split_and!.
  - reflexivity.
  - apply (bool_decide_unpack _). vm_compute. exact I.
  - reflexivity.
  - reflexivity.
  - vm_compute. reflexivity.
  - assert (Forall (λ cat, Exists (λ t, UpdateSidebar.category t = cat)
                                  UpdateSidebar.NODE_TEMPLATES)
                   UpdateSidebar.new_order) as Hall
      by (apply (bool_decide_unpack _); vm_compute; exact I).
    intros cat Hcat. rewrite Forall_forall in Hall.
    by apply Exists_exists, Hall.
Qed.

(** X15.  The two revisions of the sidebar label the groups alike: the
    label that [update_sidebar.py] installs and the one that
    [update_sidebar_categories.py] installs are equal exactly on the six
    category names, and on the text [Other], which is no category name.
    Elsewhere the first shows the unknown name itself and the second shows
    [Other]. *)
Theorem sidebar_labels_agree (cat : string) :
  (UpdateSidebar.new_cat_match cat = UpdateSidebarCategories.new_cat_label cat ↔
   cat ∈ UpdateSidebar.new_order ∨ cat = "Other") ∧
  (cat ∉ UpdateSidebar.new_order →
   UpdateSidebar.new_cat_match cat = cat ∧
   UpdateSidebarCategories.new_cat_label cat = "Other").
Proof.
  unfold UpdateSidebar.new_cat_match, UpdateSidebarCategories.new_cat_label,
    UpdateSidebar.new_order.
  rewrite !elem_of_cons, elem_of_nil.
  repeat match goal with
         | |- context [String.eqb cat ?s] =>
             destruct (String.eqb_spec cat s) as [->|?]; [simpl; by intuition|]
         end.
  intuition congruence.
Qed.

Lemma sidebar_labels_agree_witness :
  ("webhook" ∉ UpdateSidebar.new_order) ∧
  UpdateSidebar.new_cat_match "webhook" = "webhook" ∧
  UpdateSidebarCategories.new_cat_label "webhook" = "Other".
Proof.
  assert ("webhook" ∉ UpdateSidebar.new_order) as Hn
    by (apply (bool_decide_unpack _); vm_compute; exact I).
  split; [exact Hn|]. exact (proj2 (sidebar_labels_agree "webhook") Hn).
Defined.

(** X16.  The renaming of the categories keeps the colours.  Each of the
    five old categories has one new category that carries its classes
    unchanged in all six tables of colours (the badge of [main.rs], the
    border, the icon background and the accent bar of a node, and the two
    tables of the sidebar); different old categories go to different new
    ones, and [State], which is new, is none of them. *)
Theorem migration_keeps_colours :
  ∃ m : OldNodeCategory → NodeCategory,
    (∀ c1 c2, m c1 = m c2 → c1 = c2) ∧
    (∀ c, m c ≠ State) ∧
    ∀ c,
      UpdateMainCategory.new_badges (m c) = UpdateMainCategory.old_badges c ∧
      UpdateUiNode.new_border (m c) = UpdateUiNode.old_border c ∧
      UpdateUiNode.new_bg (m c) = UpdateUiNode.old_bg c ∧
      UpdateUiNode.new_accent (m c) = UpdateUiNode.old_accent c ∧
      UpdateSidebar.new_border_bg (new_fmt (m c))
      = UpdateSidebar.old_border_bg (old_fmt c) ∧
      UpdateSidebarCategories.new_ico_bg (new_fmt (m c))
      = UpdateSidebarCategories.old_ico_bg (old_fmt c).
Proof.
  exists (λ c, match c with
               | Trigger => Entry | Action => Durable | Logic => Flow
               | Output => Timing | Restate => Signal
               end).
  split_and!.
  - by intros [] [].
  - by intros [].
  - intros []; split_and!; reflexivity.
Qed.

(** X17.  The nodes of the workflow that the editor starts with are
    instances of templates of the sidebar: there is a template with the
    node type, the name, the icon and the category of each of them. *)
Theorem initial_nodes_are_templates (n : UpdateMainInit.InitNode) :
  n ∈ UpdateMainInit.new_init_nodes →
  ∃ t, t ∈ UpdateSidebar.NODE_TEMPLATES ∧
       UpdateSidebar.node_type t = UpdateMainInit.node_type n ∧
       UpdateSidebar.label t = UpdateMainInit.name n ∧
       UpdateSidebar.icon t = UpdateMainInit.icon n ∧
       UpdateSidebar.category t = new_fmt (UpdateMainInit.category n).
Proof.
  intros Hn. unfold UpdateMainInit.new_init_nodes in Hn.
  repeat (apply elem_of_cons in Hn as [->|Hn]); [..|by apply elem_of_nil in Hn].
  - exists (UpdateSidebar.mkNodeTemplate "http-handler" "HTTP Handler"
              "Handle HTTP/gRPC invocation" "globe" "entry").
    split; [|done]. unfold UpdateSidebar.NODE_TEMPLATES. repeat first [by left|right].
  - exists (UpdateSidebar.mkNodeTemplate "run" "Durable Step"
              "ctx.run() - persisted side effect" "shield" "durable").
    split; [|done]. unfold UpdateSidebar.NODE_TEMPLATES. repeat first [by left|right].
  - exists (UpdateSidebar.mkNodeTemplate "condition" "If / Else"
              "Conditional branching" "git-branch" "flow").
    split; [|done]. unfold UpdateSidebar.NODE_TEMPLATES. repeat first [by left|right].
Qed.

Lemma initial_nodes_are_templates_witness :
  UpdateMainInit.mkInitNode "Durable Step" "Create user in database"
    "run" Durable "shield" 350 170 ∈ UpdateMainInit.new_init_nodes ∧
  ∃ t, t ∈ UpdateSidebar.NODE_TEMPLATES ∧ UpdateSidebar.node_type t = "run".
Proof.
  assert (UpdateMainInit.mkInitNode "Durable Step" "Create user in database"
            "run" Durable "shield" 350 170 ∈ UpdateMainInit.new_init_nodes) as Hn
    by (right; left).
  split; [exact Hn|].
  destruct (initial_nodes_are_templates _ Hn) as (t & Ht & Hty & _).
  exists t. exact (conj Ht Hty).
Defined.

(** * The patch scripts *)
Section PyFacts.
Implicit Types (old new s r : string).

Lemma contains_cons old c s :
  Py.contains old (String c s) = String.prefix old (String c s) || Py.contains old s.
Proof. done. Qed.

Lemma contains_nil old :
  Py.contains old EmptyString = String.prefix old EmptyString.
Proof.
  change (Py.contains old EmptyString)
    with (String.prefix old EmptyString || false).
  apply orb_false_r.
Qed.

Lemma replace_from_cons old new c s :
  Py.replace_from old new 0 (String c s) =
    if String.prefix old (String c s)
    then String.append new (Py.replace_from old new (String.length old - 1) s)
    else String c (Py.replace_from old new 0 s).
Proof. done. Qed.

Lemma prefix_split old s :
  String.prefix old s = true → ∃ r, s = String.append old r.
Proof.
  revert s. induction old as [|a old IH]; intros s; [simpl; eauto|].
  destruct s as [|b s]; simpl; [done|].
  destruct (Ascii.ascii_dec a b) as [->|]; [|done].
  intros (r & ->)%IH. by exists r.
Qed.

Lemma prefix_append old r : String.prefix old (String.append old r) = true.
Proof.
  induction old as [|a old IH]; simpl; [by destruct r|].
  destruct (Ascii.ascii_dec a a); [done|congruence].
Qed.

Lemma contains_prefix old s : String.prefix old s = true → Py.contains old s = true.
Proof.
  intros Hp. destruct s as [|c s]; [|by rewrite contains_cons, Hp].
  by rewrite contains_nil.
Qed.

(** [contains] is the test for a substring. *)
Lemma contains_spec old s :
  Py.contains old s = true ↔
  ∃ a b, s = String.append a (String.append old b).
Proof.
  split.
  - induction s as [|c s IH].
    + rewrite contains_nil. intros (r & Hr)%prefix_split.
      exists EmptyString, r. exact Hr.
    + rewrite contains_cons. intros [Hp|Hs]%orb_true_iff.
      * apply prefix_split in Hp as (r & ->). by exists EmptyString, r.
      * destruct (IH Hs) as (a & b & ->). by exists (String c a), b.
  - intros (a & b & ->). induction a as [|c a IH].
    + apply contains_prefix. exact (prefix_append old b).
    + change (Py.contains old (String c (String.append a (String.append old b)))
              = true).
      by rewrite contains_cons, IH, orb_true_r.
Qed.

Lemma replace_from_absent old new s :
  Py.contains old s = false → Py.replace_from old new 0 s = s.
Proof.
  induction s as [|c s IH]; [done|].
  rewrite contains_cons, replace_from_cons. intros [-> Hs]%orb_false_iff.
  by rewrite IH.
Qed.

(** A text that does not occur is not replaced. *)
Lemma replace_absent s old new :
  Py.contains old s = false → Py.replace s old new = s.
Proof.
  destruct old as [|a old]; [by destruct s|]. apply replace_from_absent.
Qed.

Lemma replace_from_skip old new (p r : string) :
  Py.replace_from old new (String.length p) (String.append p r)
  = Py.replace_from old new 0 r.
Proof. induction p as [|c p IH]; [done|]. simpl. apply IH. Qed.

Lemma length_append_le (p r : string) :
  String.length r ≤ String.length (String.append p r).
Proof.
  induction p as [|c p IH]; [done|].
  change (String.append (String c p) r) with (String c (String.append p r)).
  cbn [String.length]. lia.
Qed.

Lemma replace_from_same (a : Ascii.ascii) old (n : nat) s :
  String.length s ≤ n →
  Py.replace_from (String a old) (String a old) 0 s = s.
Proof.
  revert s. induction n as [|n IH]; intros [|c s] Hn; simpl in Hn; try done; [lia|].
  rewrite replace_from_cons.
  destruct (String.prefix (String a old) (String c s)) eqn:Hp.
  - apply prefix_split in Hp as (r & Hr). simpl in Hr. injection Hr as -> ->.
    cbn [String.length]. rewrite Nat.sub_1_r. cbn [Nat.pred].
    rewrite replace_from_skip, IH; [done|].
    pose proof (length_append_le old r). lia.
  - rewrite IH; [done|lia].
Qed.

(** Replacing a text by itself changes nothing. *)
Lemma replace_same s old : Py.replace s old old = s.
Proof.
  destruct old as [|a old]; simpl.
  - induction s as [|c s IH]; [done|]. simpl. by rewrite IH.
  - by apply (replace_from_same a old (String.length s)).
Qed.
End PyFacts.

(** X18.  The patch of [update_layout_clippy.py] needs its patterns: on a
    file in which none of the four texts it looks for occurs, it writes the
    file back as it was, without a sign of failure. *)
Theorem clippy_patch_needs_its_patterns (content : string) :
  Py.contains UpdateLayoutClippy.old_use content = false →
  Py.contains UpdateLayoutClippy.old_panic content = false →
  Py.contains UpdateLayoutClippy.old_match content = false →
  Py.contains UpdateLayoutClippy.old_unwrap content = false →
  UpdateLayoutClippy.run content = content.
Proof.
  intros H1 H2 H3 H4. unfold UpdateLayoutClippy.run. cbv zeta.
  by rewrite (replace_absent _ _ _ H1), (replace_absent _ _ _ H2),
             (replace_absent _ _ _ H3), (replace_absent _ _ _ H4).
Qed.

Lemma clippy_patch_needs_its_patterns_witness :
  Py.contains UpdateLayoutClippy.old_use "fn main() {}" = false ∧
  Py.contains UpdateLayoutClippy.old_panic "fn main() {}" = false ∧
  Py.contains UpdateLayoutClippy.old_match "fn main() {}" = false ∧
  Py.contains UpdateLayoutClippy.old_unwrap "fn main() {}" = false ∧
  UpdateLayoutClippy.run "fn main() {}" = "fn main() {}".
Proof.
  split; [reflexivity|]. split; [reflexivity|]. split; [reflexivity|].
  split; [reflexivity|].
  exact (clippy_patch_needs_its_patterns "fn main() {}"
           eq_refl eq_refl eq_refl eq_refl).
Defined.

(** X19.  On the file that [update_layout.py] writes, all four
    replacements of [update_layout_clippy.py] take effect: afterwards the
    import of [HashSet], the [match] on the result of [toposort] and the
    comparator that unwraps are gone, and the shorter import, the
    [let ... else], the documented signature and the comparator with
    [unwrap_or] are there.  What the file held before the first script
    does not matter. *)
Theorem clippy_patch_takes_effect (content : string) :
  let written := UpdateLayout.run content in
  let patched := UpdateLayoutClippy.run written in
  Py.contains UpdateLayoutClippy.old_use written = true ∧
  Py.contains UpdateLayoutClippy.old_panic written = true ∧
  Py.contains UpdateLayoutClippy.old_match written = true ∧
  Py.contains UpdateLayoutClippy.old_unwrap written = true ∧
  Py.contains UpdateLayoutClippy.old_use patched = false ∧
  Py.contains UpdateLayoutClippy.old_match patched = false ∧
  Py.contains UpdateLayoutClippy.old_unwrap patched = false ∧
  Py.contains ".unwrap()" patched = false ∧
  Py.contains UpdateLayoutClippy.new_use patched = true ∧
  Py.contains UpdateLayoutClippy.new_panic patched = true ∧
  Py.contains UpdateLayoutClippy.new_match patched = true ∧
  Py.contains UpdateLayoutClippy.new_unwrap patched = true.
Proof. vm_compute. by split_and!. Qed.

(** X20.  Running [update_layout_clippy.py] a second time is not
    harmless.  The new signature ends with the old one, so the second run
    finds it again and puts the documentation comment and the attribute in
    front of [apply] once more; the other three replacements find nothing
    then. *)
Theorem clippy_patch_not_idempotent (content : string) :
  let patched := UpdateLayoutClippy.run (UpdateLayout.run content) in
  let again := UpdateLayoutClippy.run patched in
  again ≠ patched ∧
  again = Py.replace patched UpdateLayoutClippy.old_panic
                     UpdateLayoutClippy.new_panic ∧
  String.length again + String.length UpdateLayoutClippy.old_panic
  = String.length patched + String.length UpdateLayoutClippy.new_panic.
Proof.
  cbv zeta. split_and!.
  - intros Heq. apply (f_equal String.length) in Heq. vm_compute in Heq.
    discriminate Heq.
  - vm_compute. reflexivity.
  - vm_compute. reflexivity.
Qed.

(** X21.  The second replacement of [fix_node_badges.py] replaces a text
    by the same text: whatever the file holds, it leaves it as it is. *)
Theorem ensure_spacing_is_noop (content : string) :
  FixNodeBadges.ensure_spacing content = content.
Proof.
  unfold FixNodeBadges.ensure_spacing, FixNodeBadges.new_spacing.
  apply replace_same.
Qed.

(** ** Replacements that contain what they replace *)
Section Regrowth.
Implicit Types (old new pre s r : string).

Lemma length_append (p r : string) :
  String.length (String.append p r) = String.length p + String.length r.
Proof.
  induction p as [|c p IH]; [done|].
  change (String.append (String c p) r) with (String c (String.append p r)).
  cbn [String.length]. lia.
Qed.

Lemma append_assoc (p q r : string) :
  String.append (String.append p q) r = String.append p (String.append q r).
Proof.
  induction p as [|c p IH]; [done|].
  change (String c (String.append (String.append p q) r)
          = String c (String.append p (String.append q r))).
  by rewrite IH.
Qed.

(** A replacement by a text that is not shorter does not shorten the
    file. *)
Lemma replace_from_length (a : Ascii.ascii) old new (n : nat) s :
  String.length (String a old) ≤ String.length new →
  String.length s ≤ n →
  String.length s ≤ String.length (Py.replace_from (String a old) new 0 s).
Proof.
  intros Hlen. revert s. induction n as [|n IH]; intros [|c s] Hn;
    cbn [String.length] in Hn; try done; [lia|].
  rewrite replace_from_cons.
  destruct (String.prefix (String a old) (String c s)) eqn:Hp.
  - apply prefix_split in Hp as (r & Hr).
    change (String c s = String a (String.append old r)) in Hr.
    injection Hr as -> ->. cbn [String.length] in *.
    rewrite Nat.sub_1_r. cbn [Nat.pred]. rewrite replace_from_skip.
    rewrite !length_append. specialize (IH r).
    rewrite length_append in Hn. lia.
  - cbn [String.length]. specialize (IH s). lia.
Qed.

(** It makes the file longer when it is longer and finds something. *)
Lemma replace_from_grows (a : Ascii.ascii) old new s :
  String.length (String a old) < String.length new →
  Py.contains (String a old) s = true →
  String.length s < String.length (Py.replace_from (String a old) new 0 s).
Proof.
  intros Hlen. induction s as [|c s IH]; [done|].
  rewrite contains_cons, replace_from_cons.
  destruct (String.prefix (String a old) (String c s)) eqn:Hp.
  - intros _. apply prefix_split in Hp as (r & Hr).
    change (String c s = String a (String.append old r)) in Hr.
    injection Hr as -> ->.
    pose proof (replace_from_length a old new (String.length r) r) as Hr.
    cbn [String.length] in *.
    rewrite Nat.sub_1_r. cbn [Nat.pred]. rewrite replace_from_skip.
    rewrite !length_append. lia.
  - rewrite orb_false_l. intros Hs%IH. cbn [String.length]. lia.
Qed.

(** What it finds is still there afterwards when the new text ends with
    the old one. *)
Lemma replace_from_regrows (a : Ascii.ascii) old pre s :
  Py.contains (String a old) s = true →
  Py.contains (String a old)
    (Py.replace_from (String a old) (String.append pre (String a old)) 0 s) = true.
Proof.
  induction s as [|c s IH]; [done|].
  rewrite contains_cons, replace_from_cons.
  destruct (String.prefix (String a old) (String c s)) eqn:Hp.
  - intros _. apply contains_spec. eexists pre, _. apply append_assoc.
  - rewrite orb_false_l. intros Hs%IH. by rewrite contains_cons, Hs, orb_true_r.
Qed.

Lemma replace_regrowth s old pre :
  old ≠ EmptyString → pre ≠ EmptyString →
  Py.contains old s = true →
  Py.contains old (Py.replace s old (String.append pre old)) = true ∧
  String.length s < String.length (Py.replace s old (String.append pre old)).
Proof.
  intros Hold Hpre Hs. destruct old as [|a old]; [done|]. cbn [Py.replace].
  split; [by apply replace_from_regrows|]. apply replace_from_grows; [|done].
  rewrite length_append. destruct pre; [done|]. cbn [String.length]. lia.
Qed.
End Regrowth.

(** X22.  [update_mod_clippy.py] can be run safely only once.  Where the
    signature of [get_node_metadata] does not occur, the file stays as it
    is.  Where it occurs, the attribute is put in front of it, the file
    grows, and because the new text contains the old one the signature
    is found again by the next run, which adds the attribute once more:
    the second run never gives back the result of the first. *)
Theorem mod_clippy_patch_repeats (content : string) :
  (Py.contains UpdateModClippy.old_func content = false →
   UpdateModClippy.run content = content) ∧
  (Py.contains UpdateModClippy.old_func content = true →
   Py.contains UpdateModClippy.old_func (UpdateModClippy.run content) = true ∧
   String.length content < String.length (UpdateModClippy.run content) ∧
   UpdateModClippy.run (UpdateModClippy.run content) ≠ UpdateModClippy.run content).
Proof.
  split; [apply replace_absent|]. intros Hc. unfold UpdateModClippy.run.
  assert (UpdateModClippy.new_func
          = String.append (String.append "    #[allow(clippy::too_many_lines)]"
                                         Py.newline)
                          UpdateModClippy.old_func) as -> by reflexivity.
  assert (UpdateModClippy.old_func ≠ EmptyString) as Hold by done.
  assert (String.append "    #[allow(clippy::too_many_lines)]" Py.newline
          ≠ EmptyString) as Hpre by done.
  destruct (replace_regrowth _ _ _ Hold Hpre Hc) as [Hc1 Hlt1].
  destruct (replace_regrowth _ _ _ Hold Hpre Hc1) as [_ Hlt2].
  split_and!; [done..|]. intros Heq. rewrite Heq in Hlt2. lia.
Qed.

(** * The status badge *)

(** X23.  The two tables of the status badge know the same statuses: a
    status has colours and an icon of its own exactly when it has a label
    of its own.  Any other status, [pending] among them, gets the grey
    question mark and is labelled by its own name. *)
Theorem status_tables_consistent (status : string) :
  UpdateNodeBadges.tuple status
  = ("bg-slate-500/15", "text-slate-400", "border-slate-500/30", "help-circle", false)
  ↔ UpdateNodeBadges.label status = status.
Proof.
  unfold UpdateNodeBadges.tuple, UpdateNodeBadges.label.
  repeat match goal with
         | |- context [String.eqb status ?s] =>
             destruct (String.eqb_spec status s) as [->|?]; [by split|]
         end.
  done.
Qed.

(** X24.  The rewrite of the badge by [fix_node_badges.py] changes the
    class of the icon in one case only: without the spinner the old class
    ended in a blank, which the new one drops.  With the spinner the two
    are equal. *)
Theorem icon_class_refactored (is_spin : bool) :
  UpdateNodeBadges.icon_class is_spin
  = String.append (FixNodeBadges.icon_class is_spin)
                  (if is_spin then EmptyString else " ").
Proof. by destruct is_spin. Qed.

(** ** More connections *)
Section EdgeSubset.
Context (g1 g2 : Graph.t).
Hypothesis Hsub : ∀ e, e ∈ Graph.edges g1 → e ∈ Graph.edges g2.

Lemma walk_sub n u v : walk g1 n u v → walk g2 n u v.
Proof. induction 1; econstructor; eauto. Qed.

Lemma path_sub u v : path g1 u v → path g2 u v.
Proof.
  induction 1 as [u v He|u v w _ IH He]; [by apply path_edge, Hsub|].
  eapply path_snoc; [done|by apply Hsub].
Qed.

Lemma cyclic_sub : cyclic g1 → cyclic g2.
Proof. intros [v Hv]. exists v. by apply path_sub. Qed.
End EdgeSubset.

Section MoreConnections.
Implicit Types (workflow : Workflow).

Lemma graph_of_sub workflow1 workflow2 :
  nodes workflow1 = nodes workflow2 →
  (∀ c, c ∈ connections workflow1 → c ∈ connections workflow2) →
  (∀ e, e ∈ Graph.edges (graph_of workflow1) → e ∈ Graph.edges (graph_of workflow2)) ∧
  (Layout.build workflow1).2 = (Layout.build workflow2).2.
Proof.
  intros Hns Hcs. unfold graph_of, Layout.build. rewrite Hns.
  destruct (Layout.add_nodes (nodes workflow2)) as [[g im] rm]. cbn [fst snd].
  split; [|done]. intros e.
  rewrite !(proj2 (add_edges_spec im _ g)), !elem_of_app, !list_elem_of_omap.
  intros [He|(c & Hc & Hr)]; [by left|]. right. exists c. auto.
Qed.

Lemma layers_of_mono workflow1 workflow2 v L1 L2 :
  nodes workflow1 = nodes workflow2 →
  (∀ c, c ∈ connections workflow1 → c ∈ connections workflow2) →
  layers_of workflow1 !! v = Some L1 → layers_of workflow2 !! v = Some L2 →
  L1 ≤ L2.
Proof.
  intros Hns Hcs H1 H2. destruct (graph_of_sub _ _ Hns Hcs) as [Hsub _].
  destruct (layers_of_walk _ _ _ H1) as (r & Hw & _).
  apply (walk_sub _ _ Hsub) in Hw.
  destruct (walk_layers _ _ _ _ _ Hw H2) as (lr & _ & Hle). lia.
Qed.

Lemma layers_of_same_edges workflow1 workflow2 :
  nodes workflow1 = nodes workflow2 →
  (∀ c, c ∈ connections workflow1 ↔ c ∈ connections workflow2) →
  layers_of workflow1 = layers_of workflow2.
Proof.
  intros Hns Hcs.
  assert (∀ c, c ∈ connections workflow1 → c ∈ connections workflow2) as H12
    by (intros c; apply Hcs).
  assert (∀ c, c ∈ connections workflow2 → c ∈ connections workflow1) as H21
    by (intros c; apply Hcs).
  destruct (graph_of_sub _ _ Hns H12) as [Hsub12 _].
  destruct (graph_of_sub _ _ (eq_sym Hns) H21) as [Hsub21 _].
  apply map_eq. intros v.
  destruct (layers_of workflow1 !! v) as [L1|] eqn:H1,
           (layers_of workflow2 !! v) as [L2|] eqn:H2; [| | |done].
  - f_equal. apply Nat.le_antisymm.
    + by eapply (layers_of_mono workflow1 workflow2).
    + by eapply (layers_of_mono workflow2 workflow1).
  - destruct (layers_of_defined _ _ _ H1) as [Hac Hv].
    assert (¬ cyclic (graph_of workflow2)) as Hac2.
    { intros Hcyc. apply Hac. by eapply cyclic_sub. }
    rewrite Hns in Hv.
    destruct (proj2 (proj1 (layers_of_spec workflow2 Hac2) v) Hv) as [L2 HL2].
    congruence.
  - destruct (layers_of_defined _ _ _ H2) as [Hac Hv].
    assert (¬ cyclic (graph_of workflow1)) as Hac1.
    { intros Hcyc. apply Hac. by eapply cyclic_sub. }
    rewrite <-Hns in Hv.
    destruct (proj2 (proj1 (layers_of_spec workflow1 Hac1) v) Hv) as [L1 HL1].
    congruence.
Qed.
End MoreConnections.

(** X25.  A further connection never lifts a node.  When a workflow gets
    more connections and stays acyclic, no node moves to a lower layer
    number; with the default configuration (distinct identifiers, exact
    arithmetic) no [y] gets smaller. *)
Theorem more_connections_never_lift (seed1 seed2 : list nat)
  (workflow1 workflow2 : Workflow) :
  nodes workflow1 = nodes workflow2 →
  (∀ c, c ∈ connections workflow1 → c ∈ connections workflow2) →
  ¬ cyclic (graph_of workflow2) →
  ¬ cyclic (graph_of workflow1) ∧
  (∀ v, v < length (nodes workflow1) →
        ∃ L1 L2, layers_of workflow1 !! v = Some L1 ∧
                 layers_of workflow2 !! v = Some L2 ∧ L1 ≤ L2) ∧
  (NoDup (id <$> nodes workflow1) →
   (300 * Z.of_nat (length (nodes workflow1)) < 2 ^ 24)%Z →
   ∃ workflow1' workflow2',
     Layout.apply seed1 DagLayout_default workflow1 = Some workflow1' ∧
     Layout.apply seed2 DagLayout_default workflow2 = Some workflow2' ∧
     ∀ k, k < length (nodes workflow1) →
          ∃ y1 y2 : Z, y_value workflow1' k = Some y1 ∧
                       y_value workflow2' k = Some y2 ∧ (y1 ≤ y2)%Z).
Proof.
  intros Hns Hcs Hac2. destruct (graph_of_sub _ _ Hns Hcs) as [Hsub _].
  assert (¬ cyclic (graph_of workflow1)) as Hac1.
  { intros Hcyc. apply Hac2. by eapply cyclic_sub. }
  assert (∀ v, v < length (nodes workflow1) →
            ∃ L1 L2, layers_of workflow1 !! v = Some L1 ∧
                     layers_of workflow2 !! v = Some L2 ∧ L1 ≤ L2) as Hlayers.
  { intros v Hv.
    destruct (proj2 (proj1 (layers_of_spec workflow1 Hac1) v) Hv) as [L1 H1].
    rewrite Hns in Hv.
    destruct (proj2 (proj1 (layers_of_spec workflow2 Hac2) v) Hv) as [L2 H2].
    exists L1, L2. split_and!; [done..|]. by eapply layers_of_mono. }
  split_and!; [done..|]. intros Hnd Hsize.
  destruct (apply_default_values seed1 workflow1 Hac1 Hnd Hsize)
    as (w1 & nbl1 & Happ1 & _ & Hlay1 & Hval1).
  rewrite Hns in Hnd, Hsize.
  destruct (apply_default_values seed2 workflow2 Hac2 Hnd Hsize)
    as (w2 & nbl2 & Happ2 & _ & Hlay2 & Hval2).
  exists w1, w2. split_and!; [done..|]. intros k Hk.
  destruct (Hlayers k Hk) as (L1 & L2 & H1 & H2 & Hle).
  destruct (layered_cover _ _ _ _ Hlay1 H1) as (ms1 & i1 & Hms1 & Hi1).
  destruct (layered_cover _ _ _ _ Hlay2 H2) as (ms2 & i2 & Hms2 & Hi2).
  destruct (Hval1 _ _ _ _ Hms1 Hi1) as (_ & _ & _ & Hy1).
  destruct (Hval2 _ _ _ _ Hms2 Hi2) as (_ & _ & _ & Hy2).
  eexists _, _. split_and!; [done..|]. lia.
Qed.

Lemma more_connections_never_lift_witness :
  nodes chain_cut = nodes chain ∧
  (∀ c, c ∈ connections chain_cut → c ∈ connections chain) ∧
  ¬ cyclic (graph_of chain) ∧
  NoDup (id <$> nodes chain_cut) ∧
  (300 * Z.of_nat (length (nodes chain_cut)) < 2 ^ 24)%Z ∧
  ¬ cyclic (graph_of chain_cut) ∧
  (∃ L1 L2, layers_of chain_cut !! 2 = Some L1 ∧ layers_of chain !! 2 = Some L2 ∧
            L1 ≤ L2) ∧
  ∃ workflow1' workflow2' (y1 y2 : Z),
    Layout.apply [] DagLayout_default chain_cut = Some workflow1' ∧
    Layout.apply [] DagLayout_default chain = Some workflow2' ∧
    y_value workflow1' 2 = Some y1 ∧ y_value workflow2' 2 = Some y2 ∧ (y1 ≤ y2)%Z.
Proof.
  assert (∀ c, c ∈ connections chain_cut → c ∈ connections chain) as Hcs.
  { intros c Hc. apply list_elem_of_singleton in Hc as ->. by left. }
  assert (¬ cyclic (graph_of chain)) as Hac.
  { apply toposort_acyclic; [apply graph_of_well_formed|]. vm_compute. eauto. }
  assert (NoDup (id <$> nodes chain_cut)) as Hnd
    by (apply (bool_decide_unpack _); vm_compute; exact I).
  assert (300 * Z.of_nat (length (nodes chain_cut)) < 2 ^ 24)%Z as Hsize by reflexivity.
  assert (2 < length (nodes chain_cut)) as Hk by (vm_compute; lia).
  split; [reflexivity|]. split; [exact Hcs|]. split; [exact Hac|].
  split; [exact Hnd|]. split; [exact Hsize|].
  destruct (more_connections_never_lift [] [] chain_cut chain eq_refl Hcs Hac)
    as (Hac1 & Hlayers & Hys).
  split; [exact Hac1|]. split; [exact (Hlayers 2 Hk)|].
  destruct (Hys Hnd Hsize) as (w1 & w2 & H1 & H2 & Hy).
  destruct (Hy 2 Hk) as (y1 & y2 & Hy1 & Hy2 & Hle).
  exists w1, w2, y1, y2. exact (conj H1 (conj H2 (conj Hy1 (conj Hy2 Hle)))).
Defined.

(** X26.  Listing a connection more than once changes no layer.  Two
    workflows with the same nodes and the same connections, counted
    without multiplicity and in any order, get the same layer map and the
    same [y] for every node.  (The barycenters count an edge once per
    listing, so the order within a layer may differ.) *)
Theorem repeated_connections_keep_layers (seed1 seed2 : list nat)
  (cfg : DagLayout) (workflow1 workflow2 : Workflow) :
  nodes workflow1 = nodes workflow2 →
  (∀ c, c ∈ connections workflow1 ↔ c ∈ connections workflow2) →
  ∃ workflow1' workflow2',
    Layout.apply seed1 cfg workflow1 = Some workflow1' ∧
    Layout.apply seed2 cfg workflow2 = Some workflow2' ∧
    layers_of workflow1 = layers_of workflow2 ∧
    id <$> nodes workflow1' = id <$> nodes workflow2' ∧
    y <$> nodes workflow1' = y <$> nodes workflow2'.
Proof.
  intros Hns Hcs. pose proof (layers_of_same_edges _ _ Hns Hcs) as Hl.
  assert (∀ c, c ∈ connections workflow1 → c ∈ connections workflow2) as H12
    by (intros c; apply Hcs).
  assert (∀ c, c ∈ connections workflow2 → c ∈ connections workflow1) as H21
    by (intros c; apply Hcs).
  destruct (graph_of_sub _ _ Hns H12) as [Hsub12 Hrm].
  destruct (graph_of_sub _ _ (eq_sym Hns) H21) as [Hsub21 _].
  destruct (apply_cases seed1 cfg workflow1) as [[Hcyc Happ1]|Hac].
  { exists workflow1, workflow2. split_and!; [done| |done|by rewrite Hns..].
    apply apply_with_cyclic. by eapply cyclic_sub. }
  assert (¬ cyclic (graph_of workflow2)) as Hac2.
  { intros Hcyc. apply Hac. by eapply cyclic_sub. }
  destruct (apply_acyclic seed1 cfg workflow1 Hac) as (nbl1 & _ & Hlay1 & Happ1).
  destruct (apply_acyclic seed2 cfg workflow2 Hac2) as (nbl2 & _ & Hlay2 & Happ2).
  rewrite <-Hl in Hlay2. rewrite <-Hrm, <-Hns in Happ2.
  eexists _, _. split; [exact Happ1|]. split; [exact Happ2|].
  cbn [nodes]. split_and!; [done|by rewrite !foldl_write1_ids|].
  rewrite <-!assign_coordinates_writes. apply assign_coordinates_y.
  by eapply layered_unique.
Qed.

Lemma repeated_connections_keep_layers_witness :
  nodes diamond = nodes diamond_doubled ∧
  (∀ c, c ∈ connections diamond ↔ c ∈ connections diamond_doubled) ∧
  ∃ workflow1' workflow2',
    Layout.apply [] DagLayout_default diamond = Some workflow1' ∧
    Layout.apply [] DagLayout_default diamond_doubled = Some workflow2' ∧
    y <$> nodes workflow1' = y <$> nodes workflow2'.
Proof.
  assert (∀ c, c ∈ connections diamond ↔ c ∈ connections diamond_doubled) as Hcs.
  { intros c. unfold diamond, diamond_doubled. cbn [connections].
    rewrite !elem_of_cons, elem_of_nil. tauto. }
  split; [reflexivity|]. split; [exact Hcs|].
  destruct (repeated_connections_keep_layers [] [] DagLayout_default diamond
              diamond_doubled eq_refl Hcs) as (w1 & w2 & H1 & H2 & _ & _ & Hy).
  exists w1, w2. exact (conj H1 (conj H2 Hy)).
Defined.
